(** * Wind map particle engine: a shallow embedding of the TypeScript sources

    The development follows the layout of the repository:

    - [JS]                 the JavaScript [number] type and the [Math] routines
                           the sources call;
    - [Binary64]           the square root of binary64 arithmetic;
    - [MockWindData]       [src/data/mockWindData.ts]: field synthesis, colour
                           ramp, canonical particle spawn and advection;
    - [CanvasMap]          [src/app/map.tsx]: the canvas variant;
    - [WindParticleLayer]  the deck.gl composite layer;
    - [WebGLWindLayer]     [src/app/WebGLWindLayer.tsx]: [setNumParticles];
    - [WindTexture]        the same file: [createMockWindData];
    - [Shaders]            the same file: the arithmetic of the GLSL shaders;
    - [WebGLPasses]        the same file: the render passes and the
                           animation loop, over the WebGL objects they bind.

    Numbers.  A JavaScript [number] is modelled as an exact rational extended
    with [Infinity], [-Infinity] and [NaN]; the special values follow the
    IEEE-754 rules the sources rely on (division by zero, comparisons with
    [NaN]), while binary64 rounding, overflow and the sign of zero are
    abstracted away.  These definitions compute.  Where a statement would
    depend on the rounding it is given a margin that covers it, or its
    domain is restricted to the arguments on which binary64 arithmetic is
    exact; [Binary64] supplies the correctly rounded [Math.sqrt], on which
    the inputs where rounding does change an outcome are evaluated.

    Host.  [Math.sin], [Math.cos], [Math.sqrt], the stream of values returned
    by [Math.random()] and the map projection are supplied by the host and
    are parameters of the model.

    Loops.  A [for] loop over a known range is a structural recursion; a
    loop whose exit depends on the data takes fuel, and returns [None]
    when the fuel runs out.  Particle counts and loop counters are natural
    numbers. *)

From Stdlib Require Import QArith Qabs Qround Qminmax ZArith List Lia Lqa Bool.
From Stdlib Require SpecFloat.
Import ListNotations.

Set Implicit Arguments.

(* ===================================================================== *)
(** ** The JavaScript number model                                        *)
(* ===================================================================== *)

Module JS.

Inductive number : Type :=
| Fin (q : Q)
| PInf
| NInf
| NaN.

(** Finite results are kept in lowest terms, so that closed computations
    print and compare as expected. *)
Definition fin (q : Q) : number := Fin (Qred q).

Definition neg (a : number) : number :=
  match a with
  | Fin x => fin (- x)
  | PInf => NInf
  | NInf => PInf
  | NaN => NaN
  end.

Definition add (a b : number) : number :=
  match a, b with
  | NaN, _ | _, NaN => NaN
  | Fin x, Fin y => fin (x + y)
  | PInf, NInf | NInf, PInf => NaN
  | PInf, _ | _, PInf => PInf
  | NInf, _ | _, NInf => NInf
  end.

Definition sub (a b : number) : number := add a (neg b).

(** The infinity carrying the sign of [c] ([NaN] when [c] is zero). *)
Definition signed_inf (c : comparison) : number :=
  match c with
  | Gt => PInf
  | Lt => NInf
  | Eq => NaN
  end.

Definition mul (a b : number) : number :=
  match a, b with
  | NaN, _ | _, NaN => NaN
  | Fin x, Fin y => fin (x * y)
  | PInf, Fin y | Fin y, PInf => signed_inf (y ?= 0)
  | NInf, Fin y | Fin y, NInf => signed_inf (0 ?= y)
  | PInf, PInf | NInf, NInf => PInf
  | PInf, NInf | NInf, PInf => NInf
  end.

(** [x / 0] is an infinity with the sign of [x], and [0 / 0] is [NaN]; a
    finite number divided by an infinity is zero. *)
Definition div (a b : number) : number :=
  match a, b with
  | NaN, _ | _, NaN => NaN
  | Fin x, Fin y =>
      match y ?= 0 with
      | Eq => signed_inf (x ?= 0)
      | _ => fin (x / y)
      end
  | Fin _, (PInf | NInf) => Fin 0
  | PInf, Fin y => match y ?= 0 with Lt => NInf | _ => PInf end
  | NInf, Fin y => match y ?= 0 with Lt => PInf | _ => NInf end
  | (PInf | NInf), (PInf | NInf) => NaN
  end.

(** Comparisons: every comparison with [NaN] is false. *)
Definition ltb (a b : number) : bool :=
  match a, b with
  | NaN, _ | _, NaN => false
  | Fin x, Fin y => match x ?= y with Lt => true | _ => false end
  | NInf, (Fin _ | PInf) => true
  | Fin _, PInf => true
  | _, _ => false
  end.

Definition leb (a b : number) : bool :=
  match a, b with
  | NaN, _ | _, NaN => false
  | Fin x, Fin y => match x ?= y with Gt => false | _ => true end
  | NInf, _ => true
  | _, PInf => true
  | _, _ => false
  end.

Definition gtb (a b : number) : bool := ltb b a.
Definition geb (a b : number) : bool := leb b a.

Definition is_finite (a : number) : bool :=
  match a with Fin _ => true | _ => false end.

(** [Number.MAX_VALUE], the largest finite binary64 number. *)
Definition MAX_VALUE_Q : Q := inject_Z (2 ^ 1024 - 2 ^ 971).

Definition MAX_VALUE : number := Fin MAX_VALUE_Q.

Definition Infinity : number := PInf.

(** [Math.PI] (the decimal expansion the language prints for it). *)
Definition Math_PI : number := Fin 3.141592653589793.

Definition Math_abs (a : number) : number :=
  match a with
  | Fin x => Fin (Qabs x)
  | PInf | NInf => PInf
  | NaN => NaN
  end.

(** [Math.min]: [NaN] when an argument is [NaN]. *)
Definition Math_min (a b : number) : number :=
  match a, b with
  | NaN, _ | _, NaN => NaN
  | _, _ => if leb a b then a else b
  end.

(** [Math.max]: [NaN] when an argument is [NaN]. *)
Definition Math_max (a b : number) : number :=
  match a, b with
  | NaN, _ | _, NaN => NaN
  | _, _ => if leb a b then b else a
  end.

(** [Math.floor]. *)
Definition Math_floor (a : number) : number :=
  match a with
  | Fin x => Fin (inject_Z (Qfloor x))
  | _ => a
  end.

(** [Math.ceil]. *)
Definition Math_ceil (a : number) : number :=
  match a with
  | Fin x => Fin (inject_Z (Qceiling x))
  | _ => a
  end.

(** Rounding towards zero, and the remainder [a % 1], which takes the
    sign of [a]. *)
Definition Qtrunc (x : Q) : Z :=
  match (x ?= 0)%Q with
  | Lt => Qceiling x
  | _ => Qfloor x
  end.

Definition rem1 (a : number) : number :=
  match a with
  | Fin x => fin (x - inject_Z (Qtrunc x))
  | _ => NaN
  end.

(** The byte a [Uint8Array] stores for a number: the integer part modulo
    256, and 0 for [NaN] and the infinities. *)
Definition toUint8 (a : number) : Z :=
  match a with
  | Fin x => (Qtrunc x mod 256)%Z
  | _ => 0%Z
  end.

(** [Math.round] rounds to the nearest integer, halves upwards. *)
Definition round_half_up (q : Q) : Z := Qfloor (q + (1 # 2)).

Definition Math_round (a : number) : number :=
  match a with
  | Fin x => Fin (inject_Z (round_half_up x))
  | _ => a
  end.

(** [Math.pow (x, n)] for a natural exponent [n]. *)
Fixpoint Math_pow (a : number) (n : nat) : number :=
  match n with
  | O => Fin 1
  | S O => a
  | S n' => mul a (Math_pow a n')
  end.

(** The routines of [Math] that have no rational model. *)
Record MathLib : Type := {
  Math_sin : number -> number;
  Math_cos : number -> number;
  Math_sqrt : number -> number
}.

(** [Math.random()]: the host supplies the sequence of its results; a
    computation that draws random numbers threads the index of the next
    one. *)
Definition Rand (A : Type) : Type := nat -> A * nat.

Definition ret {A} (a : A) : Rand A := fun k => (a, k).

Definition bind {A B} (m : Rand A) (f : A -> Rand B) : Rand B :=
  fun k => let (a, k') := m k in f a k'.

Definition Math_random (rnd : nat -> number) : Rand number :=
  fun k => (rnd k, S k).

(** [xs.map (f)] for a callback that draws random numbers. *)
Fixpoint mapM {A B} (f : A -> Rand B) (xs : list A) : Rand (list B) :=
  match xs with
  | [] => ret []
  | x :: xs' => bind (f x) (fun y => bind (mapM f xs') (fun ys => ret (y :: ys)))
  end.

End JS.

Declare Scope js_scope.
Delimit Scope js_scope with js.
Bind Scope js_scope with JS.number.
Notation "a + b" := (JS.add a b) : js_scope.
Notation "a - b" := (JS.sub a b) : js_scope.
Notation "a * b" := (JS.mul a b) : js_scope.
Notation "a / b" := (JS.div a b) : js_scope.
Notation "a <? b" := (JS.ltb a b) : js_scope.
Notation "a <=? b" := (JS.leb a b) : js_scope.
Notation "a >? b" := (JS.gtb a b) : js_scope.
Notation "a >=? b" := (JS.geb a b) : js_scope.
Notation "x <- m ;; k" := (JS.bind m (fun x => k))
  (at level 61, m at next level, right associativity) : js_scope.

Import JS.

(** A numeric literal of the sources. *)
Definition lit (q : Q) : number := Fin q.
Arguments lit q%_Q.

(* ===================================================================== *)
(** ** [Math.sqrt] in binary64                                            *)
(* ===================================================================== *)

(** The square root the language computes: the IEEE-754 square root of
    the binary64 number nearest to the argument, both taken from the
    executable specification of floating-point arithmetic of the Standard
    Library ([SpecFloat], precision 53, ties to even). *)

Module Binary64.

Definition prec : Z := 53.
Definition emax : Z := 1024.

(** The binary64 number nearest to a rational: the correctly rounded
    quotient of its numerator by its denominator. *)
Definition ofQ (q : Q) : SpecFloat.spec_float :=
  match Qnum q with
  | Z0 => SpecFloat.S754_zero false
  | Zpos n =>
      SpecFloat.SFdiv prec emax (SpecFloat.S754_finite false n 0)
        (SpecFloat.S754_finite false (Qden q) 0)
  | Zneg n =>
      SpecFloat.SFdiv prec emax (SpecFloat.S754_finite true n 0)
        (SpecFloat.S754_finite false (Qden q) 0)
  end.

Definition ofNumber (a : number) : SpecFloat.spec_float :=
  match a with
  | Fin q => ofQ q
  | PInf => SpecFloat.S754_infinity false
  | NInf => SpecFloat.S754_infinity true
  | NaN => SpecFloat.S754_nan
  end.

Definition pow2 (e : Z) : Q :=
  match e with
  | Zneg p => 1 # (2 ^ p)
  | _ => inject_Z (2 ^ e)
  end.

(** The value of a binary64 number ([-0] is read as [0]). *)
Definition toNumber (f : SpecFloat.spec_float) : number :=
  match f with
  | SpecFloat.S754_zero _ => Fin 0
  | SpecFloat.S754_infinity false => PInf
  | SpecFloat.S754_infinity true => NInf
  | SpecFloat.S754_nan => NaN
  | SpecFloat.S754_finite s m e =>
      fin (inject_Z (if s then Zneg m else Zpos m) * pow2 e)
  end.

Definition sqrt (a : number) : number :=
  toNumber (SpecFloat.SFsqrt prec emax (ofNumber a)).

End Binary64.

(* ===================================================================== *)
(** ** [src/data/mockWindData.ts]                                         *)
(* ===================================================================== *)

Module MockWindData.

Local Open Scope js_scope.

Record WindPoint : Type := {
  position : number * number;   (* [longitude, latitude] *)
  direction : number;
  speed : number
}.

Module WindParticle.
Record t : Type := {
  x : number;
  y : number;
  age : number;
  maxAge : number;
  speed : number;
  direction : number
}.
End WindParticle.

Record Bounds : Type := {
  west : number;
  south : number;
  east : number;
  north : number
}.

Record LngLat : Type := { lng : number; lat : number }.

(** [MapWithProjection]: the only method used is [unproject]. *)
Record MapWithProjection : Type := {
  unproject : number * number -> LngLat
}.

(** How a loop body ends: it falls through to the code after the loop, or
    the enclosing function returns. *)
Inductive flow (A : Type) : Type :=
| Next (a : A)
| Return (a : A).

(** *** [getWindColor] *)

Definition getWindColor (speed : number) : number * number * number :=
  if speed <? lit 0.3 then
    (lit 30, lit 144, lit 255)
  else if speed <? lit 0.6 then
    let g := Math_round (lit 200 + speed * lit 55) in
    (lit 255, g, lit 0)
  else
    let g := Math_round (lit 165 - speed * lit 165) in
    (lit 255, g, lit 0).

Section WithMath.

Variable M : MathLib.

(** *** [generateMockWindData] *)

Definition safetyLimit : nat := 500.

(** The body of the inner loop after the cap test: the sample emitted for
    the grid cell [(lon, lat)]. *)
Definition windSample (lon lat : number) : WindPoint :=
  let isNorth := lat >? lit 14.0 in
  if isNorth then
    {| position := (lon, lat);
       direction :=
         Math_PI * lit 0.5
         + Math_sin M (lat * lit 0.3) * lit 0.5
         + Math_cos M (lon * lit 0.2) * lit 0.3;
       speed :=
         lit 0.3 + lit 0.3 * Math_abs (Math_sin M (lat * lit 0.1 + lon * lit 0.2)) |}
  else
    {| position := (lon, lat);
       direction :=
         Math_PI * lit 0.25
         + Math_sin M (lat * lit 0.4 + lon * lit 0.3) * Math_PI * lit 0.5
         + Math_cos M (lat * lit 0.3) * lit 0.4;
       speed :=
         lit 0.2
         + lit 0.4 * Math_abs (Math_sin M (lat * lit 0.2) + Math_sin M (lon * lit 0.3)) |}.

(** The mutable locals of [generateMockWindData]; [pointCount] is a
    counter, hence a natural number. *)
Record GenState : Type := {
  windData : list WindPoint;
  pointCount : nat
}.

Section Grid.

Variable bounds : Bounds.
Variables lonStep latStep : number.

(** [for (let lon = ...; lon <= bounds.east; lon += lonStep)]; [fuel]
    bounds the number of iterations, [None] is "fuel exhausted". *)
Fixpoint lonLoop (fuel : nat) (lat lon : number) (st : GenState)
  : option (flow GenState) :=
  match fuel with
  | O => None
  | S fuel' =>
      if lon <=? east bounds then
        if Nat.leb safetyLimit (pointCount st) then
          Some (Return st)
        else
          let st' := {| windData := windData st ++ [windSample lon lat];
                        pointCount := S (pointCount st) |} in
          lonLoop fuel' lat (lon + lonStep) st'
      else Some (Next st)
  end.

(** [for (let lat = ...; lat <= bounds.north; lat += latStep)]. *)
Fixpoint latLoop (fuel : nat) (lat : number) (st : GenState)
  : option (list WindPoint) :=
  match fuel with
  | O => None
  | S fuel' =>
      if lat <=? north bounds then
        match lonLoop fuel' lat (west bounds) st with
        | None => None
        | Some (Return st') => Some (windData st')
        | Some (Next st') => latLoop fuel' (lat + latStep) st'
        end
      else Some (windData st)
  end.

End Grid.

Definition generateMockWindData (fuel : nat) (bounds : Bounds) (density : number)
  : option (list WindPoint) :=
  let effectiveDensity := Math_min density (lit 30) in
  let lonStep := (east bounds - west bounds) / effectiveDensity in
  let latStep := (north bounds - south bounds) / effectiveDensity in
  latLoop bounds lonStep latStep fuel (south bounds)
          {| windData := []; pointCount := 0 |}.

(** *** The nearest-sample scan of [generateWindParticles] and
    [updateWindParticles]

    [closestDistance] and [closestWindPoint] are the two locals the scan
    updates; [null] is [None]. *)

Definition scanStep (lngLat : LngLat)
    (st : number * option WindPoint) (windPoint : WindPoint)
  : number * option WindPoint :=
  let distance :=
    Math_sqrt M
      (Math_pow (fst (position windPoint) - lng lngLat) 2
       + Math_pow (snd (position windPoint) - lat lngLat) 2) in
  if distance <? fst st then (distance, Some windPoint) else st.

Definition closestScan (windData : list WindPoint) (lngLat : LngLat)
  : number * option WindPoint :=
  fold_left (scanStep lngLat) windData (Infinity, None).

Section WithHost.

Variable rnd : nat -> number.
Variable map : MapWithProjection.

(** *** [generateWindParticles] *)

Definition spawnOne (windData : list WindPoint) (width height : number)
    (particles : list WindParticle.t) : Rand (list WindParticle.t) :=
  r1 <- Math_random rnd ;;
  r2 <- Math_random rnd ;;
  let x := r1 * width in
  let y := r2 * height in
  let lngLat := unproject map (x, y) in
  match snd (closestScan windData lngLat) with
  | Some closestWindPoint =>
      r3 <- Math_random rnd ;;
      let maxAge := lit 50 + r3 * lit 50 in
      r4 <- Math_random rnd ;;
      ret (particles ++
           [{| WindParticle.x := x;
               WindParticle.y := y;
               WindParticle.age := r4 * maxAge;
               WindParticle.maxAge := maxAge;
               WindParticle.direction := direction closestWindPoint;
               WindParticle.speed := speed closestWindPoint * lit 1.5 |}])
  | None => ret particles
  end.

(** [for (let i = 0; i < count; i++)], [n] iterations left. *)
Fixpoint spawnLoop (windData : list WindPoint) (width height : number)
    (n : nat) (particles : list WindParticle.t) : Rand (list WindParticle.t) :=
  match n with
  | O => ret particles
  | S n' =>
      particles' <- spawnOne windData width height particles ;;
      spawnLoop windData width height n' particles'
  end.

Definition generateWindParticles (windData : list WindPoint)
    (width height : number) (count : nat) : Rand (list WindParticle.t) :=
  spawnLoop windData width height count [].

(** *** [updateWindParticles] *)

(** The callback passed to [particles.map]. *)
Definition updateOne (windData : list WindPoint) (width height : number)
    (particle : WindParticle.t) : Rand WindParticle.t :=
  let particle :=
    {| WindParticle.x :=
         WindParticle.x particle
         + Math_cos M (WindParticle.direction particle)
           * WindParticle.speed particle * lit 2;
       WindParticle.y :=
         WindParticle.y particle
         + Math_sin M (WindParticle.direction particle)
           * WindParticle.speed particle * lit 2;
       WindParticle.age := WindParticle.age particle + lit 1;
       WindParticle.maxAge := WindParticle.maxAge particle;
       WindParticle.speed := WindParticle.speed particle;
       WindParticle.direction := WindParticle.direction particle |} in
  if (WindParticle.age particle >=? WindParticle.maxAge particle)
     || (WindParticle.x particle <? lit 0)
     || (WindParticle.x particle >? width)
     || (WindParticle.y particle <? lit 0)
     || (WindParticle.y particle >? height)
  then
    r1 <- Math_random rnd ;;
    r2 <- Math_random rnd ;;
    let x := r1 * width in
    let y := r2 * height in
    let lngLat := unproject map (x, y) in
    match snd (closestScan windData lngLat) with
    | Some closestWindPoint =>
        r3 <- Math_random rnd ;;
        ret {| WindParticle.x := x;
               WindParticle.y := y;
               WindParticle.age := lit 0;
               WindParticle.maxAge := lit 50 + r3 * lit 50;
               WindParticle.direction := direction closestWindPoint;
               WindParticle.speed := speed closestWindPoint * lit 1.5 |}
    | None => ret particle
    end
  else ret particle.

Definition updateWindParticles (particles : list WindParticle.t)
    (windData : list WindPoint) (width height : number)
  : Rand (list WindParticle.t) :=
  mapM (updateOne windData width height) particles.

End WithHost.
End WithMath.

(** *** [getParticleColor]

    The function formats a CSS colour [rgba(r, g, b, alpha)]; the model
    returns the four numbers written into the string. *)
Definition getParticleColor (speed age maxAge : number)
  : number * number * number * number :=
  let '(r, g, b) := getWindColor speed in
  let alpha := (lit 1 - age / maxAge) * lit 0.85 in
  (r, g, b, alpha).

End MockWindData.

(* ===================================================================== *)
(** ** [src/app/map.tsx]: the canvas variant                              *)
(* ===================================================================== *)

Module CanvasMap.

Import MockWindData.
Local Open Scope js_scope.

Module WindParticle.
Record t : Type := {
  x : number;
  y : number;
  lng : number;
  lat : number;
  age : number;
  maxAge : number;
  speed : number;
  direction : number
}.
End WindParticle.

Definition SOUTHEAST_ASIA_BOUNDS : Bounds :=
  {| west := lit 92; south := lit (-11); east := lit 141; north := lit 28.5 |}.

Definition isInSoutheastAsia (lng lat : number) : bool :=
  (lng >=? west SOUTHEAST_ASIA_BOUNDS)
  && (lng <=? east SOUTHEAST_ASIA_BOUNDS)
  && (lat >=? south SOUTHEAST_ASIA_BOUNDS)
  && (lat <=? north SOUTHEAST_ASIA_BOUNDS).

(** The two projection methods of the map widget; [None] is a thrown
    exception (the callers catch it). *)
Record MapLibre : Type := {
  unproject : number * number -> option LngLat;
  project : number * number -> option (number * number)
}.

(** The nearest-sample scan, as inlined three times in this file:
    [closestWindPoint] starts as [windData[0]] and [minDistance] as
    [Number.MAX_VALUE]. *)
Definition scanStep (lng lat : number)
    (st : number * WindPoint) (point : WindPoint) : number * WindPoint :=
  let dx := fst (position point) - lng in
  let dy := snd (position point) - lat in
  let distance := dx * dx + dy * dy in
  if distance <? fst st then (distance, point) else st.

Definition closestScan (windData0 : WindPoint) (windData : list WindPoint)
    (lng lat : number) : number * WindPoint :=
  fold_left (scanStep lng lat) windData (MAX_VALUE, windData0).

Section WithHost.

Variable M : MathLib.
Variable rnd : nat -> number.
(** [map.current]: [None] while the map is not created. *)
Variable map_current : option MapLibre.

(** *** [createWindParticles] *)

Record SpawnState : Type := {
  particles : list WindParticle.t;
  attempts : nat
}.

Section Spawn.

Variable map : MapLibre.
Variable windData0 : WindPoint.
Variable windData : list WindPoint.
Variables width height : number.
Variable count : nat.

Definition maxAttempts : nat := count * 3.

(** [while (particles.length < count && attempts < maxAttempts)]; [fuel]
    bounds the number of iterations, [None] is "fuel exhausted". *)
Fixpoint spawnLoop (fuel : nat) (st : SpawnState) : Rand (option SpawnState) :=
  match fuel with
  | O => ret None
  | S fuel' =>
      if Nat.ltb (length (particles st)) count
         && Nat.ltb (attempts st) maxAttempts
      then
        let attempts' := S (attempts st) in
        r1 <- Math_random rnd ;;
        r2 <- Math_random rnd ;;
        let x := r1 * width in
        let y := r2 * height in
        match unproject map (x, y) with
        | Some lngLat =>
            let lng := MockWindData.lng lngLat in
            let lat := MockWindData.lat lngLat in
            if negb (isInSoutheastAsia lng lat) then
              spawnLoop fuel' {| particles := particles st; attempts := attempts' |}
            else
              let closestWindPoint := snd (closestScan windData0 windData lng lat) in
              r3 <- Math_random rnd ;;
              let maxAge := lit 60 + r3 * lit 60 in
              r4 <- Math_random rnd ;;
              spawnLoop fuel'
                {| particles :=
                     particles st ++
                     [{| WindParticle.x := x;
                         WindParticle.y := y;
                         WindParticle.lng := lng;
                         WindParticle.lat := lat;
                         WindParticle.age := r4 * maxAge;
                         WindParticle.maxAge := maxAge;
                         WindParticle.speed := speed closestWindPoint * lit 1.5;
                         WindParticle.direction := direction closestWindPoint |}];
                   attempts := attempts' |}
        | None =>
            spawnLoop fuel' {| particles := particles st; attempts := attempts' |}
        end
      else ret (Some st)
  end.

End Spawn.

(** The function proper; besides the population it reports the number of
    attempts, which the source logs. *)
Definition createWindParticles (fuel : nat) (windData : list WindPoint)
    (width height : number) (count : nat) : Rand (option SpawnState) :=
  match map_current, windData with
  | Some map, windData0 :: _ =>
      spawnLoop map windData0 windData width height count fuel
                {| particles := []; attempts := 0 |}
  | _, _ => ret (Some {| particles := []; attempts := 0 |})
  end.

(** *** [updateParticles] *)

Section Update.

Variable map : MapLibre.
Variable windData0 : WindPoint.
Variable windData : list WindPoint.
Variables width height : number.

(** [while (!validPosition && attempts < maxAttempts)] with
    [maxAttempts = 10]; [n] is [maxAttempts - attempts].  The result is the
    final [validPosition] and [particle]. *)
Fixpoint retryLoop (n : nat) (particle : WindParticle.t)
  : Rand (bool * WindParticle.t) :=
  match n with
  | O => ret (false, particle)
  | S n' =>
      r1 <- Math_random rnd ;;
      r2 <- Math_random rnd ;;
      let newX := r1 * width in
      let newY := r2 * height in
      match unproject map (newX, newY) with
      | Some lngLat =>
          let newLng := MockWindData.lng lngLat in
          let newLat := MockWindData.lat lngLat in
          if isInSoutheastAsia newLng newLat then
            let closestWindPoint := snd (closestScan windData0 windData newLng newLat) in
            r3 <- Math_random rnd ;;
            ret (true,
                 {| WindParticle.x := newX;
                    WindParticle.y := newY;
                    WindParticle.lng := newLng;
                    WindParticle.lat := newLat;
                    WindParticle.age := lit 0;
                    WindParticle.maxAge := lit 60 + r3 * lit 60;
                    WindParticle.speed := speed closestWindPoint * lit 1.5;
                    WindParticle.direction := direction closestWindPoint |})
          else retryLoop n' particle
      | None => retryLoop n' particle
      end
  end.

(** The fallback taken when no retry found a valid position: a random
    point of the region, projected to the screen. *)
Definition fallback (particle : WindParticle.t) : Rand WindParticle.t :=
  r1 <- Math_random rnd ;;
  let newLng :=
    west SOUTHEAST_ASIA_BOUNDS
    + r1 * (east SOUTHEAST_ASIA_BOUNDS - west SOUTHEAST_ASIA_BOUNDS) in
  r2 <- Math_random rnd ;;
  let newLat :=
    south SOUTHEAST_ASIA_BOUNDS
    + r2 * (north SOUTHEAST_ASIA_BOUNDS - south SOUTHEAST_ASIA_BOUNDS) in
  match project map (newLng, newLat) with
  | Some (newX, newY) =>
      let closestWindPoint := snd (closestScan windData0 windData newLng newLat) in
      r3 <- Math_random rnd ;;
      ret {| WindParticle.x := newX;
             WindParticle.y := newY;
             WindParticle.lng := newLng;
             WindParticle.lat := newLat;
             WindParticle.age := lit 0;
             WindParticle.maxAge := lit 60 + r3 * lit 60;
             WindParticle.speed := speed closestWindPoint * lit 1.5;
             WindParticle.direction := direction closestWindPoint |}
  | None =>
      ret {| WindParticle.x := WindParticle.x particle;
             WindParticle.y := WindParticle.y particle;
             WindParticle.lng := WindParticle.lng particle;
             WindParticle.lat := WindParticle.lat particle;
             WindParticle.age := lit 0;
             WindParticle.maxAge := WindParticle.maxAge particle;
             WindParticle.speed := WindParticle.speed particle;
             WindParticle.direction := WindParticle.direction particle |}
  end.

(** The callback passed to [particles.map]. *)
Definition updateOne (particle : WindParticle.t) : Rand WindParticle.t :=
  let x' :=
    WindParticle.x particle
    + Math_cos M (WindParticle.direction particle)
      * WindParticle.speed particle * lit 0.3 in
  let y' :=
    WindParticle.y particle
    + Math_sin M (WindParticle.direction particle)
      * WindParticle.speed particle * lit 0.3 in
  let age' := WindParticle.age particle + lit 1 in
  let moved lng lat :=
    {| WindParticle.x := x';
       WindParticle.y := y';
       WindParticle.lng := lng;
       WindParticle.lat := lat;
       WindParticle.age := age';
       WindParticle.maxAge := WindParticle.maxAge particle;
       WindParticle.speed := WindParticle.speed particle;
       WindParticle.direction := WindParticle.direction particle |} in
  match unproject map (x', y') with
  | None =>
      (* the outer [catch]: the particle as mutated so far *)
      ret (moved (WindParticle.lng particle) (WindParticle.lat particle))
  | Some lngLat =>
      let particle := moved (MockWindData.lng lngLat) (MockWindData.lat lngLat) in
      let isOutOfBounds :=
        negb (isInSoutheastAsia (WindParticle.lng particle) (WindParticle.lat particle)) in
      if (WindParticle.age particle >=? WindParticle.maxAge particle)
         || (WindParticle.x particle <? lit (-20))
         || (WindParticle.x particle >? width + lit 20)
         || (WindParticle.y particle <? lit (-20))
         || (WindParticle.y particle >? height + lit 20)
         || isOutOfBounds
      then
        res <- retryLoop 10 particle ;;
        let (validPosition, particle) := res : bool * WindParticle.t in
        if negb validPosition then fallback particle else ret particle
      else ret particle
  end.

End Update.

Definition updateParticles (particles : list WindParticle.t)
    (windData : list WindPoint) (width height : number)
  : Rand (list WindParticle.t) :=
  match map_current, windData with
  | Some map, windData0 :: _ =>
      mapM (updateOne map windData0 windData width height) particles
  | _, _ => ret particles
  end.

End WithHost.

(** *** [updateMapBounds] *)

(** What [map.current.getBounds()] answers. *)
Record LngLatBounds : Type := {
  getWest : number;
  getSouth : number;
  getEast : number;
  getNorth : number
}.

(** The new value of [mapBoundsRef.current]; [view] is [None] while the
    map is not created, and the reference is then left alone. *)
Definition updateMapBounds (view : option LngLatBounds) (mapBoundsRef : Bounds)
  : Bounds :=
  match view with
  | None => mapBoundsRef
  | Some bounds =>
      {| west := Math_max (getWest bounds) (west SOUTHEAST_ASIA_BOUNDS);
         south := Math_max (getSouth bounds) (south SOUTHEAST_ASIA_BOUNDS);
         east := Math_min (getEast bounds) (east SOUTHEAST_ASIA_BOUNDS);
         north := Math_min (getNorth bounds) (north SOUTHEAST_ASIA_BOUNDS) |}
  end.

(** The three references the handlers and the animation share. *)
Record Refs : Type := {
  mapBoundsRef : Bounds;
  windDataRef : list WindPoint;
  particlesRef : list WindParticle.t
}.

(** *** The [moveend] / [zoomend] handler

    (The React state updates of the handler, which only feed the
    coordinate display, are left out.)  [None] is "fuel exhausted" in
    [generateMockWindData]. *)
Definition onMoveEnd (M : MathLib) (fuel : nat) (view : option LngLatBounds)
    (refs : Refs) : option Refs :=
  match view with
  | None => Some refs
  | Some _ =>
      let mapBounds := updateMapBounds view (mapBoundsRef refs) in
      match generateMockWindData M fuel mapBounds (lit 15) with
      | None => None
      | Some windData =>
          Some {| mapBoundsRef := mapBounds;
                  windDataRef := windData;
                  particlesRef := [] |}
      end
  end.

(** *** [animateParticles] *)

(** What one iteration of the drawing loop hands to the 2D context: the
    two end points of the stroke, and the four numbers written into the
    [rgba(...)] strings of its stroke and fill styles. *)
Record Stroke : Type := {
  moveTo : number * number;
  lineTo : number * number;
  strokeStyle : number * number * number * number;
  fillStyle : number * number * number * number
}.

(** The outcome of a frame: the references, the strokes drawn, and
    whether the next frame was requested. *)
Record Frame : Type := {
  refs : Refs;
  drawn : list Stroke;
  requested : bool
}.

Section Animate.

Variable M : MathLib.
Variable rnd : nat -> number.
Variable map_current : option MapLibre.

(** The callback passed to [particlesRef.current.forEach]. *)
Definition drawParticle (particle : WindParticle.t) : Stroke :=
  let trailLength := WindParticle.speed particle * lit 6 in
  let endX :=
    WindParticle.x particle
    - Math_cos M (WindParticle.direction particle) * trailLength in
  let endY :=
    WindParticle.y particle
    - Math_sin M (WindParticle.direction particle) * trailLength in
  let '(r, g, b) := getWindColor (WindParticle.speed particle / lit 3) in
  let alpha :=
    Math_max (lit 0)
             (lit 1 - WindParticle.age particle / WindParticle.maxAge particle)
    * lit 0.95 in
  {| moveTo := (WindParticle.x particle, WindParticle.y particle);
     lineTo := (endX, endY);
     strokeStyle := (r, g, b, alpha);
     fillStyle := (r, g, b, alpha + lit 0.1) |}.

(** [canvas] is [None] when there is no canvas, or no 2D context for it,
    and otherwise the width and height of the canvas; [fuel] goes to
    [createWindParticles]. *)
Definition animateParticles (canvas : option (number * number)) (fuel : nat)
    (r : Refs) : Rand (option Frame) :=
  match map_current, canvas with
  | Some _, Some (width, height) =>
      created <-
        (if Nat.eqb (length (particlesRef r)) 0
            && Nat.ltb 0 (length (windDataRef r))
         then
           st <- createWindParticles rnd map_current fuel
                   (windDataRef r) width height 600 ;;
           ret (option_map particles st)
         else ret (Some (particlesRef r))) ;;
      match created with
      | None => ret None
      | Some ps =>
          ps' <-
            (if Nat.ltb 0 (length ps)
             then updateParticles M rnd map_current ps
                    (windDataRef r) width height
             else ret ps) ;;
          ret (Some {| refs := {| mapBoundsRef := mapBoundsRef r;
                                  windDataRef := windDataRef r;
                                  particlesRef := ps' |};
                       drawn := List.map drawParticle ps';
                       requested := true |})
      end
  | _, _ => ret (Some {| refs := r; drawn := []; requested := false |})
  end.

End Animate.

End CanvasMap.

(* ===================================================================== *)
(** ** The deck.gl composite layer ([WindParticleLayer])                  *)
(* ===================================================================== *)

Module WindParticleLayer.

Import MockWindData.
Local Open Scope js_scope.

Module ParticleType.
Record t : Type := {
  position : number * number;
  direction : number;
  speed : number;
  age : number;
  maxAge : number;
  size : number;
  color : number * number * number * number
}.
End ParticleType.

(** The props read by the two methods below; an absent [particleSpeed]
    is [None]. *)
Record Props : Type := {
  bounds : Bounds;
  particleCount : nat;
  animate : bool;
  particleSpeed : option number
}.

Record State : Type := {
  particles : list ParticleType.t;
  windData : list WindPoint
}.

(** [xs.map (f)] for a callback that may throw ([None]). *)
Fixpoint mapE {A B} (f : A -> Rand (option B)) (xs : list A)
  : Rand (option (list B)) :=
  match xs with
  | [] => ret (Some [])
  | x :: xs' =>
      oy <- f x ;;
      match oy with
      | None => ret None
      | Some y => oys <- mapE f xs' ;; ret (option_map (cons y) oys)
      end
  end.

(** The nearest-sample scan of this file; [windData[0]] is [undefined] on
    an empty field, hence the [option]. *)
Definition scanStep (longitude latitude : number)
    (st : number * option WindPoint) (point : WindPoint)
  : number * option WindPoint :=
  let dx := fst (position point) - longitude in
  let dy := snd (position point) - latitude in
  let distance := dx * dx + dy * dy in
  if distance <? fst st then (distance, Some point) else st.

Definition closestScan (windData : list WindPoint) (longitude latitude : number)
  : number * option WindPoint :=
  fold_left (scanStep longitude latitude) windData (MAX_VALUE, hd_error windData).

Section WithHost.

Variable M : MathLib.
Variable rnd : nat -> number.
Variable props : Props.

(** A particle seeded at a random position of [bounds], as inlined in
    [generateParticles] (initial age random, [randomAge = true]) and in
    [updateParticles] (age [0]).  Reading a property of [undefined]
    throws ([None]). *)
Definition seed (windData : list WindPoint) (randomAge : bool)
  : Rand (option ParticleType.t) :=
  let bounds := bounds props in
  r1 <- Math_random rnd ;;
  let longitude := west bounds + r1 * (east bounds - west bounds) in
  r2 <- Math_random rnd ;;
  let latitude := south bounds + r2 * (north bounds - south bounds) in
  match snd (closestScan windData longitude latitude) with
  | None => ret None
  | Some closestWindPoint =>
      r3 <- Math_random rnd ;;
      let maxAge := lit 50 + r3 * lit 50 in
      let '(r, g, b) := getWindColor (speed closestWindPoint) in
      let color := (r, g, b, lit 200) in
      age <- (if randomAge
              then (r4 <- Math_random rnd ;; ret (r4 * maxAge))
              else ret (lit 0)) ;;
      ret (Some {| ParticleType.position := (longitude, latitude);
                   ParticleType.direction := direction closestWindPoint;
                   ParticleType.speed := speed closestWindPoint;
                   ParticleType.age := age;
                   ParticleType.maxAge := maxAge;
                   ParticleType.size := lit 6 + speed closestWindPoint * lit 15;
                   ParticleType.color := color |})
  end.

(** *** [generateParticles] *)



(** *** [updateParticles] *)

(** The callback passed to [particles.map]. *)
Definition updateOne (windData : list WindPoint) (particleSpeed : number)
    (particle : ParticleType.t) : Rand (option ParticleType.t) :=
  let bounds := bounds props in
  let age' := ParticleType.age particle + lit 1 in
  if age' >=? ParticleType.maxAge particle then
    seed windData false
  else
    let speed := ParticleType.speed particle * particleSpeed in
    let x := fst (ParticleType.position particle)
             + Math_cos M (ParticleType.direction particle) * speed in
    let y := snd (ParticleType.position particle)
             + Math_sin M (ParticleType.direction particle) * speed in
    if (x <? west bounds) || (x >? east bounds)
       || (y <? south bounds) || (y >? north bounds)
    then
      ret (Some {| ParticleType.position := ParticleType.position particle;
                   ParticleType.direction := ParticleType.direction particle;
                   ParticleType.speed := ParticleType.speed particle;
                   ParticleType.age := ParticleType.maxAge particle;
                   ParticleType.maxAge := ParticleType.maxAge particle;
                   ParticleType.size := ParticleType.size particle;
                   ParticleType.color := ParticleType.color particle |})
    else
      let opacityFactor := lit 1 - age' / ParticleType.maxAge particle in
      let '(r, g, b, _) := ParticleType.color particle in
      ret (Some {| ParticleType.position := (x, y);
                   ParticleType.direction := ParticleType.direction particle;
                   ParticleType.speed := ParticleType.speed particle;
                   ParticleType.age := age';
                   ParticleType.maxAge := ParticleType.maxAge particle;
                   ParticleType.size := ParticleType.size particle;
                   ParticleType.color := (r, g, b, lit 200 * opacityFactor) |}).

Definition updateParticles (state : State) : Rand (option (list ParticleType.t)) :=
  let particleSpeed :=
    match particleSpeed props with
    | Some s => s
    | None => lit 0.0075
    end in
  if negb (animate props) || Nat.eqb (length (particles state)) 0 then
    ret (Some (particles state))
  else
    mapE (updateOne (windData state) particleSpeed) (particles state).

End WithHost.

End WindParticleLayer.

(* ===================================================================== *)
(** ** [src/app/WebGLWindLayer.tsx]: [setNumParticles]                    *)
(* ===================================================================== *)

(** [setNumParticles] sizes the particle-state textures: [Math.sqrt] is
    the host routine of [MathLib], [particleRes] and the lengths are the
    numbers the method computes. *)

Module WebGLWindLayer.

Local Open Scope js_scope.

(** What [createDataTexture] allocates: the dimensions of the texture and
    the length of the byte array uploaded to it. *)
Record DataTexture : Type := {
  width : number;
  height : number;
  dataLength : number
}.

Definition createDataTexture (dataLength width height : number) : DataTexture :=
  {| width := width; height := height; dataLength := dataLength |}.

(** The fields [setNumParticles] assigns. *)
Record Layer : Type := {
  particleStateResolution : number;
  _numParticles : number;
  particleStateTexture0 : DataTexture;
  particleStateTexture1 : DataTexture;
  particleIndexBufferLength : number
}.

Definition setNumParticles (M : MathLib) (numParticles : number) : Layer :=
  let particleRes := Math_ceil (Math_sqrt M numParticles) in
  let _numParticles := particleRes * particleRes in
  let particleStateLength := _numParticles * lit 4 in
  {| particleStateResolution := particleRes;
     _numParticles := _numParticles;
     particleStateTexture0 :=
       createDataTexture particleStateLength particleRes particleRes;
     particleStateTexture1 :=
       createDataTexture particleStateLength particleRes particleRes;
     particleIndexBufferLength := _numParticles |}.

End WebGLWindLayer.

(* ===================================================================== *)
(** ** [src/app/WebGLWindLayer.tsx]: [createMockWindData]                 *)
(* ===================================================================== *)

Module WindTexture.

Import MockWindData.
Local Open Scope js_scope.

Module WindDataType.
Record t : Type := {
  width : nat;
  height : nat;
  uMin : number;
  uMax : number;
  vMin : number;
  vMax : number;
  image : list Z
}.
End WindDataType.

(** [data[i] = v] on a [Uint8Array]: the number is converted to a byte; a
    write past the end of the array is ignored. *)
Fixpoint store (i : nat) (v : number) (data : list Z) : list Z :=
  match data, i with
  | [], _ => []
  | _ :: rest, O => toUint8 v :: rest
  | b :: rest, S i' => b :: store i' v rest
  end.

(** A loop counter as a [number]. *)
Definition num (n : nat) : number := Fin (inject_Z (Z.of_nat n)).

Definition width : nat := 360.
Definition height : nat := 180.

(** The mutable locals of [createMockWindData]. *)
Module Locals.
Record t : Type := {
  uMin : number;
  uMax : number;
  vMin : number;
  vMax : number;
  data : list Z
}.
End Locals.

Section WithMath.

Variable M : MathLib.

(** The wind vector [(uComp, vComp)] of the cell [(x, y)]. *)
Definition windVector (x y : nat) : number * number :=
  let lng := (num x / num width) * lit 360 - lit 180 in
  let lat := (num y / num height) * lit 180 - lit 90 in
  let uComp := Math_sin M (lat * lit 0.05) * Math_cos M (lng * lit 0.05) in
  let vComp := Math_cos M (lat * lit 0.05) * Math_sin M (lng * lit 0.05) in
  (uComp, vComp).

(** The body of the inner loop. *)
Definition cell (y : nat) (st : Locals.t) (x : nat) : Locals.t :=
  let '(uComp, vComp) := windVector x y in
  let i := ((y * width + x) * 4)%nat in
  let data := Locals.data st in
  let data := store i (Math_floor ((uComp + lit 1) * lit 127.5)) data in
  let data :=
    store (i + 1)
          (Math_floor (rem1 ((uComp + lit 1) * lit 127.5) * lit 255)) data in
  let data := store (i + 2) (Math_floor ((vComp + lit 1) * lit 127.5)) data in
  let data :=
    store (i + 3)
          (Math_floor (rem1 ((vComp + lit 1) * lit 127.5) * lit 255)) data in
  {| Locals.uMin := Math_min (Locals.uMin st) uComp;
     Locals.uMax := Math_max (Locals.uMax st) uComp;
     Locals.vMin := Math_min (Locals.vMin st) vComp;
     Locals.vMax := Math_max (Locals.vMax st) vComp;
     Locals.data := data |}.

(** [for (let x = 0; x < width; x++)] and [for (let y = 0; y < height; y++)]. *)
Definition row (st : Locals.t) (y : nat) : Locals.t :=
  fold_left (cell y) (seq 0 width) st.

Definition rows (st : Locals.t) : Locals.t :=
  fold_left row (seq 0 height) st.

(** The function does not read its argument. *)
Definition createMockWindData (bounds : Bounds) : WindDataType.t :=
  let st :=
    rows {| Locals.uMin := Infinity;
            Locals.uMax := neg Infinity;
            Locals.vMin := Infinity;
            Locals.vMax := neg Infinity;
            Locals.data := repeat 0%Z (width * height * 4) |} in
  {| WindDataType.width := width;
     WindDataType.height := height;
     WindDataType.uMin := Locals.uMin st;
     WindDataType.uMax := Locals.uMax st;
     WindDataType.vMin := Locals.vMin st;
     WindDataType.vMax := Locals.vMax st;
     WindDataType.image := Locals.data st |}.

End WithMath.

End WindTexture.

(* ===================================================================== *)
(** ** [src/app/WebGLWindLayer.tsx]: the shaders                          *)
(* ===================================================================== *)

(** The arithmetic of the GLSL shaders on particle positions and colour
    channels.  A GLSL [float] is modelled as an exact rational: the
    precision of the GPU and the 8-bit quantisation of a render target
    are abstracted away.  A [vec2] is a pair, a [vec4] a quadruple
    [(r, g, b, a)]. *)

Module Shaders.

Local Open Scope Q_scope.

Definition floor (x : Q) : Q := inject_Z (Qfloor x).

Definition fract (x : Q) : Q := x - floor x.

(** [mix (x, y, a)] and [step (edge, x)]. *)
Definition mix (x y a : Q) : Q := x * (1 - a) + y * a.

Definition step (edge x : Q) : Q := if Qlt_le_dec x edge then 0 else 1.

(** [drawVertShader] and [updateFragShader]: the position decoded from a
    texel of the state texture. *)
Definition decode (color : Q * Q * Q * Q) : Q * Q :=
  let '(r, g, b, a) := color in
  (r / 255 + b, g / 255 + a).

(** [drawVertShader]: the clip-space position of the point. *)
Definition gl_Position (v_particle_pos : Q * Q) : Q * Q :=
  let '(x, y) := v_particle_pos in
  (2 * x - 1, 1 - 2 * y).

(** [updateFragShader]: the position encoded back into a colour. *)
Definition encode (pos : Q * Q) : Q * Q * Q * Q :=
  let '(x, y) := pos in
  (fract (x * 255), fract (y * 255), floor (x * 255) / 255, floor (y * 255) / 255).

(** [updateFragShader]: the end of [main], from the displacement [offset]
    computed out of the wind lookup, the drop decision [drop] and the
    position [random_pos] a dropped particle restarts at. *)
Definition advance (color : Q * Q * Q * Q) (offset random_pos : Q * Q) (drop : Q)
  : Q * Q * Q * Q :=
  let pos := decode color in
  let pos := (fract (1 + fst pos + fst offset), fract (1 + snd pos + snd offset)) in
  let pos := (mix (fst pos) (fst random_pos) drop,
              mix (snd pos) (snd random_pos) drop) in
  encode pos.

(** [updateFragShader]: the pseudo-random generator, [sin] being the
    GLSL routine. *)
Definition rand (sin : Q -> Q) (co : Q * Q) : Q :=
  let t := 12.9898 * fst co + 78.233 * snd co in
  fract (sin t * (4375.85453 + t)).

(** [screenFragShader]: one channel of the faded colour. *)
Definition fade (color u_opacity : Q) : Q :=
  floor (255 * color * u_opacity) / 255.

End Shaders.

(* ===================================================================== *)
(** ** [src/app/WebGLWindLayer.tsx]: the render passes                    *)
(* ===================================================================== *)

(** The WebGL objects are handles; the context keeps the texture bound to
    each texture unit, whether the layer's framebuffer is bound, and the
    texture attached to it.  Every [gl.drawArrays] is logged with the
    program in use, the textures at the units its samplers read, and the
    render target ([None] is the canvas). *)

Module WebGLPasses.

(** A texture object, by its handle. *)
Definition Texture : Type := nat.

Inductive Program : Type :=
| drawProgram
| screenProgram
| updateProgram.

(** A [gl.drawArrays], as logged. *)
Record DrawCall : Type := {
  program : Program;
  sampled : list (option Texture);
  target : option Texture
}.

(** The state of the context: the active texture unit, the texture bound
    to each unit, the framebuffer binding, the next handle
    [gl.createTexture] hands out, and the log. *)
Record GL : Type := {
  activeUnit : nat;
  textureUnits : nat -> option Texture;
  framebufferBound : bool;
  attachment : option Texture;
  nextTexture : Texture;
  calls : list DrawCall
}.

(** The fields of the layer the passes read and write; a [bool] tells
    whether a buffer or the wind data is there, and whether the three
    programs are ([initializeState] creates them together, and throws
    when one fails to compile or link). *)
Record Layer : Type := {
  programs : bool;
  quadBuffer : bool;
  framebuffer : bool;
  particleIndexBuffer : bool;
  windData : bool;
  colorRampTexture : option Texture;
  windTexture : option Texture;
  backgroundTexture : option Texture;
  screenTexture : option Texture;
  particleStateTexture0 : option Texture;
  particleStateTexture1 : option Texture
}.

Definition isSome {A} (o : option A) : bool :=
  match o with Some _ => true | None => false end.

(** [gl.createTexture()]. *)
Definition createTexture (gl : GL) : Texture * GL :=
  (nextTexture gl,
   {| activeUnit := activeUnit gl;
      textureUnits := textureUnits gl;
      framebufferBound := framebufferBound gl;
      attachment := attachment gl;
      nextTexture := S (nextTexture gl);
      calls := calls gl |}).

(** [gl.bindTexture (gl.TEXTURE_2D, texture)], on the active unit. *)
Definition gl_bindTexture (texture : option Texture) (gl : GL) : GL :=
  {| activeUnit := activeUnit gl;
     textureUnits :=
       fun u => if Nat.eqb u (activeUnit gl) then texture else textureUnits gl u;
     framebufferBound := framebufferBound gl;
     attachment := attachment gl;
     nextTexture := nextTexture gl;
     calls := calls gl |}.

(** [gl.activeTexture (gl.TEXTURE0 + unit)]. *)
Definition gl_activeTexture (unit : nat) (gl : GL) : GL :=
  {| activeUnit := unit;
     textureUnits := textureUnits gl;
     framebufferBound := framebufferBound gl;
     attachment := attachment gl;
     nextTexture := nextTexture gl;
     calls := calls gl |}.

(** [bindTexture]. *)
Definition bindTexture (texture : option Texture) (unit : nat) (gl : GL) : GL :=
  gl_bindTexture texture (gl_activeTexture unit gl).

(** [bindFramebuffer]: the framebuffer bound is the layer's ([true]) or
    none; a texture given with the former is attached to it. *)
Definition bindFramebuffer (framebuffer : bool) (texture : option Texture)
    (gl : GL) : GL :=
  {| activeUnit := activeUnit gl;
     textureUnits := textureUnits gl;
     framebufferBound := framebuffer;
     attachment :=
       if framebuffer && isSome texture then texture else attachment gl;
     nextTexture := nextTexture gl;
     calls := calls gl |}.

(** [gl.drawArrays] with program [p], whose samplers read [units]. *)
Definition drawArrays (p : Program) (units : list nat) (gl : GL) : GL :=
  {| activeUnit := activeUnit gl;
     textureUnits := textureUnits gl;
     framebufferBound := framebufferBound gl;
     attachment := attachment gl;
     nextTexture := nextTexture gl;
     calls :=
       calls gl ++
       [{| program := p;
           sampled := List.map (textureUnits gl) units;
           target := if framebufferBound gl then attachment gl else None |}] |}.

(** [createDataTexture]: the new texture is bound to the active unit
    while it is filled, and unbound afterwards. *)
Definition createDataTexture (gl : GL) : Texture * GL :=
  let (texture, gl) := createTexture gl in
  let gl := gl_bindTexture (Some texture) gl in
  (texture, gl_bindTexture None gl).

(** [createColorRampTexture] binds and unbinds its texture in the same
    way. *)
Definition createColorRampTexture (gl : GL) : Texture * GL :=
  let (texture, gl) := createTexture gl in
  let gl := gl_bindTexture (Some texture) gl in
  (texture, gl_bindTexture None gl).

Definition setColorRamp (st : Layer * GL) : Layer * GL :=
  let (l, gl) := st in
  let (t, gl) := createColorRampTexture gl in
  ({| programs := programs l; quadBuffer := quadBuffer l;
      framebuffer := framebuffer l;
      particleIndexBuffer := particleIndexBuffer l;
      windData := windData l;
      colorRampTexture := Some t;
      windTexture := windTexture l;
      backgroundTexture := backgroundTexture l;
      screenTexture := screenTexture l;
      particleStateTexture0 := particleStateTexture0 l;
      particleStateTexture1 := particleStateTexture1 l |}, gl).

Definition setNumParticles (st : Layer * GL) : Layer * GL :=
  let (l, gl) := st in
  let (t0, gl) := createDataTexture gl in
  let (t1, gl) := createDataTexture gl in
  ({| programs := programs l; quadBuffer := quadBuffer l;
      framebuffer := framebuffer l;
      particleIndexBuffer := true;
      windData := windData l;
      colorRampTexture := colorRampTexture l;
      windTexture := windTexture l;
      backgroundTexture := backgroundTexture l;
      screenTexture := screenTexture l;
      particleStateTexture0 := Some t0;
      particleStateTexture1 := Some t1 |}, gl).

Definition setWindData (st : Layer * GL) : Layer * GL :=
  let (l, gl) := st in
  let (t, gl) := createTexture gl in
  let gl := gl_bindTexture None (gl_bindTexture (Some t) gl) in
  ({| programs := programs l; quadBuffer := quadBuffer l;
      framebuffer := framebuffer l;
      particleIndexBuffer := particleIndexBuffer l;
      windData := true;
      colorRampTexture := colorRampTexture l;
      windTexture := Some t;
      backgroundTexture := backgroundTexture l;
      screenTexture := screenTexture l;
      particleStateTexture0 := particleStateTexture0 l;
      particleStateTexture1 := particleStateTexture1 l |}, gl).

Definition resize (st : Layer * GL) : Layer * GL :=
  let (l, gl) := st in
  let (t0, gl) := createDataTexture gl in
  let (t1, gl) := createDataTexture gl in
  ({| programs := programs l; quadBuffer := quadBuffer l;
      framebuffer := framebuffer l;
      particleIndexBuffer := particleIndexBuffer l;
      windData := windData l;
      colorRampTexture := colorRampTexture l;
      windTexture := windTexture l;
      backgroundTexture := Some t0;
      screenTexture := Some t1;
      particleStateTexture0 := particleStateTexture0 l;
      particleStateTexture1 := particleStateTexture1 l |}, gl).

Definition drawTexture (l : Layer) (texture : option Texture) (gl : GL) : GL :=
  if negb (programs l) || negb (quadBuffer l) then gl
  else drawArrays screenProgram [2%nat] (bindTexture texture 2 gl).

Definition drawParticles (l : Layer) (gl : GL) : GL :=
  if negb (programs l) || negb (particleIndexBuffer l)
     || negb (isSome (colorRampTexture l)) || negb (windData l)
  then gl
  else
    drawArrays drawProgram [0%nat; 1%nat; 2%nat]
               (bindTexture (colorRampTexture l) 2 gl).

Definition drawScreen (st : Layer * GL) : Layer * GL :=
  let (l, gl) := st in
  if negb (framebuffer l) || negb (isSome (screenTexture l))
     || negb (isSome (backgroundTexture l))
  then st
  else
    let gl := bindFramebuffer (framebuffer l) (screenTexture l) gl in
    let gl := drawTexture l (backgroundTexture l) gl in
    let gl := drawParticles l gl in
    let gl := bindFramebuffer false None gl in
    let gl := drawTexture l (screenTexture l) gl in
    let temp := backgroundTexture l in
    ({| programs := programs l; quadBuffer := quadBuffer l;
        framebuffer := framebuffer l;
        particleIndexBuffer := particleIndexBuffer l;
        windData := windData l;
        colorRampTexture := colorRampTexture l;
        windTexture := windTexture l;
        backgroundTexture := screenTexture l;
        screenTexture := temp;
        particleStateTexture0 := particleStateTexture0 l;
        particleStateTexture1 := particleStateTexture1 l |}, gl).

Definition updateParticles (st : Layer * GL) : Layer * GL :=
  let (l, gl) := st in
  if negb (framebuffer l) || negb (isSome (particleStateTexture1 l))
     || negb (quadBuffer l) || negb (programs l) || negb (windData l)
  then st
  else
    let gl := bindFramebuffer (framebuffer l) (particleStateTexture1 l) gl in
    let gl := drawArrays updateProgram [0%nat; 1%nat] gl in
    let temp := particleStateTexture0 l in
    ({| programs := programs l; quadBuffer := quadBuffer l;
        framebuffer := framebuffer l;
        particleIndexBuffer := particleIndexBuffer l;
        windData := windData l;
        colorRampTexture := colorRampTexture l;
        windTexture := windTexture l;
        backgroundTexture := backgroundTexture l;
        screenTexture := screenTexture l;
        particleStateTexture0 := particleStateTexture1 l;
        particleStateTexture1 := temp |}, gl).

Definition drawAnimationFrame (st : Layer * GL) : Layer * GL :=
  let (l, gl) := st in
  if negb (isSome (windTexture l)) || negb (isSome (particleStateTexture0 l))
  then st
  else
    let gl := bindTexture (windTexture l) 0 gl in
    let gl := bindTexture (particleStateTexture0 l) 1 gl in
    updateParticles (drawScreen (l, gl)).

Definition drawStaticFrame (st : Layer * GL) : Layer * GL :=
  let (l, gl) := st in
  if negb (isSome (windTexture l)) || negb (isSome (particleStateTexture0 l))
  then st
  else
    let gl := bindTexture (windTexture l) 0 gl in
    let gl := bindTexture (particleStateTexture0 l) 1 gl in
    (l, drawParticles l gl).

(** *** The animation loop

    [requestAnimationFrame] hands out handles greater than zero; the
    browser keeps the handles of the callbacks that are scheduled. *)








End WebGLPasses.

(* ===================================================================== *)
(** ** A concrete host                                                    *)
(* ===================================================================== *)

(** Rational stand-ins for the host routines, on which the model runs:
    truncated Taylor polynomials for [Math.sin] and [Math.cos], clamped to
    [[-1, 1]] (exact at [0]); for [Math.sqrt] the linear interpolation
    between consecutive integer squares (exact at every integer square),
    or the square root truncated to 1100 binary digits, or the binary64
    square root itself; a fixed sequence in [[0, 1)] for
    [Math.random()]. *)

Module Examples.

Import MockWindData.

Definition clamp1 (q : Q) : Q := Qmax (-1) (Qmin 1 q).

Definition sinTaylor (a : number) : number :=
  match a with
  | Fin x => fin (clamp1 (x - x * x * x / 6))
  | _ => NaN
  end.

Definition cosTaylor (a : number) : number :=
  match a with
  | Fin x => fin (clamp1 (1 - x * x / 2 + x * x * x * x / 24))
  | _ => NaN
  end.

Definition sqrtInterp (a : number) : number :=
  match a with
  | Fin x =>
      match x ?= 0 with
      | Lt => NaN
      | _ =>
          let k := Z.sqrt (Qfloor x) in
          fin (inject_Z k + (x - inject_Z (k * k)) / inject_Z (2 * k + 1))
      end
  | PInf => PInf
  | _ => NaN
  end.

Definition demoMath : MathLib :=
  {| Math_sin := sinTaylor; Math_cos := cosTaylor; Math_sqrt := sqrtInterp |}.

(** The square root to 1100 binary digits after the point, rounded
    down. *)
Definition sqrtScale : Z := 2 ^ 1100.

Definition sqrtFixed (a : number) : number :=
  match a with
  | Fin x =>
      match x ?= 0 with
      | Lt => NaN
      | _ =>
          fin (inject_Z (Z.sqrt (Qfloor (x * inject_Z (sqrtScale * sqrtScale))))
               / inject_Z sqrtScale)
      end
  | PInf => PInf
  | _ => NaN
  end.

Definition accurateMath : MathLib :=
  {| Math_sin := sinTaylor; Math_cos := cosTaylor; Math_sqrt := sqrtFixed |}.

(** The host whose [Math.sqrt] is the binary64 square root. *)
Definition binary64Math : MathLib :=
  {| Math_sin := sinTaylor; Math_cos := cosTaylor; Math_sqrt := Binary64.sqrt |}.

(** [0.00, 0.37, 0.74, 0.11, ...] *)
Definition demoRnd (k : nat) : number :=
  Fin (inject_Z (Z.of_nat k * 37 mod 100) / 100).

(** The bounds of the zero-size scenario. *)
Definition zeroSizeBounds : Bounds :=
  {| west := lit 10; south := lit 5; east := lit 10; north := lit 5 |}.

(** The region of interest of the application. *)
Definition regionBounds : Bounds :=
  {| west := lit 92; south := lit (-11); east := lit 141; north := lit 28.5 |}.

(** A part of the region whose grid steps at density 15 are the integers
    2 and 1, so that the grid is the same in binary64. *)
Definition gridBounds : Bounds :=
  {| west := lit 100; south := lit 5; east := lit 130; north := lit 20 |}.

(** Bounds that are open to the west. *)
Definition openBounds : Bounds :=
  {| west := NInf; south := lit 0; east := lit 0; north := lit 15 |}.

(** A composite layer animating one particle that sits on the eastern
    edge of its bounds and heads east. *)
Definition edgeProps : WindParticleLayer.Props :=
  {| WindParticleLayer.bounds := regionBounds;
     WindParticleLayer.particleCount := 1;
     WindParticleLayer.animate := true;
     WindParticleLayer.particleSpeed := None |}.

Definition edgeParticle : WindParticleLayer.ParticleType.t :=
  {| WindParticleLayer.ParticleType.position := (lit 141, lit 0);
     WindParticleLayer.ParticleType.direction := lit 0;
     WindParticleLayer.ParticleType.speed := lit 1;
     WindParticleLayer.ParticleType.age := lit 3;
     WindParticleLayer.ParticleType.maxAge := lit 80;
     WindParticleLayer.ParticleType.size := lit 21;
     WindParticleLayer.ParticleType.color := (lit 255, lit 0, lit 0, lit 200) |}.

Definition edgeState : WindParticleLayer.State :=
  {| WindParticleLayer.particles := [edgeParticle];
     WindParticleLayer.windData := [windSample demoMath (lit 100) (lit 10)] |}.

(** A 600 x 450 canvas showing longitudes 90 to 150 and latitudes 30 down
    to -15, ten pixels per degree, so that part of the canvas lies outside
    the region of interest; unprojecting a pixel of the bottom margin
    throws. *)
Definition demoMap : CanvasMap.MapLibre :=
  {| CanvasMap.unproject := fun '(x, y) =>
       if (y >? lit 440)%js then None
       else Some {| lng := (lit 90 + x / lit 10)%js;
                    lat := (lit 30 - y / lit 10)%js |};
     CanvasMap.project := fun '(lng, lat) =>
       Some (((lng - lit 90) * lit 10)%js, ((lit 30 - lat) * lit 10)%js) |}.

(** A canvas looking at another part of the world: no pixel falls in the
    region of interest. *)
Definition farMap : CanvasMap.MapLibre :=
  {| CanvasMap.unproject := fun '(x, y) =>
       Some {| lng := (x / lit 10)%js; lat := (lit 60 - y / lit 10)%js |};
     CanvasMap.project := fun '(lng, lat) =>
       Some ((lng * lit 10)%js, ((lit 60 - lat) * lit 10)%js) |}.

(** A sample at distance 5 from the origin, and two samples so far away
    that their squared distances to the origin exceed
    [Number.MAX_VALUE]. *)
Definition sample34 : WindPoint :=
  {| position := (lit 3, lit 4); direction := lit 0; speed := lit 0.5 |}.

Definition farSample : WindPoint :=
  {| position := (Fin (inject_Z (2 * 10 ^ 155)), lit 0);
     direction := lit 0; speed := lit 0.5 |}.

Definition lessFarSample : WindPoint :=
  {| position := (Fin (inject_Z (15 * 10 ^ 154)), lit 0);
     direction := lit 1; speed := lit 0.5 |}.

(** Two samples whose distances to the origin, [sqrt (25 + 2^-48)] and
    [5], are the same binary64 number. *)
Definition sampleBeyond5 : WindPoint :=
  {| position := (lit 5, Fin (1 # 2 ^ 24)); direction := lit 0; speed := lit 0.5 |}.

Definition sampleAt5 : WindPoint :=
  {| position := (lit 5, lit 0); direction := lit 1; speed := lit 0.5 |}.

Definition demoWind : list WindPoint :=
  [windSample demoMath (lit 100) (lit 10);
   windSample demoMath (lit 120) (lit 0);
   windSample demoMath (lit 130) (lit 20)].

End Examples.

(* ===================================================================== *)
(** ** Facts about the number model                                       *)
(* ===================================================================== *)

Module JSFacts.

Lemma ltb_Fin (x y : Q) : (Fin x <? Fin y)%js = true <-> (x < y)%Q.
Proof.
  unfold ltb. rewrite Qlt_alt.
  destruct (x ?= y)%Q; split; congruence.
Qed.

Lemma ltb_Fin_false (x y : Q) : (Fin x <? Fin y)%js = false <-> (y <= x)%Q.
Proof.
  rewrite <- not_true_iff_false, ltb_Fin. split.
  - apply Qnot_lt_le.
  - apply Qle_not_lt.
Qed.

Lemma leb_Fin (x y : Q) : (Fin x <=? Fin y)%js = true <-> (x <= y)%Q.
Proof.
  unfold leb. rewrite Qle_alt.
  destruct (x ?= y)%Q; split; congruence.
Qed.

Lemma leb_Fin_false (x y : Q) : (Fin x <=? Fin y)%js = false <-> (y < x)%Q.
Proof.
  rewrite <- not_true_iff_false, leb_Fin. split.
  - apply Qnot_le_lt.
  - apply Qlt_not_le.
Qed.

Lemma Qsquare_nonneg (z : Q) : (0 <= z * z)%Q.
Proof.
  destruct (Qlt_le_dec z 0) as [H|H].
  - setoid_replace (z * z)%Q with ((- z) * (- z))%Q by ring.
    apply Qmult_le_0_compat; lra.
  - apply Qmult_le_0_compat; lra.
Qed.

Lemma Qred_idem (q : Q) : Qred (Qred q) = Qred q.
Proof. apply Qred_complete, Qred_correct. Qed.

Lemma add_Fin (x y : Q) : (Fin x + Fin y)%js = Fin (Qred (x + y)).
Proof. reflexivity. Qed.

Lemma sub_Fin (x y : Q) : (Fin x - Fin y)%js = Fin (Qred (x + Qred (- y))).
Proof. reflexivity. Qed.

Lemma mul_Fin (x y : Q) : (Fin x * Fin y)%js = Fin (Qred (x * y)).
Proof. reflexivity. Qed.

Lemma abs_Fin (x : Q) : Math_abs (Fin x) = Fin (Qabs x).
Proof. reflexivity. Qed.

Create Rewrite HintDb js.
#[export] Hint Rewrite add_Fin sub_Fin mul_Fin abs_Fin : js.

(** A comparison that succeeds against a finite bound from below excludes
    [NaN] and [Infinity]. *)
Lemma leb_Fin_r (a : number) (y : Q) :
  (a <=? Fin y)%js = true -> a = NInf \/ exists x, a = Fin x /\ (x <= y)%Q.
Proof.
  destruct a as [x| | |]; simpl; try discriminate; auto.
  intros H. right. exists x. split; [reflexivity|].
  now apply leb_Fin.
Qed.

Lemma round_half_up_near (q : Q) :
  (q - (1 # 2) < inject_Z (round_half_up q) <= q + (1 # 2))%Q.
Proof.
  unfold round_half_up. split.
  - pose proof (Qlt_floor (q + (1 # 2))) as H.
    rewrite inject_Z_plus in H. change (inject_Z 1) with 1%Q in H. lra.
  - apply Qfloor_le.
Qed.

Lemma round_half_up_comp (p q : Q) : (p == q)%Q -> round_half_up p = round_half_up q.
Proof.
  intros H. unfold round_half_up. apply Qfloor_comp. now rewrite H.
Qed.

End JSFacts.

(* ===================================================================== *)
(** ** The colour ramp                                                    *)
(* ===================================================================== *)

Module ColorRamp.

Import MockWindData JSFacts.

(** The green channel of a colour. *)
Definition green (c : number * number * number) : number := snd (fst c).

Lemma getWindColor_light (s : Q) :
  (s < 0.3)%Q -> getWindColor (Fin s) = (lit 30, lit 144, lit 255).
Proof.
  intros H. unfold getWindColor, lit.
  now rewrite (proj2 (ltb_Fin s 0.3) H).
Qed.

Lemma getWindColor_medium (s : Q) :
  (0.3 <= s < 0.6)%Q ->
  getWindColor (Fin s)
  = (lit 255, Fin (inject_Z (round_half_up (200 + 55 * s))), lit 0).
Proof.
  intros [H1 H2]. unfold getWindColor, lit.
  rewrite (proj2 (ltb_Fin_false s 0.3) H1), (proj2 (ltb_Fin s 0.6) H2).
  cbn [mul add fin Math_round].
  do 4 f_equal.
  apply round_half_up_comp. rewrite !Qred_correct. ring.
Qed.

Lemma getWindColor_strong (s : Q) :
  (0.6 <= s)%Q ->
  getWindColor (Fin s)
  = (lit 255, Fin (inject_Z (round_half_up (165 - 165 * s))), lit 0).
Proof.
  intros H. unfold getWindColor, lit.
  assert (H1 : (0.3 <= s)%Q) by lra.
  rewrite (proj2 (ltb_Fin_false s 0.3) H1), (proj2 (ltb_Fin_false s 0.6) H).
  cbn [mul add sub neg fin Math_round].
  do 4 f_equal.
  apply round_half_up_comp. rewrite !Qred_correct. ring.
Qed.




(** C10.  [getWindColor] does not clamp its result to the byte range: at
    speed [1.2] the green channel is [round (165 - 198) = -33], and it is
    negative for every speed above [331/330]. *)
Theorem getWindColor_green_negative :
  getWindColor (lit 1.2) = (lit 255, lit (-33), lit 0)
  /\ (0 <= 1.2 <= 1.2)%Q
  /\ (green (getWindColor (lit 1.2)) <? lit 0)%js = true
  /\ (forall s : Q, (331 # 330 < s)%Q ->
        exists g : Z,
          green (getWindColor (Fin s)) = Fin (inject_Z g) /\ (g < 0)%Z).
Proof.
  split; [reflexivity|]. split; [lra|]. split; [reflexivity|].
  intros s H.
  assert (Hs : (0.6 <= s)%Q) by lra.
  rewrite (getWindColor_strong Hs). eexists. split; [reflexivity|].
  pose proof (round_half_up_near (165 - 165 * s)) as [_ Hr].
  assert (Hlt : (inject_Z (round_half_up (165 - 165 * s)) < inject_Z 0)%Q).
  { change (inject_Z 0) with 0%Q. lra. }
  now rewrite <- Zlt_Qlt in Hlt.
Qed.

End ColorRamp.

(* ===================================================================== *)
(** ** The field synthesizer                                              *)
(* ===================================================================== *)

Module FieldSynthesis.

Import MockWindData JSFacts Examples.

(** The state a loop body leaves behind, whichever way it ends. *)
Definition flowState {A} (r : flow A) : A :=
  match r with Next a => a | Return a => a end.

Section Loops.

Variable M : MathLib.
Variable bounds : Bounds.
Variables lonStep latStep : number.

(** *** Fuel: more fuel never changes a result *)

Lemma lonLoop_fuel_mono (fuel fuel' : nat) lat lon st r :
  (fuel <= fuel')%nat ->
  lonLoop M bounds lonStep fuel lat lon st = Some r ->
  lonLoop M bounds lonStep fuel' lat lon st = Some r.
Proof.
  revert fuel' lon st. induction fuel as [|fuel IH]; intros fuel' lon st Hle H.
  - discriminate.
  - destruct fuel' as [|fuel']; [lia|].
    cbn [lonLoop latLoop] in *.
    destruct (lon <=? east bounds)%js; [|exact H].
    destruct (Nat.leb safetyLimit (pointCount st)); [exact H|].
    apply IH; [lia|exact H].
Qed.

Lemma latLoop_fuel_mono (fuel fuel' : nat) lat st r :
  (fuel <= fuel')%nat ->
  latLoop M bounds lonStep latStep fuel lat st = Some r ->
  latLoop M bounds lonStep latStep fuel' lat st = Some r.
Proof.
  revert fuel' lat st. induction fuel as [|fuel IH]; intros fuel' lat st Hle H.
  - discriminate.
  - destruct fuel' as [|fuel']; [lia|].
    cbn [lonLoop latLoop] in *.
    destruct (lat <=? north bounds)%js; [|exact H].
    destruct (lonLoop M bounds lonStep fuel lat (west bounds) st) as [r'|] eqn:E;
      [|discriminate].
    rewrite (@lonLoop_fuel_mono fuel fuel' lat (west bounds) st r') by (lia || exact E).
    destruct r' as [st'|st']; [|exact H].
    apply IH; [lia|exact H].
Qed.

(** *** The counter and the cap *)

(** [pointCount] counts the samples pushed so far, and never passes the
    limit. *)
Definition counted (st : GenState) : Prop :=
  pointCount st = length (windData st) /\ (pointCount st <= safetyLimit)%nat.

Lemma lonLoop_counted fuel lat lon st r :
  counted st ->
  lonLoop M bounds lonStep fuel lat lon st = Some r ->
  counted (flowState r).
Proof.
  revert lon st. induction fuel as [|fuel IH]; intros lon st Hst H.
  - discriminate.
  - cbn [lonLoop latLoop] in H.
    destruct (lon <=? east bounds)%js.
    + destruct (Nat.leb safetyLimit (pointCount st)) eqn:Hcap.
      * injection H as <-. exact Hst.
      * eapply IH; [|exact H].
        apply Nat.leb_gt in Hcap. destruct Hst as [Hc Hle].
        split; cbn [windData pointCount].
        -- rewrite length_app. cbn [length]. lia.
        -- lia.
    + injection H as <-. exact Hst.
Qed.

Lemma latLoop_counted fuel lat st field :
  counted st ->
  latLoop M bounds lonStep latStep fuel lat st = Some field ->
  (length field <= safetyLimit)%nat.
Proof.
  revert lat st. induction fuel as [|fuel IH]; intros lat st Hst H.
  - discriminate.
  - cbn [lonLoop latLoop] in H.
    destruct (lat <=? north bounds)%js.
    + destruct (lonLoop M bounds lonStep fuel lat (west bounds) st) as [r|] eqn:E;
        [|discriminate].
      pose proof (lonLoop_counted _ _ _ Hst E) as Hr.
      destruct r as [st'|st']; cbn [flowState] in Hr.
      * eapply IH; eassumption.
      * injection H as <-. destruct Hr as [Hc Hle]. now rewrite <- Hc.
    + injection H as <-. destruct Hst as [Hc Hle]. now rewrite <- Hc.
Qed.

(** When the cap is struck the inner loop makes the function return, with
    the state untouched. *)
Lemma lonLoop_cap fuel lat lon st :
  (lon <=? east bounds)%js = true ->
  (safetyLimit <= pointCount st)%nat ->
  lonLoop M bounds lonStep (S fuel) lat lon st = Some (Return st).
Proof.
  intros Hlon Hcap. cbn [lonLoop]. rewrite Hlon.
  apply Nat.leb_le in Hcap. now rewrite Hcap.
Qed.

Lemma latLoop_return fuel lat st st' :
  (lat <=? north bounds)%js = true ->
  lonLoop M bounds lonStep fuel lat (west bounds) st = Some (Return st') ->
  latLoop M bounds lonStep latStep (S fuel) lat st = Some (windData st').
Proof.
  intros Hlat H. cbn [latLoop]. now rewrite Hlat, H.
Qed.

(** *** Invariants of the emitted samples *)

Section Emitted.

Variable G : WindPoint -> Prop.

Lemma lonLoop_Forall (I : number -> Prop) lat :
  (forall lon, I lon -> (lon <=? east bounds)%js = true ->
               G (windSample M lon lat) /\ I (lon + lonStep)%js) ->
  forall fuel lon st r,
    I lon -> Forall G (windData st) ->
    lonLoop M bounds lonStep fuel lat lon st = Some r ->
    Forall G (windData (flowState r)).
Proof.
  intros Hstep. induction fuel as [|fuel IH]; intros lon st r HI Hst H.
  - discriminate.
  - cbn [lonLoop latLoop] in H.
    destruct (lon <=? east bounds)%js eqn:Hlon.
    + destruct (Nat.leb safetyLimit (pointCount st)).
      * injection H as <-. exact Hst.
      * destruct (Hstep lon HI Hlon) as [HG HI'].
        eapply IH; [exact HI'| |exact H].
        cbn [windData]. apply Forall_app. split; [exact Hst|].
        constructor; [exact HG|constructor].
    + injection H as <-. exact Hst.
Qed.

Lemma latLoop_Forall (J : number -> Prop) :
  (forall lat, J lat -> (lat <=? north bounds)%js = true ->
               J (lat + latStep)%js
               /\ forall fuel st r,
                    Forall G (windData st) ->
                    lonLoop M bounds lonStep fuel lat (west bounds) st = Some r ->
                    Forall G (windData (flowState r))) ->
  forall fuel lat st field,
    J lat -> Forall G (windData st) ->
    latLoop M bounds lonStep latStep fuel lat st = Some field ->
    Forall G field.
Proof.
  intros Hstep. induction fuel as [|fuel IH]; intros lat st field HJ Hst H.
  - discriminate.
  - cbn [lonLoop latLoop] in H.
    destruct (lat <=? north bounds)%js eqn:Hlat.
    + destruct (Hstep lat HJ Hlat) as [HJ' Hinner].
      destruct (lonLoop M bounds lonStep fuel lat (west bounds) st) as [r|] eqn:E;
        [|discriminate].
      pose proof (Hinner _ _ _ Hst E) as Hr.
      destruct r as [st'|st']; cbn [flowState] in Hr.
      * eapply IH; eassumption.
      * now injection H as <-.
    + now injection H as <-.
Qed.

End Emitted.

End Loops.

(** *** The zero-size scenario *)

(** A loop variable that the step does not move: the inner loop pushes
    the same sample until the cap makes the function return. *)
Lemma lonLoop_stuck (M : MathLib) (bounds : Bounds) (lonStep lat lon : number) :
  (lon <=? east bounds)%js = true ->
  (lon + lonStep)%js = lon ->
  forall (k fuel : nat) (st : GenState),
    (pointCount st + k = safetyLimit)%nat ->
    (k < fuel)%nat ->
    lonLoop M bounds lonStep fuel lat lon st
    = Some (Return {| windData := windData st ++ repeat (windSample M lon lat) k;
                      pointCount := safetyLimit |}).
Proof.
  intros Hlon Hstep.
  induction k as [|k IH]; intros fuel st Hcount Hfuel;
    (destruct fuel as [|fuel]; [lia|]); cbn [lonLoop]; rewrite Hlon.
  - rewrite (proj2 (Nat.leb_le _ _)) by lia.
    destruct st as [data count]. cbn [windData pointCount repeat] in *.
    rewrite app_nil_r. do 3 f_equal. lia.
  - rewrite (proj2 (Nat.leb_gt _ _)) by lia.
    rewrite Hstep, IH; cbn [windData pointCount]; [|lia|lia].
    now rewrite <- app_assoc.
Qed.

(** C6, as the code has it.  On the zero-size bounds
    [{west: 10, south: 5, east: 10, north: 5}] with density 15 the divisor
    is 15 and both grid steps are [0 / 15 = 0] (no division by zero),
    neither loop variable ever advances, and the synthesizer terminates
    only because the cap is struck: it returns 500 copies of the sample at
    [(10, 5)]. *)
Theorem generateMockWindData_zero_size (M : MathLib) (fuel : nat) :
  (502 <= fuel)%nat ->
  Math_min (lit 15) (lit 30) = lit 15
  /\ ((east zeroSizeBounds - west zeroSizeBounds) / Math_min (lit 15) (lit 30))%js = Fin 0
  /\ ((north zeroSizeBounds - south zeroSizeBounds) / Math_min (lit 15) (lit 30))%js = Fin 0
  /\ generateMockWindData M fuel zeroSizeBounds (lit 15)
     = Some (repeat (windSample M (lit 10) (lit 5)) 500)
  /\ position (windSample M (lit 10) (lit 5)) = (lit 10, lit 5).
Proof.
  intros Hfuel. split; [reflexivity|]. split; [reflexivity|].
  split; [reflexivity|]. split; [|reflexivity].
  unfold generateMockWindData.
  change ((east zeroSizeBounds - west zeroSizeBounds) / Math_min (lit 15) (lit 30))%js
    with (Fin 0).
  change ((north zeroSizeBounds - south zeroSizeBounds) / Math_min (lit 15) (lit 30))%js
    with (Fin 0).
  destruct fuel as [|fuel]; [lia|]. cbn [latLoop].
  change (south zeroSizeBounds <=? north zeroSizeBounds)%js with true.
  cbv iota.
  rewrite (@lonLoop_stuck M zeroSizeBounds (Fin 0) (south zeroSizeBounds)
             (west zeroSizeBounds) eq_refl eq_refl 500 fuel);
    [reflexivity|reflexivity|lia].
Qed.

Lemma generateMockWindData_zero_size_run :
  generateMockWindData demoMath 502 zeroSizeBounds (lit 15)
  = Some (repeat (windSample demoMath (lit 10) (lit 5)) 500).
Proof.
  refine (proj1 (proj2 (proj2 (proj2
            (@generateMockWindData_zero_size demoMath 502 _))))).
  apply Nat.le_refl.
Defined.

(** The scenario as the specification words it fails: the field returned
    holds 500 samples, so it is neither empty nor a single sample. *)
Lemma generateMockWindData_zero_size_not_degenerate :
  option_map (@length WindPoint)
    (generateMockWindData demoMath 502 zeroSizeBounds (lit 15)) = Some 500%nat
  /\ ~ (500 <= 1)%nat.
Proof.
  split; [vm_compute; reflexivity|lia].
Qed.

(** *** Termination on well-formed input *)

(** A loop variable that advances by a positive step passes its bound:
    if [n] steps from [q] lead beyond [hi], [n + 1] units of fuel are
    enough for the inner loop to end. *)
Lemma lonLoop_returns (M : MathLib) (bounds : Bounds) (hi step : Q) (lat : number) :
  east bounds = Fin hi ->
  (0 < step)%Q ->
  forall (n fuel : nat) (q : Q) (st : GenState),
    (hi - q < inject_Z (Z.of_nat n) * step)%Q ->
    (n < fuel)%nat ->
    exists r, lonLoop M bounds (Fin step) fuel lat (Fin q) st = Some r.
Proof.
  intros Heast Hstep.
  induction n as [|n IH]; intros fuel q st Hn Hfuel;
    (destruct fuel as [|fuel]; [lia|]); cbn [lonLoop]; rewrite Heast.
  - rewrite (proj2 (leb_Fin_false q hi)); [eauto|].
    change (inject_Z (Z.of_nat 0)) with 0%Q in Hn. lra.
  - destruct (Fin q <=? Fin hi)%js; [|eauto].
    destruct (Nat.leb safetyLimit (pointCount st)); [eauto|].
    rewrite add_Fin. apply IH; [|lia].
    rewrite Qred_correct.
    rewrite Nat2Z.inj_succ, <- Z.add_1_r, inject_Z_plus in Hn.
    change (inject_Z 1) with 1%Q in Hn. lra.
Qed.

Lemma latLoop_returns (M : MathLib) (bounds : Bounds)
    (hiLon stepLon hiLat stepLat west0 : Q) (m : nat) :
  east bounds = Fin hiLon ->
  north bounds = Fin hiLat ->
  west bounds = Fin west0 ->
  (0 < stepLon)%Q ->
  (0 < stepLat)%Q ->
  (hiLon - west0 < inject_Z (Z.of_nat m) * stepLon)%Q ->
  forall (n fuel : nat) (q : Q) (st : GenState),
    (hiLat - q < inject_Z (Z.of_nat n) * stepLat)%Q ->
    (n + m + 1 < fuel)%nat ->
    exists field,
      latLoop M bounds (Fin stepLon) (Fin stepLat) fuel (Fin q) st = Some field.
Proof.
  intros Heast Hnorth Hwest Hlon Hlat Hm.
  induction n as [|n IH]; intros fuel q st Hn Hfuel;
    (destruct fuel as [|fuel]; [lia|]); cbn [latLoop]; rewrite Hnorth.
  - rewrite (proj2 (leb_Fin_false q hiLat)); [eauto|].
    change (inject_Z (Z.of_nat 0)) with 0%Q in Hn. lra.
  - destruct (Fin q <=? Fin hiLat)%js; [|eauto].
    rewrite Hwest.
    destruct (@lonLoop_returns M bounds hiLon stepLon (Fin q) Heast Hlon
                m fuel west0 st Hm) as [r ->]; [lia|].
    destruct r as [st'|st']; [|eauto].
    rewrite add_Fin. apply IH; [|lia].
    rewrite Qred_correct.
    rewrite Nat2Z.inj_succ, <- Z.add_1_r, inject_Z_plus in Hn.
    change (inject_Z 1) with 1%Q in Hn. lra.
Qed.

(** Bounds of positive extent, given as finite numbers, and a positive
    finite density. *)
Definition wellFormed (bounds : Bounds) (density : number) : Prop :=
  exists w s e n d : Q,
    bounds = {| west := Fin w; south := Fin s; east := Fin e; north := Fin n |}
    /\ density = Fin d
    /\ (w < e)%Q /\ (s < n)%Q /\ (0 < d)%Q.

(** The grid step over an interval of positive length: positive, and 31
    steps lead beyond the interval (the density is at most 30). *)
Lemma gridStep (lo hi d : Q) :
  (lo < hi)%Q -> (0 < d)%Q ->
  exists step : Q,
    ((Fin hi - Fin lo) / Math_min (Fin d) (lit 30))%js = Fin step
    /\ (0 < step)%Q
    /\ (hi - lo < inject_Z (Z.of_nat 31) * step)%Q.
Proof.
  intros Hlen Hd.
  assert (Hmin : exists d', Math_min (Fin d) (lit 30) = Fin d'
                            /\ (0 < d' <= 30)%Q).
  { unfold Math_min, lit. destruct (Fin d <=? Fin 30)%js eqn:E.
    - apply leb_Fin in E. exists d. split; [reflexivity|lra].
    - exists 30%Q. split; [reflexivity|lra]. }
  destruct Hmin as (d' & -> & Hd0 & Hd30).
  rewrite sub_Fin. cbn [div].
  destruct (d' ?= 0)%Q eqn:E.
  - apply Qeq_alt in E. lra.
  - apply Qlt_alt in E. lra.
  - unfold fin. eexists. split; [reflexivity|].
    rewrite !Qred_correct.
    assert (Hinv : (0 < / d')%Q) by now apply Qinv_lt_0_compat.
    assert (Hone : (d' * / d' == 1)%Q) by (apply Qmult_inv_r; lra).
    unfold Qdiv. change (inject_Z (Z.of_nat 31)) with 31%Q.
    set (i := (/ d')%Q) in *.
    assert (Hpos : (0 < (hi - lo) * i)%Q) by (apply Qmult_lt_0_compat; lra).
    split; [lra|].
    assert (H30 : ((hi - lo) * i * d' == hi - lo)%Q).
    { rewrite <- Qmult_assoc, (Qmult_comm i d'), Hone. ring. }
    assert (Hle : ((hi - lo) * i * d' <= (hi - lo) * i * 30)%Q).
    { rewrite !(Qmult_comm ((hi - lo) * i)).
      apply Qmult_le_compat_r; lra. }
    lra.
Qed.

Lemma generateMockWindData_returns (M : MathLib) (fuel : nat)
    (bounds : Bounds) (density : number) :
  wellFormed bounds density ->
  (64 <= fuel)%nat ->
  exists field, generateMockWindData M fuel bounds density = Some field.
Proof.
  intros (w & s & e & n & d & -> & -> & Hwe & Hsn & Hd) Hfuel.
  unfold generateMockWindData. cbn [west south east north].
  destruct (gridStep Hwe Hd) as (stepLon & -> & HstepLon & HmLon).
  destruct (gridStep Hsn Hd) as (stepLat & -> & HstepLat & HmLat).
  eapply latLoop_returns with (m := 31%nat) (n := 31%nat);
    try reflexivity; eassumption.
Qed.

(** C2.  Whatever the bounds and the requested density, a field returned
    by [generateMockWindData] holds at most 500 samples; when the cap is
    struck (a further grid cell is due while 500 samples have been pushed)
    the inner loop makes the function return, normally, the field
    accumulated so far; and on well-formed input (bounds of positive
    extent, positive density) the function does return. *)
Theorem generateMockWindData_cap :
  (forall M fuel bounds density field,
     generateMockWindData M fuel bounds density = Some field ->
     (length field <= 500)%nat)
  /\ (forall M bounds lonStep n lat lon st,
        (lon <=? east bounds)%js = true ->
        (500 <= pointCount st)%nat ->
        lonLoop M bounds lonStep (S n) lat lon st = Some (Return st))
  /\ (forall M bounds lonStep latStep n lat st st',
        (lat <=? north bounds)%js = true ->
        lonLoop M bounds lonStep n lat (west bounds) st = Some (Return st') ->
        latLoop M bounds lonStep latStep (S n) lat st = Some (windData st'))
  /\ (forall M fuel bounds density,
        wellFormed bounds density ->
        (64 <= fuel)%nat ->
        exists field,
          generateMockWindData M fuel bounds density = Some field
          /\ (length field <= 500)%nat).
Proof.
  assert (Hcap : forall M fuel bounds density field,
             generateMockWindData M fuel bounds density = Some field ->
             (length field <= 500)%nat).
  { intros M fuel bounds density field H.
    unfold generateMockWindData in H.
    eapply latLoop_counted; [|exact H].
    split; cbn [windData pointCount length]; [reflexivity|unfold safetyLimit; lia]. }
  split; [exact Hcap|]. split; [|split].
  - intros M bounds lonStep n lat lon st Hlon Hstruck. now apply lonLoop_cap.
  - intros M bounds lonStep latStep n lat st st' Hlat Hret. now apply latLoop_return.
  - intros M fuel bounds density Hwf Hfuel.
    destruct (generateMockWindData_returns M Hwf Hfuel) as [field E].
    exists field. split; [exact E|]. now apply Hcap with (1 := E).
Qed.

(** The cap is struck on the region of interest as soon as the density
    reaches 22: with density 1000 (clamped to 30) the 31 x 31 grid is cut
    after 500 samples. *)
Definition cappedField : list WindPoint :=
  match generateMockWindData demoMath 600 regionBounds (lit 1000) with
  | Some field => field
  | None => []
  end.

Lemma generateMockWindData_cap_run :
  generateMockWindData demoMath 600 regionBounds (lit 1000) = Some cappedField
  /\ length cappedField = 500%nat
  /\ (length cappedField <= 500)%nat.
Proof.
  split; [vm_compute; reflexivity|]. split; [vm_compute; reflexivity|].
  refine (proj1 generateMockWindData_cap demoMath 600%nat regionBounds
            (lit 1000) cappedField _).
  vm_compute. reflexivity.
Defined.

(** *** A run that never returns *)

(** The cap bounds the samples pushed, not the iterations of the outer
    loop: on reversed longitudes ([west > east]) no sample is ever pushed,
    and with [south = north] the latitude never advances, so the outer
    loop spins for ever.  No amount of fuel yields a result. *)
Definition reversedBounds : Bounds :=
  {| west := lit 92; south := lit 5; east := lit 41; north := lit 5 |}.

Lemma generateMockWindData_diverges (M : MathLib) (fuel : nat) :
  generateMockWindData M fuel reversedBounds (lit 15) = None.
Proof.
  unfold generateMockWindData.
  change ((north reversedBounds - south reversedBounds) / Math_min (lit 15) (lit 30))%js
    with (Fin 0).
  generalize ((east reversedBounds - west reversedBounds) / Math_min (lit 15) (lit 30))%js.
  intros lonStep.
  generalize {| windData := []; pointCount := 0 |}.
  induction fuel as [|fuel IH]; intros st; [reflexivity|].
  cbn [latLoop].
  change (south reversedBounds <=? north reversedBounds)%js with true. cbv iota.
  destruct fuel as [|fuel']; [reflexivity|].
  cbn [lonLoop].
  change (west reversedBounds <=? east reversedBounds)%js with false. cbv iota.
  change (south reversedBounds + Fin 0)%js with (south reversedBounds).
  apply IH.
Qed.

(** *** The speed of the emitted samples *)

(** [Math.sin] maps a finite number into [[-1, 1]]. *)
Definition sinBounded (M : MathLib) : Prop :=
  forall x : Q, exists r : Q, Math_sin M (Fin x) = Fin r /\ (-1 <= r <= 1)%Q.

Definition finiteBounds (b : Bounds) : Prop :=
  is_finite (west b) = true /\ is_finite (south b) = true
  /\ is_finite (east b) = true /\ is_finite (north b) = true.

(** The speed of the sample is a number in [[lo, hi]]. *)
Definition speedWithin (lo hi : Q) (p : WindPoint) : Prop :=
  exists s : Q, speed p = Fin s /\ (lo <= s <= hi)%Q.

Definition latitude (p : WindPoint) : number := snd (position p).

Definition speedInRegime (p : WindPoint) : Prop :=
  speedWithin 0.2 1.0 p
  /\ ((latitude p >? lit 14.0)%js = true -> speedWithin 0.3 0.6 p)
  /\ ((latitude p >? lit 14.0)%js = false -> speedWithin 0.2 1.0 p).

Lemma windSample_speed (M : MathLib) (lon lat : Q) :
  sinBounded M -> speedInRegime (windSample M (Fin lon) (Fin lat)).
Proof.
  intros Hsin. unfold speedInRegime, speedWithin, latitude, windSample.
  destruct (Fin lat >? lit 14.0)%js eqn:Hn; cbn [speed position snd].
  - unfold lit in *. autorewrite with js.
    destruct (Hsin (Qred (Qred (lat * 0.1) + Qred (lon * 0.2)))) as (r & -> & Hr).
    autorewrite with js.
    assert (Hb : (0.3 <= Qred (0.3 + Qred (0.3 * Qabs r)) <= 0.6)%Q).
    { rewrite !Qred_correct.
      pose proof (Qabs_nonneg r) as H0.
      assert (H1 : (Qabs r <= 1)%Q) by (apply Qabs_Qle_condition; lra).
      lra. }
    split; [|split].
    + eexists. split; [reflexivity|lra].
    + intros _. eexists. split; [reflexivity|exact Hb].
    + intros Hf. congruence.
  - unfold lit in *. autorewrite with js.
    destruct (Hsin (Qred (lat * 0.2))) as (r1 & -> & Hr1).
    destruct (Hsin (Qred (lon * 0.3))) as (r2 & -> & Hr2).
    autorewrite with js.
    assert (Hb : (0.2 <= Qred (0.2 + Qred (0.4 * Qabs (Qred (r1 + r2)))) <= 1.0)%Q).
    { rewrite !Qred_correct.
      pose proof (Qabs_nonneg (r1 + r2)) as H0.
      assert (H1 : (Qabs (r1 + r2) <= 2)%Q).
      { apply Qabs_Qle_condition. lra. }
      lra. }
    split; [|split].
    + eexists. split; [reflexivity|exact Hb].
    + intros Hf. congruence.
    + intros _. eexists. split; [reflexivity|exact Hb].
Qed.

Lemma add_not_NInf (a b : number) :
  a <> NInf -> b <> NInf -> (a + b)%js <> NInf.
Proof.
  destruct a, b; cbn; unfold fin; congruence.
Qed.

(** A grid step is [-Infinity] only when the interval it divides is
    reversed, in which case the loop over it is never entered. *)
Lemma step_NInf (lo hi : Q) (d : number) :
  ((Fin hi - Fin lo) / d)%js = NInf -> (Fin lo <=? Fin hi)%js = false.
Proof.
  cbn [sub neg add fin]. intros H. apply leb_Fin_false.
  destruct d as [y| | |]; cbn [div fin] in H; try discriminate.
  destruct (y ?= 0)%Q; try discriminate.
  destruct (Qred (hi + Qred (- lo)) ?= 0)%Q eqn:E; try discriminate.
  apply Qlt_alt in E. rewrite !Qred_correct in E. lra.
Qed.

(** The loop variable stays clear of [-Infinity], unless the loop is never
    entered. *)
Definition sane (step hi x : number) : Prop :=
  (step <> NInf /\ x <> NInf) \/ (x <=? hi)%js = false.

Lemma sane_start (lo hi : Q) (d : number) :
  sane ((Fin hi - Fin lo) / d)%js (Fin hi) (Fin lo).
Proof.
  unfold sane.
  destruct ((Fin hi - Fin lo) / d)%js eqn:E;
    try (left; split; congruence).
  right. now apply step_NInf with (d := d).
Qed.

Lemma sane_step (step : number) (hi : Q) (x : number) :
  sane step (Fin hi) x -> (x <=? Fin hi)%js = true ->
  (exists q, x = Fin q) /\ sane step (Fin hi) (x + step)%js.
Proof.
  intros [[Hs Hx]|Hx] Hle; [|congruence].
  split.
  - destruct (leb_Fin_r _ _ Hle) as [->|(q & -> & _)]; [congruence|eauto].
  - left. split; [exact Hs|]. now apply add_not_NInf.
Qed.

(** C9, as the code has it.  Provided [Math.sin] stays within
    [[-1, 1]], on bounds that are four numbers and for a positive density
    every sample emitted by [generateMockWindData] has a speed in
    [[0.2, 1.0]]: in [[0.3, 0.6]] in the northern regime (latitude above
    14), in [[0.2, 1.0]] in the southern one.  (The loop variables start
    from numbers and grow by steps that are not negative, so every sample
    is computed at a pair of numbers.) *)
Theorem generateMockWindData_speed (M : MathLib) (fuel : nat)
    (w s e n d : Q) (field : list WindPoint) :
  sinBounded M ->
  (0 < d)%Q ->
  generateMockWindData M fuel
    {| west := Fin w; south := Fin s; east := Fin e; north := Fin n |} (Fin d)
  = Some field ->
  Forall speedInRegime field.
Proof.
  intros Hsin _ H.
  unfold generateMockWindData in H. cbn [west south east north] in H.
  set (d' := Math_min (Fin d) (lit 30)) in H.
  eapply latLoop_Forall with (J := sane ((Fin n - Fin s) / d')%js (Fin n)).
  4: exact H.
  2: apply sane_start.
  2: constructor.
  cbn [west south east north].
  intros lat HJ Hlat.
  destruct (sane_step HJ Hlat) as [[la ->] HJ'].
  split; [exact HJ'|].
  intros fuel' st r Hst Hr.
  eapply lonLoop_Forall with (I := sane ((Fin e - Fin w) / d')%js (Fin e)).
  4: exact Hr.
  2: apply sane_start.
  2: exact Hst.
  cbn [west south east north].
  intros lon HI Hlon.
  destruct (sane_step HI Hlon) as [[lo ->] HI'].
  split; [|exact HI'].
  now apply windSample_speed.
Qed.

(** The stand-in for [Math.sin] is within [[-1, 1]]. *)
Lemma sinTaylor_bounded : sinBounded demoMath.
Proof.
  intros x. cbn [Math_sin demoMath sinTaylor]. unfold fin, clamp1.
  eexists. split; [reflexivity|].
  rewrite Qred_correct. split.
  - apply Q.le_max_l.
  - apply Q.max_lub; [lra|apply Q.le_min_l].
Qed.

(** The field of the region of interest at the default density. *)
Definition regionField : list WindPoint :=
  match generateMockWindData demoMath 600 regionBounds (lit 15) with
  | Some field => field
  | None => []
  end.

(** The field of [gridBounds] at the default density: 16 rows of 16
    samples, at the longitudes [100, 102, ..., 130] and the latitudes
    [5, 6, ..., 20]. *)
Definition gridField : list WindPoint :=
  match generateMockWindData demoMath 600 gridBounds (lit 15) with
  | Some field => field
  | None => []
  end.

Lemma generateMockWindData_speed_run :
  generateMockWindData demoMath 600 gridBounds (lit 15) = Some gridField
  /\ length gridField = 256%nat
  /\ Forall speedInRegime gridField.
Proof.
  split; [vm_compute; reflexivity|]. split; [vm_compute; reflexivity|].
  refine (@generateMockWindData_speed demoMath 600 100 5 130 20 15
            gridField sinTaylor_bounded _ _).
  - reflexivity.
  - vm_compute. reflexivity.
Defined.

(** The claim as the specification words it, for every input, fails on
    bounds that are not four numbers: with [west = -Infinity] the inner
    loop is entered at [lon = -Infinity], where [Math.sin] is [NaN], and
    each of the 16 rows (latitudes 0 to 15) contributes one sample whose
    speed is [NaN]. *)
Definition openField : list WindPoint :=
  match generateMockWindData demoMath 600 openBounds (lit 15) with
  | Some field => field
  | None => []
  end.

Lemma generateMockWindData_speed_unbounded :
  generateMockWindData demoMath 600 openBounds (lit 15) = Some openField
  /\ List.map speed openField = repeat NaN 16
  /\ List.map (fun p => fst (position p)) openField = repeat NInf 16
  /\ Forall (fun p => ~ speedInRegime p) openField.
Proof.
  split; [vm_compute; reflexivity|]. split; [vm_compute; reflexivity|].
  split; [vm_compute; reflexivity|].
  assert (H : forall p, speed p = NaN -> ~ speedInRegime p).
  { intros p Hp [(q & Hq & _) _]. congruence. }
  assert (Hall : Forall (fun p => speed p = NaN) openField).
  { vm_compute. repeat constructor. }
  eapply Forall_impl; [|exact Hall]. exact H.
Qed.

End FieldSynthesis.

(* ===================================================================== *)
(** ** The particle population: advection                                 *)
(* ===================================================================== *)

Module Advection.

Import JSFacts Examples.

(** *** [map] with a callback that draws random numbers *)

Lemma mapM_length {A B} (f : A -> Rand B) (xs : list A) (k : nat) :
  length (fst (mapM f xs k)) = length xs.
Proof.
  revert k. induction xs as [|x xs IH]; intros k; [reflexivity|].
  cbn [mapM]. unfold bind, ret.
  destruct (f x k) as [y k1].
  specialize (IH k1). destruct (mapM f xs k1) as [ys k2].
  cbn [fst length] in *. now rewrite IH.
Qed.

Lemma mapM_Forall2 {A B} (R : A -> B -> Prop) (f : A -> Rand B) :
  (forall x k, R x (fst (f x k))) ->
  forall xs k, Forall2 R xs (fst (mapM f xs k)).
Proof.
  intros Hf. induction xs as [|x xs IH]; intros k; [constructor|].
  cbn [mapM]. unfold bind, ret.
  pose proof (Hf x k) as Hx. destruct (f x k) as [y k1].
  specialize (IH k1). destruct (mapM f xs k1) as [ys k2].
  cbn [fst] in *. now constructor.
Qed.

Lemma mapE_Forall2 {A B} (R : A -> B -> Prop) (f : A -> Rand (option B)) :
  (forall x k y, fst (f x k) = Some y -> R x y) ->
  forall xs k ys,
    fst (WindParticleLayer.mapE f xs k) = Some ys -> Forall2 R xs ys.
Proof.
  intros Hf. induction xs as [|x xs IH]; intros k ys H.
  - cbn in H. injection H as <-. constructor.
  - cbn [WindParticleLayer.mapE] in H. unfold bind, ret in H.
    pose proof (Hf x k) as Hx. destruct (f x k) as [[y|] k1]; [|discriminate].
    specialize (IH k1).
    destruct (WindParticleLayer.mapE f xs k1) as [[ys'|] k2]; [|discriminate].
    cbn [fst option_map] in *. injection H as <-.
    constructor; [now apply Hx|now apply IH].
Qed.

Lemma mapE_total {A B} (f : A -> Rand (option B)) :
  (forall x k, fst (f x k) <> None) ->
  forall xs k, fst (WindParticleLayer.mapE f xs k) <> None.
Proof.
  intros Hf. induction xs as [|x xs IH]; intros k; [discriminate|].
  cbn [WindParticleLayer.mapE]. unfold bind, ret.
  pose proof (Hf x k) as Hx. destruct (f x k) as [[y|] k1]; [|now elim Hx].
  specialize (IH k1).
  destruct (WindParticleLayer.mapE f xs k1) as [[ys'|] k2]; [discriminate|].
  now elim IH.
Qed.

Lemma Forall2_same_length {A B} (R : A -> B -> Prop) xs ys :
  Forall2 R xs ys -> length ys = length xs.
Proof.
  induction 1; cbn [length]; congruence.
Qed.

(** *** The composite layer throws only on an empty field *)

Lemma layer_scan_some (windData : list MockWindData.WindPoint) (x y : number) :
  windData <> [] -> snd (WindParticleLayer.closestScan windData x y) <> None.
Proof.
  unfold WindParticleLayer.closestScan. intros Hne.
  assert (Hgen : forall l st, snd st <> None ->
            snd (fold_left (WindParticleLayer.scanStep x y) l st) <> None).
  { induction l as [|p l IH]; intros st Hst; [exact Hst|].
    cbn [fold_left]. apply IH. unfold WindParticleLayer.scanStep.
    destruct (_ <? _)%js; [discriminate|exact Hst]. }
  apply Hgen. destruct windData; [congruence|discriminate].
Qed.

Lemma layer_seed_total rnd props windData randomAge k :
  windData <> [] ->
  fst (WindParticleLayer.seed rnd props windData randomAge k) <> None.
Proof.
  intros Hne. unfold WindParticleLayer.seed, bind, ret, Math_random.
  match goal with
  | |- context [snd (WindParticleLayer.closestScan windData ?x ?y)] =>
      pose proof (@layer_scan_some windData x y Hne) as Hs;
      destruct (snd (WindParticleLayer.closestScan windData x y)) as [c|]
  end; [|now elim Hs].
  destruct (MockWindData.getWindColor (MockWindData.speed c)) as [[r g] b].
  destruct randomAge; discriminate.
Qed.

Lemma layer_updateOne_total M rnd props windData particleSpeed particle k :
  windData <> [] ->
  fst (WindParticleLayer.updateOne M rnd props windData particleSpeed particle k)
  <> None.
Proof.
  intros Hne. unfold WindParticleLayer.updateOne.
  destruct (_ >=? _)%js; [now apply layer_seed_total|].
  destruct (_ || _); [discriminate|].
  destruct (WindParticleLayer.ParticleType.color particle) as [[[r g] b] a].
  discriminate.
Qed.

(** C1.  One advection step returns a population of the length of its
    input, in all three variants: the canonical [updateWindParticles], the
    canvas map's [updateParticles], and the composite layer's
    [updateParticles] (which returns whenever the wind field is not
    empty; on an empty field recycling a particle raises an exception). *)
Theorem advance_preserves_population_size :
  (forall M rnd map particles windData width height k,
     length (fst (MockWindData.updateWindParticles
                    M rnd map particles windData width height k))
     = length particles)
  /\ (forall M rnd map_current particles windData width height k,
        length (fst (CanvasMap.updateParticles
                       M rnd map_current particles windData width height k))
        = length particles)
  /\ (forall M rnd props state k,
        match fst (WindParticleLayer.updateParticles M rnd props state k) with
        | Some particles' =>
            length particles' = length (WindParticleLayer.particles state)
        | None => WindParticleLayer.windData state = []
        end).
Proof.
  split; [|split].
  - intros. apply mapM_length.
  - intros. unfold CanvasMap.updateParticles.
    destruct map_current as [map|]; [|reflexivity].
    destruct windData as [|windData0 windData]; [reflexivity|].
    apply mapM_length.
  - intros. unfold WindParticleLayer.updateParticles.
    destruct (negb _ || _); [reflexivity|].
    match goal with
    | |- match fst (WindParticleLayer.mapE ?f ?xs ?k) with _ => _ end =>
        destruct (fst (WindParticleLayer.mapE f xs k)) as [ps|] eqn:E
    end.
    + eapply Forall2_same_length.
      eapply mapE_Forall2 with (R := fun _ _ => True); [|exact E]. trivial.
    + destruct (WindParticleLayer.windData state) as [|w ws] eqn:Ew; [reflexivity|].
      exfalso. revert E. apply mapE_total.
      intros x k'. apply layer_updateOne_total. discriminate.
Qed.

(** *** Ages *)

(** The age after a step of the canonical and of the canvas variant: one
    more frame, or [0] for a recycled particle. *)
Definition mockAged (p p' : MockWindData.WindParticle.t) : Prop :=
  MockWindData.WindParticle.age p' = (MockWindData.WindParticle.age p + lit 1)%js
  \/ MockWindData.WindParticle.age p' = lit 0.

Definition canvasAged (p p' : CanvasMap.WindParticle.t) : Prop :=
  CanvasMap.WindParticle.age p' = (CanvasMap.WindParticle.age p + lit 1)%js
  \/ CanvasMap.WindParticle.age p' = lit 0.

(** The composite layer: the effective [particleSpeed], and the test that
    the moved position lies outside the bounds. *)
Definition layerSpeed (props : WindParticleLayer.Props) : number :=
  match WindParticleLayer.particleSpeed props with
  | Some s => s
  | None => lit 0.0075
  end.

Definition leavesBounds (M : MathLib) (props : WindParticleLayer.Props)
    (p : WindParticleLayer.ParticleType.t) : bool :=
  let bounds := WindParticleLayer.bounds props in
  let speed := (WindParticleLayer.ParticleType.speed p * layerSpeed props)%js in
  let x := (fst (WindParticleLayer.ParticleType.position p)
            + Math_cos M (WindParticleLayer.ParticleType.direction p) * speed)%js in
  let y := (snd (WindParticleLayer.ParticleType.position p)
            + Math_sin M (WindParticleLayer.ParticleType.direction p) * speed)%js in
  ((x <? MockWindData.west bounds) || (x >? MockWindData.east bounds)
   || (y <? MockWindData.south bounds) || (y >? MockWindData.north bounds))%js.

(** Recycled at the end of its life: age [0]; leaving the bounds: age set
    to [maxAge]; otherwise one more frame. *)
Definition layerAged (M : MathLib) (props : WindParticleLayer.Props)
    (p p' : WindParticleLayer.ParticleType.t) : Prop :=
  let age1 := (WindParticleLayer.ParticleType.age p + lit 1)%js in
  if (age1 >=? WindParticleLayer.ParticleType.maxAge p)%js then
    WindParticleLayer.ParticleType.age p' = lit 0
  else if leavesBounds M props p then
    WindParticleLayer.ParticleType.age p' = WindParticleLayer.ParticleType.maxAge p
  else
    WindParticleLayer.ParticleType.age p' = age1.

Lemma mock_updateOne_aged M rnd map windData width height p k :
  mockAged p (fst (MockWindData.updateOne M rnd map windData width height p k)).
Proof.
  unfold MockWindData.updateOne, mockAged.
  destruct (_ || _); [|left; reflexivity].
  unfold bind, ret, Math_random. cbn beta iota.
  destruct (snd (MockWindData.closestScan _ _ _)); [right|left]; reflexivity.
Qed.

Lemma canvas_retryLoop_aged rnd map windData0 windData width height n p k :
  let r := fst (CanvasMap.retryLoop rnd map windData0 windData width height n p k) in
  (fst r = true /\ CanvasMap.WindParticle.age (snd r) = lit 0)
  \/ (fst r = false /\ snd r = p).
Proof.
  revert k. induction n as [|n IH]; intros k; [right; split; reflexivity|].
  cbn [CanvasMap.retryLoop]. unfold bind, ret, Math_random. cbn beta iota.
  destruct (CanvasMap.unproject map _) as [lngLat|]; [|apply IH].
  destruct (CanvasMap.isInSoutheastAsia _ _); [|apply IH].
  left. split; reflexivity.
Qed.

Lemma canvas_fallback_aged rnd map windData0 windData p k :
  CanvasMap.WindParticle.age (fst (CanvasMap.fallback rnd map windData0 windData p k))
  = lit 0.
Proof.
  unfold CanvasMap.fallback, bind, ret, Math_random. cbn beta iota.
  destruct (CanvasMap.project map _) as [[newX newY]|]; reflexivity.
Qed.

Lemma canvas_updateOne_aged M rnd map windData0 windData width height p k :
  canvasAged p
    (fst (CanvasMap.updateOne M rnd map windData0 windData width height p k)).
Proof.
  unfold CanvasMap.updateOne, canvasAged.
  destruct (CanvasMap.unproject map _) as [lngLat|]; [|left; reflexivity].
  destruct (_ || _); [|left; reflexivity].
  right. unfold bind.
  match goal with
  | |- context [CanvasMap.retryLoop ?a ?b ?c ?d ?e ?f ?n ?q ?k] =>
      pose proof (@canvas_retryLoop_aged a b c d e f n q k) as Hr;
      destruct (CanvasMap.retryLoop a b c d e f n q k) as [[valid p'] k']
  end.
  cbn [fst snd] in Hr. destruct Hr as [[-> Hage]|[-> ->]]; cbn [negb].
  - exact Hage.
  - apply canvas_fallback_aged.
Qed.

Lemma layer_seed_aged rnd props windData k p' :
  fst (WindParticleLayer.seed rnd props windData false k) = Some p' ->
  WindParticleLayer.ParticleType.age p' = lit 0.
Proof.
  unfold WindParticleLayer.seed, bind, ret, Math_random. cbn beta iota.
  destruct (snd (WindParticleLayer.closestScan _ _ _)) as [c|]; [|discriminate].
  destruct (MockWindData.getWindColor (MockWindData.speed c)) as [[r g] b].
  cbn [fst]. intros H. injection H as <-. reflexivity.
Qed.

Lemma layer_updateOne_aged M rnd props windData p k p' :
  fst (WindParticleLayer.updateOne M rnd props windData (layerSpeed props) p k)
  = Some p' ->
  layerAged M props p p'.
Proof.
  unfold WindParticleLayer.updateOne, layerAged, leavesBounds.
  destruct (_ >=? _)%js; [apply layer_seed_aged|].
  cbv zeta.
  destruct (_ || _).
  - cbn. intros H. injection H as <-. reflexivity.
  - destruct (WindParticleLayer.ParticleType.color p) as [[[r g] b] a].
    cbn. intros H. injection H as <-. reflexivity.
Qed.

(** C5, as the code has it.  In the canonical [updateWindParticles] the
    age of every particle goes up by exactly 1, or is [0] when the
    particle was recycled.  The canvas map's [updateParticles] does the
    same whenever the map exists and the wind field is not empty, and
    otherwise returns the population untouched.  In the composite layer
    (animation on) a particle is recycled with age [0] when its age plus 1
    reaches [maxAge]; when its move would leave the bounds its age is set
    to [maxAge] instead, so that the next step recycles it; otherwise its
    age goes up by exactly 1. *)
Theorem age_after_advection :
  (forall M rnd map particles windData width height k,
     Forall2 mockAged particles
       (fst (MockWindData.updateWindParticles
               M rnd map particles windData width height k)))
  /\ (forall M rnd map_current particles windData width height k,
        (map_current <> None -> windData <> [] ->
         Forall2 canvasAged particles
           (fst (CanvasMap.updateParticles
                   M rnd map_current particles windData width height k)))
        /\ (map_current = None \/ windData = [] ->
            fst (CanvasMap.updateParticles
                   M rnd map_current particles windData width height k)
            = particles))
  /\ (forall M rnd props state k particles',
        WindParticleLayer.animate props = true ->
        fst (WindParticleLayer.updateParticles M rnd props state k)
        = Some particles' ->
        Forall2 (layerAged M props) (WindParticleLayer.particles state) particles')
  /\ (forall m : Q, (Fin m + lit 1 >=? Fin m)%js = true).
Proof.
  split; [|split; [|split]].
  - intros. apply mapM_Forall2. intros p k'. apply mock_updateOne_aged.
  - intros. unfold CanvasMap.updateParticles. split.
    + intros Hmap Hdata.
      destruct map_current as [map|]; [|congruence].
      destruct windData as [|windData0 windData]; [congruence|].
      apply mapM_Forall2. intros p k'. apply canvas_updateOne_aged.
    + intros [->| ->]; [reflexivity|].
      destruct map_current; reflexivity.
  - intros M rnd props state k particles' Hanim.
    unfold WindParticleLayer.updateParticles. rewrite Hanim. cbn [negb orb].
    fold (layerSpeed props).
    destruct (Nat.eqb _ 0) eqn:Hlen.
    + apply Nat.eqb_eq in Hlen. cbn. intros H. injection H as <-.
      destruct (WindParticleLayer.particles state); [constructor|discriminate].
    + apply mapE_Forall2. intros p k' p'. apply layer_updateOne_aged.
  - intros m. unfold lit, geb. rewrite add_Fin. apply leb_Fin.
    rewrite Qred_correct. lra.
Qed.

(** The claim as the specification words it fails on the composite layer:
    a particle of age 3 and [maxAge] 80 on the eastern edge, heading east,
    comes out of one step with age 80, neither 4 nor 0. *)
Lemma age_jumps_at_the_edge :
  option_map (List.map WindParticleLayer.ParticleType.age)
    (fst (WindParticleLayer.updateParticles demoMath demoRnd edgeProps edgeState 0%nat))
  = Some [lit 80]
  /\ (lit 3 + lit 1)%js = lit 4
  /\ lit 80 <> lit 4
  /\ lit 80 <> lit 0.
Proof.
  split; [vm_compute; reflexivity|]. split; [reflexivity|].
  split; discriminate.
Qed.

End Advection.

(* ===================================================================== *)
(** ** The particle population: spawning                                  *)
(* ===================================================================== *)

Module Spawning.

Import MockWindData Examples.
Import CanvasMap.

Section Loop.

Variable rnd : nat -> number.
Variable map : MapLibre.
Variable windData0 : WindPoint.
Variable windData : list WindPoint.
Variables width height : number.
Variable count : nat.

(** What the loop guarantees about the state it ends in, from the state
    [st] it is entered with. *)
Definition spawned (st st' : SpawnState) : Prop :=
  (attempts st <= attempts st')%nat
  /\ ((attempts st <= maxAttempts count)%nat ->
      (attempts st' <= maxAttempts count)%nat)
  /\ ((length (particles st) <= count)%nat ->
      (length (particles st') <= count)%nat)
  /\ ((length (particles st') < count)%nat ->
      (maxAttempts count <= attempts st')%nat).

(** One iteration: one attempt more, and at most one particle more. *)
Lemma spawned_next (st st1 st' : SpawnState) :
  (length (particles st) < count)%nat ->
  (attempts st < maxAttempts count)%nat ->
  attempts st1 = S (attempts st) ->
  (length (particles st1) <= S (length (particles st)))%nat ->
  spawned st1 st' -> spawned st st'.
Proof.
  intros Hlen Hatt Ha Hl (H1 & H2 & H3 & H4).
  repeat split; lia.
Qed.

(** The loop returns as soon as the fuel exceeds the attempts left. *)
Lemma spawnLoop_terminates (fuel : nat) :
  forall (st : SpawnState) (k : nat),
    (maxAttempts count - attempts st < fuel)%nat ->
    exists st' k',
      spawnLoop rnd map windData0 windData width height count fuel st k
      = (Some st', k')
      /\ spawned st st'.
Proof.
  induction fuel as [|fuel IH]; intros st k Hfuel; [lia|].
  cbn [spawnLoop].
  destruct (Nat.ltb (length (particles st)) count) eqn:Hlen;
    [destruct (Nat.ltb (attempts st) (maxAttempts count)) eqn:Hatt|];
    cbn [andb].
  - apply Nat.ltb_lt in Hlen, Hatt.
    unfold bind, Math_random. cbn beta iota.
    assert (Hnext : forall st1 k1,
               attempts st1 = S (attempts st) ->
               (length (particles st1) <= S (length (particles st)))%nat ->
               exists st' k',
                 spawnLoop rnd map windData0 windData width height count
                           fuel st1 k1 = (Some st', k')
                 /\ spawned st st').
    { intros st1 k1 Ha Hl.
      destruct (IH st1 k1) as (st' & k' & E & Hs); [lia|].
      exists st', k'. split; [exact E|].
      now apply spawned_next with (st1 := st1). }
    destruct (unproject map _) as [lngLat|].
    + destruct (negb (isInSoutheastAsia _ _)).
      * apply Hnext; cbn [attempts particles]; lia.
      * apply Hnext; cbn [attempts particles]; [reflexivity|].
        rewrite length_app. cbn [length]. lia.
    + apply Hnext; cbn [attempts particles]; lia.
  - apply Nat.ltb_lt in Hlen. apply Nat.ltb_ge in Hatt.
    exists st, k. split; [reflexivity|]. repeat split; lia.
  - apply Nat.ltb_ge in Hlen.
    exists st, k. split; [reflexivity|]. repeat split; lia.
Qed.

End Loop.

(** C4.  For every requested count, [createWindParticles] returns once
    the loop has been allowed [count * 3] iterations and the closing test;
    it makes one attempt per iteration and at most [count * 3] attempts,
    never returns more than [count] particles, and returns fewer than
    [count] only with its budget of attempts exhausted (or at once, when
    there is no map or no wind data). *)
Theorem createWindParticles_terminates (rnd : nat -> number)
    (map_current : option MapLibre) (windData : list WindPoint)
    (width height : number) (count fuel k : nat) :
  (count * 3 < fuel)%nat ->
  exists st k',
    createWindParticles rnd map_current fuel windData width height count k
    = (Some st, k')
    /\ (attempts st <= count * 3)%nat
    /\ (length (particles st) <= count)%nat
    /\ ((length (particles st) < count)%nat ->
        attempts st = (count * 3)%nat \/ map_current = None \/ windData = []).
Proof.
  intros Hfuel. unfold createWindParticles.
  destruct map_current as [map|];
    [destruct windData as [|windData0 windData']|].
  - exists {| particles := []; attempts := 0 |}, k.
    cbn [particles attempts length]. repeat split; try lia. auto.
  - destruct (@spawnLoop_terminates rnd map windData0 (windData0 :: windData')
                width height count fuel {| particles := []; attempts := 0 |} k)
      as (st & k' & E & H1 & H2 & H3 & H4).
    { cbn [attempts]. unfold maxAttempts. lia. }
    cbn [attempts particles length] in *. unfold maxAttempts in *.
    exists st, k'. split; [exact E|].
    split; [apply H2; lia|]. split; [apply H3; lia|].
    intros Hlt. left. specialize (H4 Hlt). specialize (H2 (Nat.le_0_l _)). lia.
  - exists {| particles := []; attempts := 0 |}, k.
    cbn [particles attempts length]. repeat split; try lia. auto.
Qed.

(** Two runs for [count = 4].  On [demoMap] one candidate of five falls
    outside the region: the population is complete after 5 attempts.  On
    [farMap] no candidate is accepted: the budget of 12 attempts is spent
    and the population comes back empty. *)
Lemma createWindParticles_runs :
  (4 * 3 < 13)%nat
  /\ (exists st k',
        createWindParticles demoRnd (Some demoMap) 13%nat demoWind
                            (lit 600) (lit 450) 4%nat 0%nat
        = (Some st, k')
        /\ (attempts st <= 4 * 3)%nat
        /\ (length (particles st) <= 4)%nat
        /\ ((length (particles st) < 4)%nat ->
            attempts st = (4 * 3)%nat \/ Some demoMap = None \/ demoWind = []))
  /\ option_map (fun st => (length (particles st), attempts st))
       (fst (createWindParticles demoRnd (Some demoMap) 13%nat demoWind
                                 (lit 600) (lit 450) 4%nat 0%nat))
     = Some (4, 5)%nat
  /\ option_map (fun st => (length (particles st), attempts st))
       (fst (createWindParticles demoRnd (Some farMap) 13%nat demoWind
                                 (lit 600) (lit 450) 4%nat 0%nat))
     = Some (0, 12)%nat.
Proof.
  split; [lia|]. split.
  - apply (@createWindParticles_terminates demoRnd (Some demoMap) demoWind
             (lit 600) (lit 450) 4%nat 13%nat 0%nat). lia.
  - split; vm_compute; reflexivity.
Defined.

End Spawning.

(* ===================================================================== *)
(** ** The field sampler                                                  *)
(* ===================================================================== *)

Module Sampler.

Import MockWindData JSFacts Examples.

(** *** A scan that keeps the smallest key *)

(** All the nearest-sample scans of the sources have the same shape: a
    left-to-right pass that replaces the candidate whenever the key of the
    current sample is strictly below the best key so far.  [K] is the key
    compared, [kq] its rational value, [wrap] how the candidate is
    stored. *)
Section GenericScan.

Variable C : Type.
Variable wrap : WindPoint -> C.
Variable K : WindPoint -> number.
Variable kq : WindPoint -> Q.
Variable step : number * C -> WindPoint -> number * C.

Hypothesis step_eq :
  forall st p, step st p = if (K p <? fst st)%js then (K p, wrap p) else st.

(** [r] is the first sample of [field] with the smallest key. *)
Definition firstMin (field : list WindPoint) (r : WindPoint) : Prop :=
  exists pre post,
    field = pre ++ r :: post
    /\ (forall p, In p pre -> (kq r < kq p)%Q)
    /\ (forall p, In p post -> (kq r <= kq p)%Q).

Lemma firstMin_le (field : list WindPoint) (r : WindPoint) :
  firstMin field r -> forall p, In p field -> (kq r <= kq p)%Q.
Proof.
  intros (pre & post & -> & Hpre & Hpost) p Hin.
  apply in_app_or in Hin. destruct Hin as [Hin|[<-|Hin]].
  - apply Qlt_le_weak. now apply Hpre.
  - apply Qle_refl.
  - now apply Hpost.
Qed.

Lemma firstMin_in (field : list WindPoint) (r : WindPoint) :
  firstMin field r -> In r field.
Proof.
  intros (pre & post & -> & _). apply in_or_app. right. now left.
Qed.

(** The state after the scan, from the initial bound [B] and candidate
    [c0]: untouched when no key is below [B], else the first minimum. *)
Lemma scan_spec (B : number) (c0 : C) :
  B = PInf \/ (exists b, B = Fin b) ->
  forall field,
    Forall (fun p => K p = Fin (kq p)) field ->
    (fold_left step field (B, c0) = (B, c0)
     /\ forall p, In p field -> (K p <? B)%js = false)
    \/ (exists r,
          fold_left step field (B, c0) = (K r, wrap r)
          /\ firstMin field r
          /\ (K r <? B)%js = true).
Proof.
  intros HB field. induction field as [|p field IH] using rev_ind; intros Hfin.
  - left. split; [reflexivity|]. intros p [].
  - apply Forall_app in Hfin. destruct Hfin as [Hfin Hp].
    inversion Hp as [|? ? Kp _]; subst.
    rewrite fold_left_app. cbn [fold_left].
    destruct (IH Hfin) as [[-> Hall]|(r & -> & Hmin & HrB)]; rewrite step_eq; cbn [fst].
    + destruct (K p <? B)%js eqn:Hlt.
      * right. exists p. split; [reflexivity|]. split; [|exact Hlt].
        exists field, []. split; [reflexivity|]. split; [|intros q []].
        intros q Hq. specialize (Hall q Hq).
        rewrite Forall_forall in Hfin. rewrite (Hfin q Hq) in Hall.
        rewrite Kp in Hlt.
        destruct HB as [->|[b ->]]; [discriminate|].
        apply ltb_Fin in Hlt. apply ltb_Fin_false in Hall. lra.
      * left. split; [reflexivity|].
        intros q Hq. apply in_app_or in Hq. destruct Hq as [Hq|[<-|[]]]; auto.
    + assert (Kr : K r = Fin (kq r)).
      { rewrite Forall_forall in Hfin. apply Hfin. now apply firstMin_in. }
      right. rewrite Kp, Kr in *.
      destruct (Fin (kq p) <? Fin (kq r))%js eqn:Hlt.
      * apply ltb_Fin in Hlt.
        exists p. rewrite Kp. split; [reflexivity|]. split.
        -- exists field, []. split; [reflexivity|]. split; [|intros q []].
           intros q Hq. pose proof (firstMin_le Hmin q Hq). lra.
        -- destruct HB as [->|[b ->]]; [reflexivity|].
           apply ltb_Fin. apply ltb_Fin in HrB. lra.
      * apply ltb_Fin_false in Hlt.
        exists r. rewrite Kr. split; [reflexivity|]. split; [|exact HrB].
        destruct Hmin as (pre & post & -> & Hpre & Hpost).
        exists pre, (post ++ [p]). split; [now rewrite <- app_assoc|].
        split; [exact Hpre|].
        intros q Hq. apply in_app_or in Hq. destruct Hq as [Hq|[<-|[]]]; auto.
Qed.

End GenericScan.

(** *** Distances *)

Definition finitePoint (p : WindPoint) : Prop :=
  exists x y, position p = (Fin x, Fin y).

(** The squared Euclidean distance from [(a, b)] to the sample. *)
Definition sqDist (a b : Q) (p : WindPoint) : Q :=
  match position p with
  | (Fin x, Fin y) => (x - a) * (x - a) + (y - b) * (y - b)
  | _ => 0
  end.

(** The key compared by the scans of [map.tsx] and of the composite layer
    ([dx * dx + dy * dy]) ... *)
Definition squaredKey (lng lat : number) (point : WindPoint) : number :=
  let dx := (fst (position point) - lng)%js in
  let dy := (snd (position point) - lat)%js in
  (dx * dx + dy * dy)%js.

(** ... and by the scan of [mockWindData.ts]
    ([Math.sqrt (Math.pow (.., 2) + Math.pow (.., 2))]). *)
Definition rootKey (M : MathLib) (lng lat : number) (windPoint : WindPoint)
  : number :=
  Math_sqrt M
    (Math_pow (fst (position windPoint) - lng) 2
     + Math_pow (snd (position windPoint) - lat) 2)%js.

(** The rational value of [squaredKey], in lowest terms. *)
Definition sqKeyQ (a b : Q) (p : WindPoint) : Q :=
  match position p with
  | (Fin x, Fin y) =>
      Qred (Qred (Qred (x + Qred (- a)) * Qred (x + Qred (- a)))
            + Qred (Qred (y + Qred (- b)) * Qred (y + Qred (- b))))
  | _ => 0
  end.

Lemma sqKeyQ_sqDist (a b : Q) (p : WindPoint) : (sqKeyQ a b p == sqDist a b p)%Q.
Proof.
  unfold sqKeyQ, sqDist. destruct (position p) as [[x| | |] [y| | |]];
    try reflexivity.
  rewrite !Qred_correct. ring.
Qed.

Lemma sqKeyQ_canonical (a b : Q) (p q : WindPoint) :
  finitePoint p -> finitePoint q ->
  (sqDist a b p == sqDist a b q)%Q -> sqKeyQ a b p = sqKeyQ a b q.
Proof.
  intros (x & y & Hp) (x' & y' & Hq) H.
  rewrite <- !sqKeyQ_sqDist in H.
  unfold sqKeyQ in *. rewrite Hp, Hq in *.
  apply Qred_complete in H. now rewrite !Qred_idem in H.
Qed.

Lemma squaredKey_finite (a b : Q) (p : WindPoint) :
  finitePoint p -> squaredKey (Fin a) (Fin b) p = Fin (sqKeyQ a b p).
Proof.
  intros (x & y & Hp). unfold squaredKey, sqKeyQ. now rewrite Hp.
Qed.

Lemma rootKey_squaredKey (M : MathLib) (lng lat : number) (p : WindPoint) :
  rootKey M lng lat p = Math_sqrt M (squaredKey lng lat p).
Proof. reflexivity. Qed.

Lemma sqDist_nonneg (a b : Q) (p : WindPoint) : (0 <= sqDist a b p)%Q.
Proof.
  unfold sqDist. destruct (position p) as [[x| | |] [y| | |]]; try apply Qle_refl.
  pose proof (Qsquare_nonneg (x - a)). pose proof (Qsquare_nonneg (y - b)). lra.
Qed.

(** *** Coordinates within the binary64 range *)

(** Longitudes, latitudes and the like are of moderate size: when no
    coordinate exceeds [10^150] in magnitude, the sum of two squared
    differences stays below [Number.MAX_VALUE], in binary64 as well. *)
Definition coordMax : Q := inject_Z (10 ^ 150).

Definition moderate (q : Q) : Prop := (- coordMax <= q <= coordMax)%Q.

Definition moderatePoint (p : WindPoint) : Prop :=
  exists x y, position p = (Fin x, Fin y) /\ moderate x /\ moderate y.

Lemma moderatePoint_finite (p : WindPoint) : moderatePoint p -> finitePoint p.
Proof. intros (x & y & Hp & _). now exists x, y. Qed.

Lemma square_le (c d : Q) : (- c <= d <= c)%Q -> (d * d <= c * c)%Q.
Proof.
  intros H.
  assert (H0 : (0 <= (c - d) * (c + d))%Q) by (apply Qmult_le_0_compat; lra).
  lra.
Qed.

Lemma coordMax_in_range : (8 * (coordMax * coordMax) < MAX_VALUE_Q)%Q.
Proof. vm_compute. reflexivity. Qed.

Lemma sqDist_moderate (a b : Q) (p : WindPoint) :
  moderate a -> moderate b -> moderatePoint p ->
  (sqDist a b p < MAX_VALUE_Q)%Q.
Proof.
  intros Ha Hb (x & y & Hp & Hx & Hy).
  apply Qle_lt_trans with (8 * (coordMax * coordMax))%Q; [|exact coordMax_in_range].
  unfold sqDist. rewrite Hp. unfold moderate in *.
  generalize dependent coordMax. intros B Ha Hb Hx Hy.
  assert (H1 : ((x - a) * (x - a) <= (2 * B) * (2 * B))%Q) by (apply square_le; lra).
  assert (H2 : ((y - b) * (y - b) <= (2 * B) * (2 * B))%Q) by (apply square_le; lra).
  lra.
Qed.

(** *** What the scans need of [Math.sqrt] *)

(** [Math.sqrt] maps the numbers of [[0, Number.MAX_VALUE]] to
    numbers ... *)
Definition sqrtDefined (M : MathLib) : Prop :=
  forall x : Q, (0 <= x <= MAX_VALUE_Q)%Q ->
    exists r : Q, Math_sqrt M (Fin x) = Fin r.

(** ... and is accurate on them: the square of the result is the
    argument up to a relative error of [2^-51] and an absolute error of
    [2^-1000].  The correctly rounded square root of binary64 has this
    accuracy (a relative error of [2^-53] on the root, after one of
    [2^-53] on the argument, the absolute term covering the arguments
    below the smallest binary64 number); it is not strictly increasing,
    two neighbouring arguments having the same root. *)
Definition relErr : Q := Eval vm_compute in (1 # 2 ^ 51).
Definition absErr : Q := Eval vm_compute in (1 # 2 ^ 1000).

Definition sqrtAccurate (M : MathLib) : Prop :=
  forall x : Q, (0 <= x <= MAX_VALUE_Q)%Q ->
    exists r : Q,
      Math_sqrt M (Fin x) = Fin r /\ (0 <= r)%Q
      /\ (- (relErr * x + absErr) <= r * r - x <= relErr * x + absErr)%Q.

Lemma sqrtAccurate_defined (M : MathLib) : sqrtAccurate M -> sqrtDefined M.
Proof.
  intros H x Hx. destruct (H x Hx) as (r & E & _). now exists r.
Qed.

(** The interpolating stand-in is defined on the non-negative numbers. *)
Lemma sqrtInterp_defined : sqrtDefined demoMath.
Proof.
  intros x [Hx _]. cbn [Math_sqrt demoMath]. unfold sqrtInterp, fin.
  destruct (x ?= 0)%Q eqn:E; eauto.
  apply Qlt_alt in E. lra.
Qed.

(** The truncated square root is accurate. *)
Lemma sqrtFixed_value (x : Q) :
  (0 <= x)%Q ->
  sqrtFixed (Fin x)
  = Fin (Qred (inject_Z (Z.sqrt (Qfloor (x * inject_Z (sqrtScale * sqrtScale))))
               / inject_Z sqrtScale)).
Proof.
  intros Hx. unfold sqrtFixed, fin.
  destruct (x ?= 0)%Q eqn:E; try reflexivity.
  apply Qlt_alt in E. lra.
Qed.

Lemma truncated_root (T : Z) (x : Q) :
  (0 < T)%Z -> (0 <= x)%Q ->
  let r := (inject_Z (Z.sqrt (Qfloor (x * inject_Z (T * T)))) / inject_Z T)%Q in
  let u := (1 / inject_Z T)%Q in
  (0 <= r)%Q /\ (r * r <= x)%Q /\ (x < (r + u) * (r + u))%Q.
Proof.
  intros HT Hx r u.
  assert (Ht : (0 < inject_Z T)%Q).
  { change 0%Q with (inject_Z 0). now rewrite <- Zlt_Qlt. }
  set (t := inject_Z T) in *.
  assert (Htt : (inject_Z (T * T) == t * t)%Q)
    by (unfold t; rewrite inject_Z_mult; reflexivity).
  set (N := Qfloor (x * inject_Z (T * T))) in *.
  assert (HN : (0 <= N)%Z).
  { unfold N. rewrite <- (Qfloor_Z 0). apply Qfloor_resp_le.
    rewrite Htt. change (inject_Z 0) with 0%Q.
    apply Qmult_le_0_compat; [exact Hx|]. apply Qmult_le_0_compat; lra. }
  pose proof (Z.sqrt_spec N HN) as Hs. cbv zeta in Hs.
  pose proof (Z.sqrt_nonneg N) as Hk.
  set (k := Z.sqrt N) in *.
  assert (Hk0 : (0 <= inject_Z k)%Q).
  { change 0%Q with (inject_Z 0). now rewrite <- Zle_Qle. }
  assert (Hlo : (inject_Z k * inject_Z k <= x * (t * t))%Q).
  { rewrite <- Htt, <- inject_Z_mult.
    apply Qle_trans with (inject_Z N); [|apply Qfloor_le].
    rewrite <- Zle_Qle. lia. }
  assert (Hhi : (x * (t * t) < (inject_Z k + 1) * (inject_Z k + 1))%Q).
  { rewrite <- Htt.
    apply Qlt_le_trans with (inject_Z (N + 1)); [apply Qlt_floor|].
    change 1%Q with (inject_Z 1). rewrite <- inject_Z_plus, <- inject_Z_mult.
    rewrite <- Zle_Qle. unfold Z.succ in Hs. lia. }
  assert (Er : (r * t == inject_Z k)%Q).
  { unfold r. field. lra. }
  assert (Eu : ((r + u) * t == inject_Z k + 1)%Q).
  { unfold r, u. field. lra. }
  assert (Htt0 : (0 < t * t)%Q) by (apply Qmult_lt_0_compat; exact Ht).
  split; [|split].
  - unfold r. apply Qle_shift_div_l; [exact Ht|]. lra.
  - apply Qmult_le_r with (z := (t * t)%Q); [exact Htt0|].
    setoid_replace (r * r * (t * t))%Q with ((r * t) * (r * t))%Q by ring.
    rewrite Er. exact Hlo.
  - apply Qmult_lt_r with (z := (t * t)%Q); [exact Htt0|].
    setoid_replace ((r + u) * (r + u) * (t * t))%Q
      with (((r + u) * t) * ((r + u) * t))%Q by ring.
    rewrite Eu. exact Hhi.
Qed.

Lemma sqrtScale_pos : (0 < sqrtScale)%Z.
Proof. reflexivity. Qed.

Lemma sqrtScale_fine :
  let u := (1 / inject_Z sqrtScale)%Q in
  (0 < u)%Q /\ (u <= 1)%Q /\ (2 * u <= relErr)%Q /\ (3 * u <= absErr)%Q.
Proof.
  cbv zeta. repeat split; vm_compute; congruence.
Qed.

Lemma sqrtFixed_accurate : sqrtAccurate accurateMath.
Proof.
  intros x [Hx _]. cbn [Math_sqrt accurateMath].
  rewrite (sqrtFixed_value Hx).
  eexists. split; [reflexivity|].
  destruct (truncated_root sqrtScale_pos Hx) as (Hr & Hlo & Hhi).
  destruct sqrtScale_fine as (Hu0 & Hu1 & Hu2 & Hu3).
  cbv zeta in *. rewrite !Qred_correct.
  set (r := (inject_Z (Z.sqrt (Qfloor (x * inject_Z (sqrtScale * sqrtScale))))
             / inject_Z sqrtScale)%Q) in *.
  set (u := (1 / inject_Z sqrtScale)%Q) in *.
  clearbody r u.
  generalize dependent relErr. generalize dependent absErr. intros eta Hu3 eps Hu2.
  split; [exact Hr|].
  assert (Hux : (0 <= u * x)%Q) by (apply Qmult_le_0_compat; lra).
  assert (Huu : (u * u <= u)%Q).
  { assert (H : (0 <= u * (1 - u))%Q) by (apply Qmult_le_0_compat; lra). lra. }
  assert (Hxe : (0 <= (eps - 2 * u) * x)%Q) by (apply Qmult_le_0_compat; lra).
  destruct (Qlt_le_dec r 1) as [Hr1|Hr1].
  - assert (Hru : (r * u <= u)%Q).
    { assert (H : (0 <= (1 - r) * u)%Q) by (apply Qmult_le_0_compat; lra). lra. }
    lra.
  - assert (Hrr : (r <= r * r)%Q).
    { assert (H : (0 <= r * (r - 1))%Q) by (apply Qmult_le_0_compat; lra). lra. }
    assert (Hru : (r * u <= x * u)%Q).
    { assert (H : (0 <= (x - r) * u)%Q) by (apply Qmult_le_0_compat; lra). lra. }
    lra.
Qed.

(** The binary64 square root meets the bound on a sample of arguments:
    zero, the smallest and the largest binary64 numbers, arguments whose
    root is rounded, integer squares and their neighbours. *)
Definition accurateAt (M : MathLib) (x : Q) : bool :=
  match Math_sqrt M (Fin x) with
  | Fin r =>
      Qle_bool 0 r
      && Qle_bool (- (relErr * x + absErr)) (r * r - x)
      && Qle_bool (r * r - x) (relErr * x + absErr)
  | _ => false
  end.

Lemma binary64_sqrt_sample :
  forallb (accurateAt binary64Math)
    [0; 1 # 2 ^ 1074; 1 # 2 ^ 1022; 1 # 3; 2; 25; 25 + (1 # 2 ^ 48); 5000;
     5041.0000000000009; inject_Z (2 ^ 48 - 1);
     inject_Z 4503599761588226; MAX_VALUE_Q]%Q
  = true.
Proof. vm_compute. reflexivity. Qed.

(** *** The three scans *)

(** [r] is the first sample of [field] nearest to [(a, b)] in exact
    arithmetic: strictly nearer than every sample before it, and at
    least as near as every sample after it. *)
Definition firstNearest (a b : Q) (field : list WindPoint) (r : WindPoint) : Prop :=
  firstMin (sqDist a b) field r.

(** [r] is a sample of [field] nearest to [(a, b)] up to the rounding of
    the keys: no sample is nearer by more than a relative [2^-48] and an
    absolute [2^-990] of the squared distance. *)
Definition relSlack : Q := Eval vm_compute in (1 # 2 ^ 48).
Definition absSlack : Q := Eval vm_compute in (1 # 2 ^ 990).

Definition nearest (a b : Q) (field : list WindPoint) (r : WindPoint) : Prop :=
  In r field
  /\ forall p, In p field ->
       (sqDist a b r <= (1 + relSlack) * sqDist a b p + absSlack)%Q.

(** The two samples sit at the same place. *)
Definition samePlace (p q : WindPoint) : Prop :=
  exists x y x' y',
    position p = (Fin x, Fin y) /\ position q = (Fin x', Fin y')
    /\ (x == x')%Q /\ (y == y')%Q.

(** No sample before [r] in the field sits at the place of [r]: of the
    samples of one place the scan returns the first. *)
Definition firstThere (field : list WindPoint) (r : WindPoint) : Prop :=
  exists pre post,
    field = pre ++ r :: post /\ forall p, In p pre -> ~ samePlace p r.

(** The sample sits at [(a, b)]. *)
Definition atPosition (a b : Q) (p : WindPoint) : Prop :=
  exists x y, position p = (Fin x, Fin y) /\ (x == a)%Q /\ (y == b)%Q.

(** What a scan returns for the query point [(a, b)]. *)
Definition nearestSpec (a b : Q) (field : list WindPoint) (r : WindPoint) : Prop :=
  nearest a b field r
  /\ firstThere field r
  /\ (Exists (atPosition a b) field -> (sqDist a b r <= absSlack)%Q).

Lemma samePlace_sqDist (a b : Q) (p q : WindPoint) :
  samePlace p q -> (sqDist a b p == sqDist a b q)%Q.
Proof.
  intros (x & y & x' & y' & Hp & Hq & Hx & Hy).
  unfold sqDist. rewrite Hp, Hq, Hx, Hy. reflexivity.
Qed.

Lemma samePlace_finite (p q : WindPoint) :
  samePlace p q -> finitePoint p /\ finitePoint q.
Proof.
  intros (x & y & x' & y' & Hp & Hq & _). split; eexists; eexists; eassumption.
Qed.

Lemma atPosition_sqDist (a b : Q) (p : WindPoint) :
  atPosition a b p -> (sqDist a b p == 0)%Q.
Proof.
  intros (x & y & Hp & Hx & Hy). unfold sqDist. rewrite Hp, Hx, Hy. ring.
Qed.

Lemma slack_nonneg : (0 <= relSlack)%Q /\ (0 <= absSlack)%Q.
Proof. split; discriminate. Qed.

(** A first minimum of a key that follows the squared distance closely
    enough is what [nearestSpec] asks for. *)
Lemma firstMin_nearestSpec (kq : WindPoint -> Q) (a b : Q)
    (field : list WindPoint) (r : WindPoint) :
  (forall p q, In p field -> In q field -> (kq p <= kq q)%Q ->
     (sqDist a b p <= (1 + relSlack) * sqDist a b q + absSlack)%Q) ->
  (forall p q, samePlace p q -> (kq p == kq q)%Q) ->
  firstMin kq field r -> nearestSpec a b field r.
Proof.
  intros Hle Hsame Hmin.
  pose proof (firstMin_in Hmin) as Hin.
  assert (Hnear : nearest a b field r).
  { split; [exact Hin|]. intros p Hp. apply Hle; auto.
    now apply (firstMin_le Hmin). }
  split; [exact Hnear|]. split.
  - destruct Hmin as (pre & post & E & Hpre & _).
    exists pre, post. split; [exact E|].
    intros p Hp Hs. specialize (Hpre p Hp). apply Hsame in Hs. lra.
  - intros Hex. apply Exists_exists in Hex. destruct Hex as (p & Hp & Hat).
    destruct Hnear as [_ Hnear]. specialize (Hnear p Hp).
    rewrite (atPosition_sqDist Hat) in Hnear. lra.
Qed.

Lemma nonempty_in {A} (l : list A) : l <> [] -> exists x, In x l.
Proof.
  destruct l as [|x l]; [congruence|]. intros _. exists x. now left.
Qed.

Section Scans.

Variables a b : Q.
Variable field : list WindPoint.
Hypothesis a_moderate : moderate a.
Hypothesis b_moderate : moderate b.
Hypothesis field_moderate : Forall moderatePoint field.
Hypothesis field_nonempty : field <> [].

Lemma field_finite : Forall finitePoint field.
Proof.
  eapply Forall_impl; [|exact field_moderate]. exact moderatePoint_finite.
Qed.

Lemma squaredKey_all :
  Forall (fun p => squaredKey (Fin a) (Fin b) p = Fin (sqKeyQ a b p)) field.
Proof.
  eapply Forall_impl; [|exact field_finite].
  intros p Hp. now apply squaredKey_finite.
Qed.

Lemma sqKeyQ_in_range (p : WindPoint) :
  In p field -> (0 <= sqKeyQ a b p < MAX_VALUE_Q)%Q.
Proof.
  intros Hin. rewrite sqKeyQ_sqDist. split; [apply sqDist_nonneg|].
  apply sqDist_moderate; auto.
  pose proof field_moderate as H. rewrite Forall_forall in H. now apply H.
Qed.

Lemma squaredKey_below (p : WindPoint) :
  In p field -> (squaredKey (Fin a) (Fin b) p <? MAX_VALUE)%js = true.
Proof.
  intros Hin. pose proof squaredKey_all as Hall. rewrite Forall_forall in Hall.
  rewrite (Hall p Hin). unfold MAX_VALUE. apply ltb_Fin.
  now apply sqKeyQ_in_range.
Qed.

Lemma sqKeyQ_nearestSpec (r : WindPoint) :
  firstMin (sqKeyQ a b) field r -> nearestSpec a b field r.
Proof.
  apply firstMin_nearestSpec.
  - intros p q _ _. rewrite !sqKeyQ_sqDist. intros H.
    pose proof (sqDist_nonneg a b q) as H0.
    destruct slack_nonneg as [H1 H2].
    assert (H3 : (0 <= relSlack * sqDist a b q)%Q) by (apply Qmult_le_0_compat; assumption).
    lra.
  - intros p q Hs. rewrite !sqKeyQ_sqDist. now apply samePlace_sqDist.
Qed.

(** [map.tsx]. *)
Lemma canvas_closestScan (windData0 : WindPoint) :
  exists r,
    CanvasMap.closestScan windData0 field (Fin a) (Fin b)
    = (squaredKey (Fin a) (Fin b) r, r)
    /\ firstMin (sqKeyQ a b) field r.
Proof.
  unfold CanvasMap.closestScan.
  destruct (@scan_spec WindPoint (fun p => p) (squaredKey (Fin a) (Fin b))
              (sqKeyQ a b) (CanvasMap.scanStep (Fin a) (Fin b))
              (fun st p => eq_refl) MAX_VALUE windData0
              (or_intror (ex_intro _ MAX_VALUE_Q eq_refl)) field squaredKey_all)
    as [[_ Hall]|(r & E & Hmin & _)].
  - destruct (nonempty_in field_nonempty) as (p & Hin).
    pose proof (squaredKey_below p Hin) as Hlt.
    rewrite (Hall p Hin) in Hlt. discriminate.
  - exists r. split; [exact E|exact Hmin].
Qed.

(** The composite layer. *)
Lemma layer_closestScan :
  exists r,
    WindParticleLayer.closestScan field (Fin a) (Fin b)
    = (squaredKey (Fin a) (Fin b) r, Some r)
    /\ firstMin (sqKeyQ a b) field r.
Proof.
  unfold WindParticleLayer.closestScan.
  destruct (@scan_spec (option WindPoint) Some (squaredKey (Fin a) (Fin b))
              (sqKeyQ a b) (WindParticleLayer.scanStep (Fin a) (Fin b))
              (fun st p => eq_refl) MAX_VALUE (hd_error field)
              (or_intror (ex_intro _ MAX_VALUE_Q eq_refl)) field squaredKey_all)
    as [[_ Hall]|(r & E & Hmin & _)].
  - destruct (nonempty_in field_nonempty) as (p & Hin).
    pose proof (squaredKey_below p Hin) as Hlt.
    rewrite (Hall p Hin) in Hlt. discriminate.
  - exists r. split; [exact E|exact Hmin].
Qed.

(** [mockWindData.ts]: the key is the root of the squared distance. *)
Section Root.

Variable M : MathLib.
Hypothesis sqrt_defined : sqrtDefined M.

Definition rootQ (p : WindPoint) : Q :=
  match Math_sqrt M (Fin (sqKeyQ a b p)) with
  | Fin r => r
  | _ => 0
  end.

Lemma rootKey_all :
  Forall (fun p => rootKey M (Fin a) (Fin b) p = Fin (rootQ p)) field.
Proof.
  apply Forall_forall. intros p Hin.
  pose proof field_finite as Hfin. rewrite Forall_forall in Hfin.
  rewrite rootKey_squaredKey, (squaredKey_finite _ _ (Hfin p Hin)).
  unfold rootQ.
  destruct (sqrt_defined (x := sqKeyQ a b p)) as (r & ->); [|reflexivity].
  pose proof (sqKeyQ_in_range p Hin). lra.
Qed.

Lemma mock_closestScan :
  exists r,
    MockWindData.closestScan M field {| lng := Fin a; lat := Fin b |}
    = (rootKey M (Fin a) (Fin b) r, Some r)
    /\ firstMin rootQ field r.
Proof.
  unfold MockWindData.closestScan.
  destruct (@scan_spec (option WindPoint) Some (rootKey M (Fin a) (Fin b))
              rootQ (MockWindData.scanStep M {| lng := Fin a; lat := Fin b |})
              (fun st p => eq_refl) Infinity None
              (or_introl eq_refl) field rootKey_all)
    as [[_ Hall]|(r & E & Hmin & _)].
  - exfalso. destruct (nonempty_in field_nonempty) as [p Hin].
    pose proof rootKey_all as Hk. rewrite Forall_forall in Hk.
    specialize (Hall p Hin). rewrite (Hk p Hin) in Hall. discriminate.
  - exists r. split; [exact E|exact Hmin].
Qed.

Hypothesis sqrt_accurate : sqrtAccurate M.

(** Of two samples the one with the smaller root is the nearer, up to
    the accuracy of the root. *)
Lemma rootQ_le (p q : WindPoint) :
  In p field -> In q field -> (rootQ p <= rootQ q)%Q ->
  (sqDist a b p <= (1 + relSlack) * sqDist a b q + absSlack)%Q.
Proof.
  intros Hp Hq. unfold rootQ. rewrite <- !sqKeyQ_sqDist.
  pose proof (sqKeyQ_in_range p Hp) as Hkp.
  pose proof (sqKeyQ_in_range q Hq) as Hkq.
  destruct (sqrt_accurate (x := sqKeyQ a b p)) as (rp & -> & Hrp & Hap); [lra|].
  destruct (sqrt_accurate (x := sqKeyQ a b q)) as (rq & -> & Hrq & Haq); [lra|].
  intros Hle.
  assert (Hsq : (rp * rp <= rq * rq)%Q).
  { assert (H1 : (0 <= (rq - rp) * (rq + rp))%Q) by (apply Qmult_le_0_compat; lra).
    lra. }
  destruct Hkp as [Hkp _]. destruct Hkq as [Hkq _].
  revert Hap Haq. generalize (sqKeyQ a b p) (sqKeyQ a b q) Hkp Hkq.
  intros kp kq' Hkp' Hkq' Hap Haq.
  unfold relErr, absErr, relSlack, absSlack in *. lra.
Qed.

Lemma rootQ_nearestSpec (r : WindPoint) :
  firstMin rootQ field r -> nearestSpec a b field r.
Proof.
  apply firstMin_nearestSpec.
  - exact rootQ_le.
  - intros p q Hs. unfold rootQ.
    destruct (samePlace_finite Hs) as [Hp Hq].
    rewrite (@sqKeyQ_canonical a b p q Hp Hq (samePlace_sqDist a b Hs)). reflexivity.
Qed.

End Root.

End Scans.

(** *** The lookup *)

(** C3, as the code has it.  For a field that is not empty, of samples
    whose coordinates are numbers of moderate size, and a query point of
    moderate size ([Math.sqrt] being accurate): each of the three scans
    returns a sample of the field that is nearest to the query point up
    to the rounding of the keys, the first of the samples at its place;
    when a sample sits at the query point, the sample returned is within
    the rounding of it.  The scans of the canvas map and of the composite
    layer compare the squared distances, the scan of [mockWindData.ts]
    compares their square roots. *)
Theorem nearest_sample_lookup (M : MathLib) (a b : Q) (field : list WindPoint) :
  sqrtAccurate M ->
  field <> [] ->
  Forall moderatePoint field ->
  moderate a -> moderate b ->
  (forall windData0, exists r,
      CanvasMap.closestScan windData0 field (Fin a) (Fin b)
      = (squaredKey (Fin a) (Fin b) r, r)
      /\ nearestSpec a b field r)
  /\ (exists r,
        WindParticleLayer.closestScan field (Fin a) (Fin b)
        = (squaredKey (Fin a) (Fin b) r, Some r)
        /\ nearestSpec a b field r)
  /\ (exists r,
        MockWindData.closestScan M field {| lng := Fin a; lat := Fin b |}
        = (Math_sqrt M (squaredKey (Fin a) (Fin b) r), Some r)
        /\ nearestSpec a b field r).
Proof.
  intros Hsqrt Hne Hfield Ha Hb. split; [|split].
  - intros windData0.
    destruct (@canvas_closestScan a b field Ha Hb Hfield Hne windData0)
      as (r & E & Hmin).
    exists r. split; [exact E|]. now apply sqKeyQ_nearestSpec.
  - destruct (@layer_closestScan a b field Ha Hb Hfield Hne) as (r & E & Hmin).
    exists r. split; [exact E|]. now apply sqKeyQ_nearestSpec.
  - destruct (@mock_closestScan a b field Ha Hb Hfield Hne M
                (sqrtAccurate_defined Hsqrt)) as (r & E & Hmin).
    exists r. split; [exact E|].
    now apply (@rootQ_nearestSpec a b field Ha Hb Hfield M).
Qed.

Lemma demoWind_moderate : Forall moderatePoint demoWind.
Proof.
  repeat constructor; eexists; eexists;
    (split; [reflexivity|split; split; vm_compute; congruence]).
Qed.

(** The query point [(110, 5)] is at the same distance from the first
    two samples of [demoWind]; the first one is returned. *)
Lemma nearest_sample_lookup_run :
  snd (CanvasMap.closestScan (windSample demoMath (lit 130) (lit 20))
         demoWind (lit 110) (lit 5))
  = windSample demoMath (lit 100) (lit 10)
  /\ snd (MockWindData.closestScan accurateMath demoWind
            {| lng := lit 110; lat := lit 5 |})
     = Some (windSample demoMath (lit 100) (lit 10))
  /\ (forall windData0, exists r,
      CanvasMap.closestScan windData0 demoWind (Fin 110) (Fin 5)
      = (squaredKey (Fin 110) (Fin 5) r, r)
      /\ nearestSpec 110 5 demoWind r)
  /\ (exists r,
        WindParticleLayer.closestScan demoWind (Fin 110) (Fin 5)
        = (squaredKey (Fin 110) (Fin 5) r, Some r)
        /\ nearestSpec 110 5 demoWind r)
  /\ (exists r,
        MockWindData.closestScan accurateMath demoWind
          {| lng := Fin 110; lat := Fin 5 |}
        = (Math_sqrt accurateMath (squaredKey (Fin 110) (Fin 5) r), Some r)
        /\ nearestSpec 110 5 demoWind r).
Proof.
  split; [vm_compute; reflexivity|]. split; [vm_compute; reflexivity|].
  apply (@nearest_sample_lookup accurateMath 110 5 demoWind sqrtFixed_accurate).
  - discriminate.
  - exact demoWind_moderate.
  - split; vm_compute; congruence.
  - split; vm_compute; congruence.
Defined.

(** The claim as the specification words it fails three times.  The scan
    of [mockWindData.ts] does take a square root: for the sample at
    [(3, 4)] and the query point [(0, 0)] the distance it records is [5],
    not the squared distance [25].  The scans that start from
    [Number.MAX_VALUE] miss the nearest sample when every squared distance
    exceeds that bound: of two samples at [2e155] and [1.5e155] degrees
    the first is returned, though the second is strictly nearer.  And the
    rounding of the keys lets a sample that is strictly farther win: the
    binary64 square roots of [25 + 2^-48] and of [25] are both [5], so of
    the samples at [(5, 2^-24)] and [(5, 0)], in this order, the scan of
    [mockWindData.ts] keeps the first for the query point [(0, 0)]. *)
Lemma nearest_sample_lookup_fails :
  (fst (MockWindData.closestScan binary64Math [sample34]
          {| lng := lit 0; lat := lit 0 |}) = lit 5
   /\ squaredKey (lit 0) (lit 0) sample34 = lit 25)
  /\ (snd (CanvasMap.closestScan farSample [farSample; lessFarSample]
             (lit 0) (lit 0)) = farSample
      /\ (sqDist 0 0 lessFarSample < sqDist 0 0 farSample)%Q
      /\ ~ firstNearest 0 0 [farSample; lessFarSample] farSample)
  /\ (MockWindData.closestScan binary64Math [sampleBeyond5; sampleAt5]
        {| lng := lit 0; lat := lit 0 |} = (lit 5, Some sampleBeyond5)
      /\ rootKey binary64Math (lit 0) (lit 0) sampleAt5 = lit 5
      /\ (sqDist 0 0 sampleAt5 < sqDist 0 0 sampleBeyond5)%Q
      /\ ~ firstNearest 0 0 [sampleBeyond5; sampleAt5] sampleBeyond5).
Proof.
  assert (Hfar : forall p q : WindPoint,
            (sqDist 0 0 q < sqDist 0 0 p)%Q -> ~ firstNearest 0 0 [p; q] p).
  { intros p q Hlt H. pose proof (firstMin_le H q) as Hle.
    apply Qlt_not_le in Hlt. apply Hlt, Hle. right. now left. }
  split; [split; vm_compute; reflexivity|]. split.
  - split; [vm_compute; reflexivity|].
    assert (Hlt : (sqDist 0 0 lessFarSample < sqDist 0 0 farSample)%Q).
    { vm_compute. reflexivity. }
    split; [exact Hlt|]. now apply Hfar.
  - split; [vm_compute; reflexivity|]. split; [vm_compute; reflexivity|].
    assert (Hlt : (sqDist 0 0 sampleAt5 < sqDist 0 0 sampleBeyond5)%Q).
    { vm_compute. reflexivity. }
    split; [exact Hlt|]. now apply Hfar.
Qed.

End Sampler.

(* ===================================================================== *)
(** ** The particle-state texture                                         *)
(* ===================================================================== *)

Module ParticleTexture.

Import JSFacts Examples Sampler.
Import WebGLWindLayer.











End ParticleTexture.

(* ===================================================================== *)
(** ** The wind field and the viewport                                   *)
(* ===================================================================== *)

Module GridFacts.

Import MockWindData JSFacts Examples FieldSynthesis.

Lemma windSample_position (M : MathLib) (lon lat : number) :
  position (windSample M lon lat) = (lon, lat).
Proof. unfold windSample. destruct (lat >? lit 14.0)%js; reflexivity. Qed.

(** Every sample emitted on finite bounds is the sample of a cell with
    finite coordinates. *)
Lemma emitted_samples (M : MathLib) (G : WindPoint -> Prop) (fuel : nat)
    (bounds : Bounds) (density : number) (field : list WindPoint) :
  (forall lon lat : Q, G (windSample M (Fin lon) (Fin lat))) ->
  finiteBounds bounds ->
  generateMockWindData M fuel bounds density = Some field ->
  Forall G field.
Proof.
  intros HG (Hw & Hs & He & Hn) H.
  destruct bounds as [w s e n]. cbn [west south east north] in *.
  destruct w as [w| | |], s as [s| | |], e as [e| | |], n as [n| | |];
    try discriminate.
  clear Hw Hs He Hn.
  unfold generateMockWindData in H. cbn [west south east north] in H.
  set (d := Math_min density (lit 30)) in H.
  eapply latLoop_Forall with (J := sane ((Fin n - Fin s) / d)%js (Fin n)).
  4: exact H.
  2: apply sane_start.
  2: constructor.
  cbn [west south east north].
  intros lat HJ Hlat.
  destruct (sane_step HJ Hlat) as [[la ->] HJ'].
  split; [exact HJ'|].
  intros fuel' st r Hst Hr.
  eapply lonLoop_Forall with (I := sane ((Fin e - Fin w) / d)%js (Fin e)).
  4: exact Hr.
  2: apply sane_start.
  2: exact Hst.
  cbn [west south east north].
  intros lon HI Hlon.
  destruct (sane_step HI Hlon) as [[lo ->] HI'].
  split; [|exact HI'].
  apply HG.
Qed.

(** The grid step over an interval that is not reversed is a number, and
    not negative. *)
Lemma gridStep_nonneg (lo hi d : Q) :
  (lo <= hi)%Q -> (0 < d)%Q ->
  exists step : Q,
    ((Fin hi - Fin lo) / Math_min (Fin d) (lit 30))%js = Fin step
    /\ (0 <= step)%Q.
Proof.
  intros Hlen Hd.
  assert (Hmin : exists d', Math_min (Fin d) (lit 30) = Fin d' /\ (0 < d')%Q).
  { unfold Math_min, lit. destruct (Fin d <=? Fin 30)%js.
    - exists d. split; [reflexivity|lra].
    - exists 30%Q. split; [reflexivity|lra]. }
  destruct Hmin as (d' & -> & Hd0).
  rewrite sub_Fin. cbn [div].
  destruct (d' ?= 0)%Q eqn:E.
  - apply Qeq_alt in E. lra.
  - apply Qlt_alt in E. lra.
  - unfold fin. eexists. split; [reflexivity|].
    rewrite !Qred_correct.
    apply Qle_shift_div_l; lra.
Qed.

(** The position of the sample is [(lon, lat)], a point of the rectangle
    [[w, e] x [s, n]]. *)
Definition within (w s e n : Q) (p : WindPoint) : Prop :=
  exists lon lat : Q,
    position p = (Fin lon, Fin lat)
    /\ (w <= lon <= e)%Q /\ (s <= lat <= n)%Q.

(** The loop variable is a number not below [lo]. *)
Definition from (lo : Q) (x : number) : Prop :=
  exists q : Q, x = Fin q /\ (lo <= q)%Q.

Lemma from_step (lo hi d : Q) (x : number) :
  (0 < d)%Q -> from lo x -> (x <=? Fin hi)%js = true ->
  exists q : Q,
    x = Fin q /\ (lo <= q <= hi)%Q
    /\ from lo (x + (Fin hi - Fin lo) / Math_min (Fin d) (lit 30))%js.
Proof.
  intros Hd (q & -> & Hq) Hle. apply leb_Fin in Hle.
  exists q. split; [reflexivity|]. split; [lra|].
  destruct (@gridStep_nonneg lo hi d) as (step & -> & Hstep); [lra|exact Hd|].
  rewrite add_Fin. eexists. split; [reflexivity|].
  rewrite Qred_correct. lra.
Qed.

(** X1.  On bounds given by four numbers and for a positive density,
    every sample emitted by [generateMockWindData] sits at a grid point
    [(lon, lat)] of the rectangle the bounds describe:
    [west <= lon <= east] and [south <= lat <= north]. *)
Theorem generateMockWindData_within_bounds (M : MathLib) (fuel : nat)
    (w s e n d : Q) (field : list WindPoint) :
  (0 < d)%Q ->
  generateMockWindData M fuel
    {| west := Fin w; south := Fin s; east := Fin e; north := Fin n |} (Fin d)
  = Some field ->
  Forall (within w s e n) field.
Proof.
  intros Hd H.
  unfold generateMockWindData in H. cbn [west south east north] in H.
  eapply latLoop_Forall with (J := from s).
  4: exact H.
  2: exists s; split; [reflexivity|lra].
  2: constructor.
  cbn [west south east north].
  intros lat HJ Hlat.
  destruct (@from_step s n d lat Hd HJ Hlat) as (la & -> & Hla & HJ').
  split; [exact HJ'|].
  intros fuel' st r Hst Hr.
  eapply lonLoop_Forall with (I := from w).
  4: exact Hr.
  2: exists w; split; [reflexivity|lra].
  2: exact Hst.
  cbn [west south east north].
  intros lon HI Hlon.
  destruct (@from_step w e d lon Hd HI Hlon) as (lo & -> & Hlo & HI').
  split; [|exact HI'].
  exists lo, la. split; [apply windSample_position|]. split; assumption.
Qed.

Lemma generateMockWindData_within_bounds_run :
  Forall (within 92 (-11) 141 28.5) regionField.
Proof.
  refine (@generateMockWindData_within_bounds demoMath 600 92 (-11) 141 28.5 15
            regionField _ _).
  - reflexivity.
  - vm_compute. reflexivity.
Defined.

End GridFacts.

Module MapView.

Import MockWindData JSFacts Examples FieldSynthesis GridFacts.
Import CanvasMap.

Lemma Math_max_Fin (x y : Q) :
  exists m : Q,
    Math_max (Fin x) (Fin y) = Fin m
    /\ (x <= m)%Q /\ (y <= m)%Q
    /\ ((y <= x)%Q -> (m == x)%Q) /\ ((x <= y)%Q -> (m == y)%Q).
Proof.
  unfold Math_max. destruct (Fin x <=? Fin y)%js eqn:E.
  - apply leb_Fin in E. exists y. repeat split; lra.
  - apply leb_Fin_false in E. exists x. repeat split; lra.
Qed.

Lemma Math_min_Fin (x y : Q) :
  exists m : Q,
    Math_min (Fin x) (Fin y) = Fin m
    /\ (m <= x)%Q /\ (m <= y)%Q
    /\ ((x <= y)%Q -> (m == x)%Q) /\ ((y <= x)%Q -> (m == y)%Q).
Proof.
  unfold Math_min. destruct (Fin x <=? Fin y)%js eqn:E.
  - apply leb_Fin in E. exists x. repeat split; lra.
  - apply leb_Fin_false in E. exists y. repeat split; lra.
Qed.

(** The viewport reported by the map, as four numbers. *)
Definition viewport (vw vs ve vn : Q) : LngLatBounds :=
  {| getWest := Fin vw; getSouth := Fin vs; getEast := Fin ve; getNorth := Fin vn |}.

(** X2.  [updateMapBounds] intersects the viewport with the region of
    interest: the new bounds lie inside [SOUTHEAST_ASIA_BOUNDS] and
    inside the viewport, a side of the viewport that is within the region
    is kept as it is and a side beyond it is replaced by the side of the
    region, and while there is no map the reference is left unchanged. *)
Theorem updateMapBounds_clamps (vw vs ve vn : Q) (mapBoundsRef : Bounds) :
  (exists w s e n : Q,
     updateMapBounds (Some (viewport vw vs ve vn)) mapBoundsRef
     = {| west := Fin w; south := Fin s; east := Fin e; north := Fin n |}
     /\ (92 <= w /\ -11 <= s /\ e <= 141 /\ n <= 28.5)%Q
     /\ (vw <= w /\ vs <= s /\ e <= ve /\ n <= vn)%Q
     /\ ((92 <= vw)%Q -> (w == vw)%Q) /\ ((vw <= 92)%Q -> (w == 92)%Q)
     /\ ((-11 <= vs)%Q -> (s == vs)%Q) /\ ((vs <= -11)%Q -> (s == -11)%Q)
     /\ ((ve <= 141)%Q -> (e == ve)%Q) /\ ((141 <= ve)%Q -> (e == 141)%Q)
     /\ ((vn <= 28.5)%Q -> (n == vn)%Q) /\ ((28.5 <= vn)%Q -> (n == 28.5)%Q))
  /\ updateMapBounds None mapBoundsRef = mapBoundsRef.
Proof.
  split; [|reflexivity].
  unfold updateMapBounds, viewport, SOUTHEAST_ASIA_BOUNDS, lit.
  cbn [getWest getSouth getEast getNorth west south east north].
  destruct (Math_max_Fin vw 92) as (w & -> & Hw1 & Hw2 & Hw3 & Hw4).
  destruct (Math_max_Fin vs (-11)) as (s & -> & Hs1 & Hs2 & Hs3 & Hs4).
  destruct (Math_min_Fin ve 141) as (e & -> & He1 & He2 & He3 & He4).
  destruct (Math_min_Fin vn 28.5) as (n & -> & Hn1 & Hn2 & Hn3 & Hn4).
  exists w, s, e, n. split; [reflexivity|].
  repeat split; auto.
Qed.

(** The sample lies in the region of interest. *)
Definition inRegion (p : WindPoint) : Prop :=
  isInSoutheastAsia (fst (position p)) (snd (position p)) = true.

Lemma within_inRegion (w s e n : Q) (p : WindPoint) :
  (92 <= w)%Q -> (-11 <= s)%Q -> (e <= 141)%Q -> (n <= 28.5)%Q ->
  within w s e n p -> inRegion p.
Proof.
  intros Hw Hs He Hn (lon & lat & Hp & Hlon & Hlat).
  unfold inRegion, isInSoutheastAsia, SOUTHEAST_ASIA_BOUNDS, lit, geb.
  rewrite Hp. cbn [fst snd west south east north].
  rewrite !andb_true_iff, !leb_Fin. repeat split; lra.
Qed.

(** The viewport meets the region in a rectangle of positive extent. *)
Definition overlaps (vw vs ve vn : Q) : Prop :=
  (vw < ve /\ vw < 141 /\ 92 < ve)%Q /\ (vs < vn /\ vs < 28.5 /\ -11 < vn)%Q.

(** X3.  When the map has moved, [onMoveEnd] empties the population,
    stores the viewport clamped to the region, and regenerates the wind
    field over it at density 15: every sample of the new field lies in
    the region of interest.  The handler returns whenever the viewport
    meets the region in a rectangle of positive extent; without a map it
    changes nothing. *)
Theorem onMoveEnd_resets (M : MathLib) (fuel : nat) (vw vs ve vn : Q) (r : Refs) :
  (forall r' : Refs,
     onMoveEnd M fuel (Some (viewport vw vs ve vn)) r = Some r' ->
     particlesRef r' = []
     /\ mapBoundsRef r'
        = updateMapBounds (Some (viewport vw vs ve vn)) (mapBoundsRef r)
     /\ generateMockWindData M fuel (mapBoundsRef r') (lit 15)
        = Some (windDataRef r')
     /\ Forall inRegion (windDataRef r'))
  /\ (overlaps vw vs ve vn -> (64 <= fuel)%nat ->
      exists r' : Refs,
        onMoveEnd M fuel (Some (viewport vw vs ve vn)) r = Some r')
  /\ onMoveEnd M fuel None r = Some r.
Proof.
  split; [|split; [|reflexivity]].
  - intros r'. unfold onMoveEnd.
    destruct (updateMapBounds_clamps vw vs ve vn (mapBoundsRef r))
      as [(w & s & e & n & -> & (Hw & Hs & He & Hn) & _) _].
    destruct (generateMockWindData M fuel _ (lit 15)) as [field|] eqn:E;
      [|discriminate].
    intros H. injection H as <-. cbn [particlesRef mapBoundsRef windDataRef].
    split; [reflexivity|]. split; [reflexivity|]. split; [exact E|].
    apply (@generateMockWindData_within_bounds M fuel w s e n 15 field) in E; [|lra].
    revert E. apply Forall_impl. intros p. now apply within_inRegion.
  - intros [(H1 & H2 & H3) (H4 & H5 & H6)] Hfuel. unfold onMoveEnd.
    destruct (updateMapBounds_clamps vw vs ve vn (mapBoundsRef r))
      as [(w & s & e & n & -> & _ & _
           & Hw1 & Hw2 & Hs1 & Hs2 & He1 & He2 & Hn1 & Hn2) _].
    destruct (@generateMockWindData_returns M fuel
                {| west := Fin w; south := Fin s; east := Fin e; north := Fin n |}
                (lit 15)) as [field ->]; [|exact Hfuel|eauto].
    exists w, s, e, n, 15. split; [reflexivity|]. split; [reflexivity|].
    assert (Hwe : (w < e)%Q).
    { destruct (Qlt_le_dec vw 92), (Qlt_le_dec ve 141);
        try (rewrite Hw1 by lra); try (rewrite Hw2 by lra);
        try (rewrite He1 by lra); try (rewrite He2 by lra); lra. }
    assert (Hsn : (s < n)%Q).
    { destruct (Qlt_le_dec vs (-11)), (Qlt_le_dec vn 28.5);
        try (rewrite Hs1 by lra); try (rewrite Hs2 by lra);
        try (rewrite Hn1 by lra); try (rewrite Hn2 by lra); lra. }
    split; [exact Hwe|]. split; [exact Hsn|lra].
Qed.

(** A viewport that reaches beyond the region to the west and to the
    north, and the references after the map was moved there. *)
Definition startRefs : Refs :=
  {| mapBoundsRef := SOUTHEAST_ASIA_BOUNDS; windDataRef := []; particlesRef := [] |}.

Definition movedRefs : Refs :=
  match onMoveEnd demoMath 600 (Some (viewport 80 0 130 40)) startRefs with
  | Some r => r
  | None => startRefs
  end.

Lemma onMoveEnd_resets_run :
  mapBoundsRef movedRefs
  = {| west := lit 92; south := lit 0; east := lit 130; north := lit 28.5 |}
  /\ length (windDataRef movedRefs) = 256%nat
  /\ particlesRef movedRefs = []
  /\ Forall inRegion (windDataRef movedRefs).
Proof.
  split; [vm_compute; reflexivity|]. split; [vm_compute; reflexivity|].
  assert (E : onMoveEnd demoMath 600 (Some (viewport 80 0 130 40)) startRefs
              = Some movedRefs) by (vm_compute; reflexivity).
  destruct (proj1 (@onMoveEnd_resets demoMath 600 80 0 130 40 startRefs)
              movedRefs E) as (H1 & _ & _ & H4).
  split; [exact H1|exact H4].
Defined.

End MapView.

Module DegenerateBounds.

Import MockWindData JSFacts Examples FieldSynthesis GridFacts.

Lemma Qred_zero (q : Q) : (q == 0)%Q -> Qred q = 0%Q.
Proof. intros H. now apply (Qred_complete q 0). Qed.

(** The grid step over an interval of length zero is zero, whatever the
    density, provided it is a number other than zero. *)
Lemma zero_step (lo hi d : Q) :
  (lo == hi)%Q -> ~ (d == 0)%Q ->
  ((Fin hi - Fin lo) / Math_min (Fin d) (lit 30))%js = Fin 0.
Proof.
  intros Heq Hd.
  assert (Hmin : exists d', Math_min (Fin d) (lit 30) = Fin d' /\ ~ (d' == 0)%Q).
  { unfold Math_min, lit. destruct (Fin d <=? Fin 30)%js.
    - exists d. now split.
    - exists 30%Q. split; [reflexivity|discriminate]. }
  destruct Hmin as (d' & -> & Hd').
  rewrite sub_Fin. rewrite (Qred_zero (q := hi + Qred (- lo))).
  2: { rewrite Qred_correct, Heq. ring. }
  cbn [div]. destruct (d' ?= 0)%Q eqn:E.
  - apply Qeq_alt in E. contradiction.
  - reflexivity.
  - reflexivity.
Qed.

Lemma add_zero (q : Q) : exists q' : Q, (Fin q + Fin 0)%js = Fin q' /\ (q' == q)%Q.
Proof.
  rewrite add_Fin. eexists. split; [reflexivity|]. rewrite Qred_correct. ring.
Qed.

(** X23.  On bounds of zero height whose longitudes are reversed
    ([east < west], [south = north]) and for a density other than zero,
    [generateMockWindData] never returns: no sample is ever pushed, so
    that the cap is never struck, and the latitude never advances.  No
    amount of fuel yields a result. *)
Theorem generateMockWindData_hangs (M : MathLib) (fuel : nat) (w s e n d : Q) :
  (e < w)%Q -> (s == n)%Q -> ~ (d == 0)%Q ->
  generateMockWindData M fuel
    {| west := Fin w; south := Fin s; east := Fin e; north := Fin n |} (Fin d)
  = None.
Proof.
  intros Hwe Hsn Hd. unfold generateMockWindData.
  cbn [west south east north].
  rewrite (zero_step (lo := s) (hi := n) Hsn Hd).
  generalize ((Fin e - Fin w) / Math_min (Fin d) (lit 30))%js. intros lonStep.
  generalize {| windData := []; pointCount := 0 |}.
  assert (Hgen : forall fuel0 q st,
             (q == s)%Q ->
             latLoop M {| west := Fin w; south := Fin s; east := Fin e; north := Fin n |}
                     lonStep (Fin 0) fuel0 (Fin q) st = None).
  { induction fuel0 as [|fuel0 IH]; intros q st Hq; [reflexivity|].
    cbn [latLoop north west].
    rewrite (proj2 (leb_Fin q n)) by lra.
    destruct fuel0 as [|fuel1]; [reflexivity|].
    cbn [lonLoop east].
    rewrite (proj2 (leb_Fin_false w e)) by lra.
    destruct (add_zero q) as (q' & -> & Hq').
    apply IH. lra. }
  intros st. apply Hgen. reflexivity.
Qed.

Lemma generateMockWindData_hangs_run :
  generateMockWindData demoMath 1000 reversedBounds (lit 15) = None.
Proof.
  apply (@generateMockWindData_hangs demoMath 1000 92 5 41 5 15).
  - reflexivity.
  - reflexivity.
  - discriminate.
Defined.

(** The sample sits on the meridian [w], at latitude [s]. *)
Definition onMeridian (w s : Q) (p : WindPoint) : Prop :=
  exists lon : Q, position p = (Fin lon, Fin s) /\ (lon == w)%Q.

Lemma lonLoop_zero_step (M : MathLib) (bounds : Bounds) (w e s : Q) :
  east bounds = Fin e -> (w == e)%Q ->
  forall (k fuel : nat) (q : Q) (st : GenState),
    (q == w)%Q ->
    (pointCount st + k = safetyLimit)%nat ->
    (k < fuel)%nat ->
    exists st' : GenState,
      lonLoop M bounds (Fin 0) fuel (Fin s) (Fin q) st = Some (Return st')
      /\ length (windData st') = (length (windData st) + k)%nat
      /\ (Forall (onMeridian w s) (windData st) ->
          Forall (onMeridian w s) (windData st')).
Proof.
  intros Heast Hwe.
  induction k as [|k IH]; intros fuel q st Hq Hcount Hfuel;
    (destruct fuel as [|fuel]; [lia|]); cbn [lonLoop]; rewrite Heast;
    rewrite (proj2 (leb_Fin q e)) by lra.
  - rewrite (proj2 (Nat.leb_le _ _)) by lia.
    exists st. split; [reflexivity|]. split; [lia|auto].
  - rewrite (proj2 (Nat.leb_gt _ _)) by lia.
    destruct (add_zero q) as (q' & -> & Hq').
    destruct (IH fuel q'
                {| windData := windData st ++ [windSample M (Fin q) (Fin s)];
                   pointCount := S (pointCount st) |})
      as (st' & E & Hlen & Hall); [lra|cbn [pointCount]; lia|lia|].
    exists st'. split; [exact E|]. cbn [windData] in *. split.
    + rewrite Hlen, length_app. cbn [length]. lia.
    + intros Hst. apply Hall. apply Forall_app. split; [exact Hst|].
      constructor; [|constructor].
      exists q. split; [apply windSample_position|exact Hq].
Qed.

(** X24.  On bounds of zero width ([west = east], [south <= north]) and
    for a density other than zero, [generateMockWindData] returns 500
    samples, all of them at the longitude [west] on the first row
    ([south]): the longitude never advances, and only the cap ends the
    inner loop. *)
Theorem generateMockWindData_zero_width (M : MathLib) (fuel : nat)
    (w s e n d : Q) :
  (w == e)%Q -> (s <= n)%Q -> ~ (d == 0)%Q -> (502 <= fuel)%nat ->
  exists field : list WindPoint,
    generateMockWindData M fuel
      {| west := Fin w; south := Fin s; east := Fin e; north := Fin n |} (Fin d)
    = Some field
    /\ length field = 500%nat
    /\ Forall (onMeridian w s) field.
Proof.
  intros Hwe Hsn Hd Hfuel. unfold generateMockWindData.
  cbn [west south east north].
  rewrite (zero_step (lo := w) (hi := e) Hwe Hd).
  destruct fuel as [|fuel]; [lia|]. cbn [latLoop north west].
  rewrite (proj2 (leb_Fin s n)) by exact Hsn.
  destruct (@lonLoop_zero_step M
              {| west := Fin w; south := Fin s; east := Fin e; north := Fin n |}
              w e s eq_refl Hwe 500 fuel w {| windData := []; pointCount := 0 |})
    as (st' & -> & Hlen & Hall); [reflexivity|reflexivity|lia|].
  exists (windData st'). split; [reflexivity|]. split; [exact Hlen|].
  apply Hall. constructor.
Qed.

Lemma generateMockWindData_zero_width_run :
  exists field : list WindPoint,
    generateMockWindData demoMath 502
      {| west := lit 100; south := lit 0; east := lit 100; north := lit 20 |} (lit 15)
    = Some field
    /\ length field = 500%nat
    /\ Forall (onMeridian 100 0) field.
Proof.
  apply (@generateMockWindData_zero_width demoMath 502 100 0 100 20 15).
  - reflexivity.
  - lra.
  - discriminate.
  - lia.
Defined.

End DegenerateBounds.

(* ===================================================================== *)
(** ** The particle populations: what a spawn and a step guarantee       *)
(* ===================================================================== *)

Module Populations.

Import MockWindData JSFacts Examples Advection Sampler.

(** [Math.random()] returns a number of [[0, 1)]. *)
Definition unitRandom (rnd : nat -> number) : Prop :=
  forall k : nat, exists r : Q, rnd k = Fin r /\ (0 <= r < 1)%Q.

Lemma demoRnd_unit : unitRandom demoRnd.
Proof.
  intros k. unfold demoRnd. eexists. split; [reflexivity|].
  pose proof (Z.mod_pos_bound (Z.of_nat k * 37) 100 eq_refl) as [H0 H1].
  set (m := (Z.of_nat k * 37 mod 100)%Z) in *.
  split.
  - apply Qle_shift_div_l; [reflexivity|].
    rewrite Qmult_0_l. change 0%Q with (inject_Z 0). now rewrite <- Zle_Qle.
  - apply Qlt_shift_div_r; [reflexivity|].
    rewrite Qmult_1_l. change 100%Q with (inject_Z 100). now rewrite <- Zlt_Qlt.
Qed.

(** A life span drawn as [lo + Math.random() * lo], and an age within
    it. *)
Definition lifetime (lo : Q) (age maxAge : number) : Prop :=
  exists a m : Q,
    age = Fin a /\ maxAge = Fin m /\ (lo <= m < 2 * lo)%Q /\ (0 <= a < m)%Q.

(** The direction is that of a sample of the field, and the speed its
    speed times [factor]. *)
Definition drawnFrom (windData : list WindPoint) (factor : Q)
    (speed direction : number) : Prop :=
  exists c : WindPoint,
    In c windData
    /\ speed = (MockWindData.speed c * Fin factor)%js
    /\ direction = MockWindData.direction c.

(** [lo + r * span] for [r] in [[0, 1)]. *)
Lemma scaled (r lo span : Q) :
  (0 <= r < 1)%Q -> (0 <= span)%Q ->
  exists q : Q,
    (Fin lo + Fin r * Fin span)%js = Fin q /\ (lo <= q <= lo + span)%Q
    /\ ((0 < span)%Q -> (q < lo + span)%Q).
Proof.
  intros Hr Hspan. autorewrite with js. eexists. split; [reflexivity|].
  rewrite !Qred_correct.
  assert (H0 : (0 <= r * span)%Q) by (apply Qmult_le_0_compat; lra).
  assert (H1 : (0 <= (1 - r) * span)%Q) by (apply Qmult_le_0_compat; lra).
  split; [lra|]. intros Hpos.
  assert (H2 : (0 < (1 - r) * span)%Q) by (apply Qmult_lt_0_compat; lra).
  lra.
Qed.

Lemma scaled0 (r span : Q) :
  (0 <= r < 1)%Q -> (0 <= span)%Q ->
  exists q : Q, (Fin r * Fin span)%js = Fin q /\ (0 <= q <= span)%Q
                /\ ((0 < span)%Q -> (q < span)%Q).
Proof.
  intros Hr Hspan. autorewrite with js. eexists. split; [reflexivity|].
  rewrite !Qred_correct.
  assert (H0 : (0 <= r * span)%Q) by (apply Qmult_le_0_compat; lra).
  assert (H1 : (0 <= (1 - r) * span)%Q) by (apply Qmult_le_0_compat; lra).
  split; [lra|]. intros Hpos.
  assert (H2 : (0 < (1 - r) * span)%Q) by (apply Qmult_lt_0_compat; lra).
  lra.
Qed.

Lemma Forall2_right {A B} (P : B -> Prop) (xs : list A) (ys : list B) :
  Forall2 (fun _ y => P y) xs ys -> Forall P ys.
Proof. induction 1; constructor; assumption. Qed.

End Populations.

Module CanonicalPopulation.

Import MockWindData JSFacts Examples Advection Sampler Populations.
Import MockWindData.WindParticle.

Lemma canonical_scan_in (M : MathLib) (windData : list WindPoint) (lngLat : LngLat)
    (c : WindPoint) :
  snd (closestScan M windData lngLat) = Some c -> In c windData.
Proof.
  unfold closestScan.
  assert (Hgen : forall l st,
             snd (fold_left (scanStep M lngLat) l st) = Some c ->
             snd st = Some c \/ In c l).
  { induction l as [|p l IH]; intros st H; [now left|].
    cbn [fold_left] in H. apply IH in H. destruct H as [H|H].
    - unfold scanStep in H. destruct (_ <? _)%js.
      + cbn [snd] in H. injection H as <-. right. now left.
      + now left.
    - right. now right. }
  intros H. apply Hgen in H. destruct H as [H|H]; [discriminate|exact H].
Qed.

(** The map unprojects every pixel of a canvas of size [w x h] to a
    longitude and a latitude of moderate size. *)
Definition moderateProjection (map : MapWithProjection) (w h : Q) : Prop :=
  forall qx qy : Q, (0 <= qx <= w)%Q -> (0 <= qy <= h)%Q ->
    exists a b : Q,
      unproject map (Fin qx, Fin qy) = {| lng := Fin a; lat := Fin b |}
      /\ moderate a /\ moderate b.

(** The pixel drawn for a new particle is on the canvas. *)
Lemma pixel_on_canvas (rnd : nat -> number) (w h : Q) (k : nat) :
  unitRandom rnd -> (0 <= w)%Q -> (0 <= h)%Q ->
  exists qx qy : Q,
    (rnd k * Fin w)%js = Fin qx /\ (rnd (S k) * Fin h)%js = Fin qy
    /\ (0 <= qx <= w)%Q /\ (0 <= qy <= h)%Q.
Proof.
  intros Hrnd Hw Hh.
  destruct (Hrnd k) as (r1 & -> & Hr1). destruct (Hrnd (S k)) as (r2 & -> & Hr2).
  destruct (@scaled0 r1 w Hr1 Hw) as (qx & -> & Hx & _).
  destruct (@scaled0 r2 h Hr2 Hh) as (qy & -> & Hy & _).
  exists qx, qy. repeat split; try reflexivity; lra.
Qed.

(** The particle is on a canvas of size [w x h]. *)
Definition onCanvas (w h : Q) (p : WindParticle.t) : Prop :=
  exists qx qy : Q,
    x p = Fin qx /\ y p = Fin qy /\ (0 <= qx <= w)%Q /\ (0 <= qy <= h)%Q.

(** What a particle just spawned satisfies. *)
Definition fresh (windData : list WindPoint) (w h : Q) (p : WindParticle.t) : Prop :=
  lifetime 50 (age p) (maxAge p)
  /\ drawnFrom windData 1.5 (speed p) (direction p)
  /\ onCanvas w h p.

Section Spawn.

Variable M : MathLib.
Variable rnd : nat -> number.
Variable map : MapWithProjection.
Variable windData : list WindPoint.
Variables w h : Q.

Hypothesis rnd_unit : unitRandom rnd.
Hypothesis w_nonneg : (0 <= w)%Q.
Hypothesis h_nonneg : (0 <= h)%Q.

Lemma spawnOne_fresh (particles : list WindParticle.t) (k : nat) :
  Forall (fresh windData w h) particles ->
  let ps := fst (spawnOne M rnd map windData (Fin w) (Fin h) particles k) in
  Forall (fresh windData w h) ps
  /\ (length ps <= S (length particles))%nat
  /\ (snd (closestScan M windData
             (unproject map ((rnd k * Fin w)%js, (rnd (S k) * Fin h)%js))) <> None ->
      length ps = S (length particles)).
Proof.
  intros Hps. unfold spawnOne, bind, ret, Math_random. cbn beta iota zeta.
  destruct (snd (closestScan M windData _)) as [c|] eqn:Hscan; cbn [fst].
  - split; [|split].
    + apply Forall_app. split; [exact Hps|]. constructor; [|constructor].
      destruct (rnd_unit k) as (r1 & E1 & Hr1).
      destruct (rnd_unit (S k)) as (r2 & E2 & Hr2).
      destruct (rnd_unit (S (S k))) as (r3 & E3 & Hr3).
      destruct (rnd_unit (S (S (S k)))) as (r4 & E4 & Hr4).
      unfold fresh. cbn [age maxAge speed direction].
      split; [|split].
      * rewrite E3, E4. unfold lit.
        destruct (@scaled r3 50 50 Hr3) as (m & -> & Hm & Hm'); [lra|].
        destruct (@scaled0 r4 m Hr4) as (a & -> & Ha & Ha'); [lra|].
        exists a, m. repeat split; try reflexivity; lra.
      * exists c. split; [|split; reflexivity].
        eapply canonical_scan_in. exact Hscan.
      * unfold onCanvas. cbn [x y]. rewrite E1, E2.
        destruct (@scaled0 r1 w Hr1 w_nonneg) as (qx & -> & Hx & _).
        destruct (@scaled0 r2 h Hr2 h_nonneg) as (qy & -> & Hy & _).
        exists qx, qy. repeat split; try reflexivity; lra.
    + rewrite length_app. cbn [length]. lia.
    + intros _. rewrite length_app. cbn [length]. lia.
  - split; [exact Hps|]. split; [lia|]. intros H. now elim H.
Qed.

Lemma canonical_spawnLoop_fresh (n : nat) :
  forall (particles : list WindParticle.t) (k : nat),
    Forall (fresh windData w h) particles ->
    let ps := fst (spawnLoop M rnd map windData (Fin w) (Fin h) n particles k) in
    Forall (fresh windData w h) ps
    /\ (length ps <= length particles + n)%nat
    /\ ((forall qx qy : Q, (0 <= qx <= w)%Q -> (0 <= qy <= h)%Q ->
           snd (closestScan M windData (unproject map (Fin qx, Fin qy))) <> None) ->
        length ps = (length particles + n)%nat).
Proof.
  induction n as [|n IH]; intros particles k Hps.
  - cbn. split; [exact Hps|]. split; lia.
  - cbn [spawnLoop]. unfold bind.
    pose proof (spawnOne_fresh k Hps) as (H1 & H2 & H3).
    destruct (spawnOne M rnd map windData (Fin w) (Fin h) particles k)
      as [particles' k1].
    cbn [fst] in *.
    destruct (IH particles' k1 H1) as (H4 & H5 & H6).
    split; [exact H4|]. split; [lia|].
    intros Hall. rewrite (H6 Hall), H3; [lia|].
    destruct (@pixel_on_canvas rnd w h k rnd_unit w_nonneg h_nonneg)
      as (qx & qy & -> & -> & Hx & Hy).
    now apply Hall.
Qed.

End Spawn.

(** On a field that is not empty the scan finds a sample for every
    pixel of the canvas: the first key is a number, below [Infinity]. *)
Lemma scan_found (M : MathLib) (map : MapWithProjection)
    (windData : list WindPoint) (w h : Q) :
  sqrtDefined M -> moderateProjection map w h ->
  Forall moderatePoint windData -> windData <> [] ->
  forall qx qy : Q, (0 <= qx <= w)%Q -> (0 <= qy <= h)%Q ->
    snd (closestScan M windData (unproject map (Fin qx, Fin qy))) <> None.
Proof.
  intros Hsqrt Hmap Hfield Hne qx qy Hx Hy.
  destruct (Hmap qx qy Hx Hy) as (a & b & -> & Ha & Hb).
  destruct (@mock_closestScan a b windData Ha Hb Hfield Hne M Hsqrt) as (r & -> & _).
  discriminate.
Qed.

(** X4.  With [Math.random()] in [[0, 1)] and a canvas of size
    [w x h], [generateWindParticles] returns at most [count] particles,
    each on the canvas, with a life span [maxAge] in [[50, 100)], an age
    in [[0, maxAge)], the direction of a sample of the field and 1.5 times
    its speed.  On an empty field it returns no particle; on a field that
    is not empty, of samples whose coordinates are numbers of moderate
    size, it returns exactly [count] particles (the map unprojecting the
    pixels of the canvas to coordinates of moderate size, and [Math.sqrt]
    returning a number for the numbers up to [Number.MAX_VALUE]). *)
Theorem generateWindParticles_fresh (M : MathLib) (rnd : nat -> number)
    (map : MapWithProjection) (windData : list WindPoint) (w h : Q)
    (count k : nat) :
  unitRandom rnd -> (0 <= w)%Q -> (0 <= h)%Q ->
  let ps := fst (generateWindParticles M rnd map windData (Fin w) (Fin h) count k) in
  (length ps <= count)%nat
  /\ Forall (fresh windData w h) ps
  /\ (windData = [] -> ps = [])
  /\ (sqrtDefined M -> moderateProjection map w h ->
      Forall moderatePoint windData -> windData <> [] ->
      length ps = count).
Proof.
  intros Hrnd Hw Hh. unfold generateWindParticles.
  destruct (@canonical_spawnLoop_fresh M rnd map windData w h Hrnd Hw Hh count [] k)
    as (H1 & H2 & H3); [constructor|].
  cbn [length] in *. cbn zeta.
  split; [lia|]. split; [exact H1|]. split.
  - intros ->. destruct H1 as [|p ps [_ [(c & [] & _) _]] _]; reflexivity.
  - intros Hsqrt Hmap Hfield Hne. rewrite H3; [lia|].
    now apply scan_found.
Qed.

(** A map showing ten pixels per degree, from longitude 90 and latitude
    30 at the top left corner. *)
Definition pixelMap : MapWithProjection :=
  {| unproject := fun p =>
       match p with
       | (Fin px, Fin py) =>
           {| lng := Fin (90 + px / 10); lat := Fin (30 - py / 10) |}
       | _ => {| lng := Fin 90; lat := Fin 30 |}
       end |}.

Lemma moderate_small (q : Q) : (-1000 <= q <= 1000)%Q -> moderate q.
Proof.
  intros [H1 H2]. split.
  - apply Qle_trans with (-1000)%Q; [|exact H1]. vm_compute. congruence.
  - apply Qle_trans with 1000%Q; [exact H2|]. vm_compute. congruence.
Qed.

Lemma pixelMap_moderate : moderateProjection pixelMap 600 450.
Proof.
  intros qx qy Hx Hy. cbn [unproject pixelMap]. eexists. eexists.
  split; [reflexivity|].
  unfold Qdiv. change (/ 10)%Q with (1 # 10)%Q.
  split; apply moderate_small; lra.
Qed.

Lemma generateWindParticles_fresh_run :
  length (fst (generateWindParticles demoMath demoRnd pixelMap demoWind
                 (lit 600) (lit 450) 5%nat 0%nat)) = 5%nat
  /\ Forall (fresh demoWind 600 450)
       (fst (generateWindParticles demoMath demoRnd pixelMap demoWind
               (lit 600) (lit 450) 5%nat 0%nat)).
Proof.
  destruct (@generateWindParticles_fresh demoMath demoRnd pixelMap demoWind
              600 450 5%nat 0%nat demoRnd_unit)
    as (_ & H2 & _ & H4); [lra|lra|].
  split; [|exact H2].
  apply H4.
  - exact sqrtInterp_defined.
  - exact pixelMap_moderate.
  - exact demoWind_moderate.
  - discriminate.
Defined.

(** The test that makes [updateWindParticles] recycle a particle. *)
Definition due (width height : number) (p : WindParticle.t) : bool :=
  ((age p >=? maxAge p) || (x p <? lit 0) || (x p >? width)
   || (y p <? lit 0) || (y p >? height))%js.

(** The particle moved and aged by one frame. *)
Definition moved (M : MathLib) (p : WindParticle.t) : WindParticle.t :=
  {| x := (x p + Math_cos M (direction p) * speed p * lit 2)%js;
     y := (y p + Math_sin M (direction p) * speed p * lit 2)%js;
     age := (age p + lit 1)%js;
     maxAge := maxAge p;
     speed := speed p;
     direction := direction p |}.

Lemma updateOne_cases (M : MathLib) (rnd : nat -> number)
    (map : MapWithProjection) (windData : list WindPoint) (w h : Q)
    (p : WindParticle.t) (k : nat) :
  unitRandom rnd -> (0 <= w)%Q -> (0 <= h)%Q ->
  let p' := fst (updateOne M rnd map windData (Fin w) (Fin h) p k) in
  (due (Fin w) (Fin h) (moved M p) = false /\ p' = moved M p)
  \/ (due (Fin w) (Fin h) (moved M p) = true
      /\ snd (closestScan M windData
                (unproject map ((rnd k * Fin w)%js, (rnd (S k) * Fin h)%js))) = None
      /\ p' = moved M p)
  \/ (due (Fin w) (Fin h) (moved M p) = true
      /\ age p' = lit 0
      /\ (exists m : Q, maxAge p' = Fin m /\ (50 <= m < 100)%Q)
      /\ drawnFrom windData 1.5 (speed p') (direction p')
      /\ onCanvas w h p').
Proof.
  intros Hrnd Hw Hh. unfold updateOne. fold (moved M p).
  change ((age (moved M p) >=? maxAge (moved M p))
          || (x (moved M p) <? lit 0) || (x (moved M p) >? Fin w)
          || (y (moved M p) <? lit 0) || (y (moved M p) >? Fin h))%js
    with (due (Fin w) (Fin h) (moved M p)).
  destruct (due (Fin w) (Fin h) (moved M p)) eqn:Hdue.
  - unfold bind, ret, Math_random. cbn beta iota zeta.
    destruct (snd (closestScan M windData _)) as [c|] eqn:Hscan; cbn [fst].
    + right. right. split; [reflexivity|]. cbn [age maxAge speed direction].
      destruct (Hrnd k) as (r1 & E1 & Hr1).
      destruct (Hrnd (S k)) as (r2 & E2 & Hr2).
      destruct (Hrnd (S (S k))) as (r3 & E3 & Hr3).
      split; [reflexivity|]. split; [|split].
      * rewrite E3. unfold lit.
        destruct (@scaled r3 50 50 Hr3) as (m & -> & Hm & Hm'); [lra|].
        exists m. split; [reflexivity|]. split; [lra|]. 
        assert (m < 50 + 50)%Q by (apply Hm'; lra). lra.
      * exists c. split; [|split; reflexivity]. eapply canonical_scan_in. exact Hscan.
      * unfold onCanvas. cbn [x y]. rewrite E1, E2.
        destruct (@scaled0 r1 w Hr1 Hw) as (qx & -> & Hx & _).
        destruct (@scaled0 r2 h Hr2 Hh) as (qy & -> & Hy & _).
        exists qx, qy. repeat split; try reflexivity; lra.
    + right. left. split; [reflexivity|]. split; reflexivity.
  - left. split; reflexivity.
Qed.

(** X5.  After a step of [updateWindParticles] over a field that is
    not empty, of samples whose coordinates are numbers of moderate size,
    no particle of the result meets the recycling test: none has reached
    its [maxAge], none is off the canvas on any side.  (A particle that
    met the test after its move was replaced by a new one of age 0 on the
    canvas; the map unprojects the pixels of the canvas to coordinates of
    moderate size, and [Math.sqrt] returns a number for the numbers up to
    [Number.MAX_VALUE], so that the scan finds a sample.) *)
Theorem updateWindParticles_settles (M : MathLib) (rnd : nat -> number)
    (map : MapWithProjection) (particles : list WindParticle.t)
    (windData : list WindPoint) (w h : Q) (k : nat) :
  unitRandom rnd -> (0 <= w)%Q -> (0 <= h)%Q ->
  sqrtDefined M -> moderateProjection map w h ->
  Forall moderatePoint windData -> windData <> [] ->
  Forall (fun p' => due (Fin w) (Fin h) p' = false)
    (fst (updateWindParticles M rnd map particles windData (Fin w) (Fin h) k)).
Proof.
  intros Hrnd Hw Hh Hsqrt Hmap Hfield Hne.
  unfold updateWindParticles.
  apply Forall2_right with (xs := particles).
  apply mapM_Forall2. intros p k'.
  destruct (@updateOne_cases M rnd map windData w h p k' Hrnd Hw Hh)
    as [[Hd ->]|[(_ & Hnone & _)|(_ & Hage & (m & Hm & Hm') & _ & Hon)]].
  - exact Hd.
  - exfalso. revert Hnone.
    destruct (@pixel_on_canvas rnd w h k' Hrnd Hw Hh) as (qx & qy & -> & -> & Hx & Hy).
    now apply (@scan_found M map windData w h).
  - destruct Hon as (qx & qy & Ex & Ey & Hx & Hy).
    unfold due, geb, gtb, lit in *. rewrite Hage, Hm, Ex, Ey.
    rewrite !orb_false_iff. repeat split.
    + apply leb_Fin_false. lra.
    + apply ltb_Fin_false. lra.
    + apply ltb_Fin_false. lra.
    + apply ltb_Fin_false. lra.
    + apply ltb_Fin_false. lra.
Qed.

(** A particle at the end of its life, and one that has just left the
    canvas by its right edge. *)
Definition oldParticle : WindParticle.t :=
  {| x := lit 300; y := lit 200; age := lit 79; maxAge := lit 80;
     speed := lit 0.9; direction := lit 0 |}.

Definition strayParticle : WindParticle.t :=
  {| x := lit 599.5; y := lit 200; age := lit 3; maxAge := lit 80;
     speed := lit 0.9; direction := lit 0 |}.

Lemma updateWindParticles_settles_run :
  due (lit 600) (lit 450) (moved demoMath oldParticle) = true
  /\ due (lit 600) (lit 450) (moved demoMath strayParticle) = true
  /\ Forall (fun p' => due (lit 600) (lit 450) p' = false)
       (fst (updateWindParticles demoMath demoRnd pixelMap
               [oldParticle; strayParticle] demoWind (lit 600) (lit 450) 0%nat)).
Proof.
  split; [vm_compute; reflexivity|]. split; [vm_compute; reflexivity|].
  apply (@updateWindParticles_settles demoMath demoRnd pixelMap
           [oldParticle; strayParticle] demoWind 600 450 0%nat demoRnd_unit).
  - lra.
  - lra.
  - exact sqrtInterp_defined.
  - exact pixelMap_moderate.
  - exact demoWind_moderate.
  - discriminate.
Defined.

(** X6.  On an empty field nothing is ever spawned or recycled:
    [generateWindParticles] returns no particle whatever the count, and
    [updateWindParticles] returns every particle moved and aged by one
    frame, also past its [maxAge] and off the canvas. *)
Theorem empty_field_never_recycles (M : MathLib) (rnd : nat -> number)
    (map : MapWithProjection) (particles : list WindParticle.t)
    (width height : number) (count k : nat) :
  fst (generateWindParticles M rnd map [] width height count k) = []
  /\ fst (updateWindParticles M rnd map particles [] width height k)
     = List.map (moved M) particles.
Proof.
  split.
  - unfold generateWindParticles. generalize k.
    induction count as [|n IH]; intros k0; [reflexivity|].
    cbn [spawnLoop]. unfold bind, spawnOne, Math_random, ret.
    cbn beta iota zeta. apply IH.
  - unfold updateWindParticles. generalize k.
    induction particles as [|p ps IH]; intros k0; [reflexivity|].
    cbn [mapM List.map]. unfold bind at 1.
    assert (Hp : forall k1, fst (updateOne M rnd map [] width height p k1) = moved M p).
    { intros k1. unfold updateOne. fold (moved M p).
      destruct (_ || _); [|reflexivity].
      unfold bind, ret, Math_random. reflexivity. }
    specialize (Hp k0).
    destruct (updateOne M rnd map [] width height p k0) as [p' k1].
    cbn [fst] in Hp. subst p'. unfold bind, ret.
    specialize (IH k1).
    destruct (mapM (updateOne M rnd map [] width height) ps k1) as [ps' k2].
    cbn [fst] in *. now rewrite IH.
Qed.

End CanonicalPopulation.

Module RespawnCycle.

Import MockWindData JSFacts Examples Sampler Populations CanonicalPopulation.
Import MockWindData.WindParticle.

Section Trajectory.

Variable M : MathLib.
Variable rnd : nat -> number.
Variable map : MapWithProjection.
Variable windData : list WindPoint.
Variables w h : Q.

(** The successive states of one particle of a population: in the step
    number [j] its update starts drawing random numbers at index
    [ks j]. *)
Fixpoint trajectory (ks : nat -> nat) (n : nat) (p : WindParticle.t)
  : WindParticle.t :=
  match n with
  | O => p
  | S n' =>
      fst (updateOne M rnd map windData (Fin w) (Fin h) (trajectory ks n' p) (ks n'))
  end.

(** A step either recycles the particle, when the moved particle meets
    the test, or returns the moved particle. *)
Lemma updateOne_moved (p : WindParticle.t) (k : nat) :
  due (Fin w) (Fin h) (moved M p) = false ->
  fst (updateOne M rnd map windData (Fin w) (Fin h) p k) = moved M p.
Proof.
  intros Hdue. unfold updateOne. fold (moved M p).
  change ((age (moved M p) >=? maxAge (moved M p))
          || (x (moved M p) <? lit 0) || (x (moved M p) >? Fin w)
          || (y (moved M p) <? lit 0) || (y (moved M p) >? Fin h))%js
    with (due (Fin w) (Fin h) (moved M p)).
  now rewrite Hdue.
Qed.

Lemma age_iter_moved (n : nat) (p : WindParticle.t) (a : Q) :
  age p = Fin a ->
  exists a' : Q,
    age (Nat.iter n (moved M) p) = Fin a'
    /\ (a' == a + inject_Z (Z.of_nat n))%Q
    /\ maxAge (Nat.iter n (moved M) p) = maxAge p.
Proof.
  intros Ha. induction n as [|n (a' & E & Ha' & Hm)].
  - exists a. split; [exact Ha|]. split; [|reflexivity].
    change (inject_Z (Z.of_nat 0)) with 0%Q. ring.
  - rewrite Nat.iter_succ. cbn [moved age maxAge]. rewrite E.
    unfold lit. rewrite add_Fin. eexists. split; [reflexivity|].
    split; [|exact Hm].
    rewrite Qred_correct, Ha', Nat2Z.inj_succ, <- Z.add_1_r, inject_Z_plus.
    change (inject_Z 1) with 1%Q. ring.
Qed.

(** Every particle of the population returned by a step is the update
    of the particle it replaces, from some index of the random stream. *)
Lemma updateWindParticles_pointwise (particles : list WindParticle.t) (k : nat) :
  Forall2 (fun p p' =>
             exists k' : nat,
               p' = fst (updateOne M rnd map windData (Fin w) (Fin h) p k'))
    particles
    (fst (updateWindParticles M rnd map particles windData (Fin w) (Fin h) k)).
Proof.
  unfold updateWindParticles.
  assert (Hgen : forall ps k0,
             Forall2 (fun p p' =>
                        exists k' : nat,
                          p' = fst (updateOne M rnd map windData (Fin w) (Fin h) p k'))
               ps (fst (mapM (updateOne M rnd map windData (Fin w) (Fin h)) ps k0))).
  { induction ps as [|p ps IH]; intros k0; [constructor|].
    cbn [mapM]. unfold bind, ret.
    destruct (updateOne M rnd map windData (Fin w) (Fin h) p k0) as [p' k1] eqn:E.
    specialize (IH k1).
    destruct (mapM (updateOne M rnd map windData (Fin w) (Fin h)) ps k1) as [ps' k2].
    cbn [fst] in *. constructor; [|exact IH].
    exists k0. now rewrite E. }
  apply Hgen.
Qed.

(** X21.  A particle of the canonical variant whose age is a whole
    number of frames (as it is from a recycling on, where the age
    restarts from 0) is recycled by the time its age reaches [maxAge]: if
    [age + n >= maxAge] for some [n >= 1], the ages staying below [2^53],
    then among the first [n] steps there is one before which the particle
    was only moved and aged, at which the moved particle meets the
    recycling test, and which returns a new particle, of age 0.  The
    field is not empty, its samples and the coordinates the map unprojects
    the pixels of the canvas to are numbers of moderate size, and
    [Math.sqrt] returns a number for the numbers up to
    [Number.MAX_VALUE].  By [updateWindParticles_pointwise] every particle
    of a population follows such a trajectory. *)
Theorem recycled_by_maxAge (ks : nat -> nat) (n : nat) (p : WindParticle.t)
    (a : Z) (m : Q) :
  unitRandom rnd -> (0 <= w)%Q -> (0 <= h)%Q ->
  sqrtDefined M -> moderateProjection map w h ->
  Forall moderatePoint windData -> windData <> [] ->
  age p = Fin (inject_Z a) -> maxAge p = Fin m ->
  (0 <= a)%Z -> (a + Z.of_nat n <= 2 ^ 53)%Z ->
  (0 < n)%nat ->
  (m <= inject_Z (a + Z.of_nat n))%Q ->
  exists j : nat,
    (j < n)%nat
    /\ trajectory ks j p = Nat.iter j (moved M) p
    /\ due (Fin w) (Fin h) (moved M (trajectory ks j p)) = true
    /\ age (trajectory ks (S j) p) = lit 0
    /\ fresh windData w h (trajectory ks (S j) p).
Proof.
  intros Hrnd Hw Hh Hsqrt Hmap Hfield Hne Ha Hm _ _ Hpos Hn.
  rewrite inject_Z_plus in Hn.
  assert (Hgen : forall i : nat,
             (i <= n)%nat ->
             (exists j : nat,
                (j < i)%nat
                /\ trajectory ks j p = Nat.iter j (moved M) p
                /\ due (Fin w) (Fin h) (moved M (trajectory ks j p)) = true)
             \/ trajectory ks i p = Nat.iter i (moved M) p
                /\ forall j, (j < i)%nat ->
                     due (Fin w) (Fin h) (Nat.iter (S j) (moved M) p) = false).
  { induction i as [|i IH]; intros Hi.
    - right. split; [reflexivity|]. intros j Hj. lia.
    - destruct IH as [(j & Hj & E & Hd)|[E Hall]]; [lia| |].
      + left. exists j. split; [lia|]. split; assumption.
      + destruct (due (Fin w) (Fin h) (moved M (trajectory ks i p))) eqn:Hd.
        * left. exists i. split; [lia|]. split; assumption.
        * right. split.
          -- cbn [trajectory]. rewrite (updateOne_moved _ _ Hd), E.
             now rewrite Nat.iter_succ.
          -- intros j Hj. destruct (Nat.eq_dec j i) as [->|Hne'].
             ++ rewrite Nat.iter_succ, <- E. exact Hd.
             ++ apply Hall. lia. }
  destruct (Hgen n (Nat.le_refl n)) as [(j & Hj & E & Hd)|[_ Hall]].
  - exists j. split; [exact Hj|]. split; [exact E|]. split; [exact Hd|].
    cbn [trajectory].
    destruct (@updateOne_cases M rnd map windData w h (trajectory ks j p) (ks j)
                Hrnd Hw Hh)
      as [[Hd' _]|[(_ & Hnone & _)|(_ & Hage & (m' & Hm' & Hm'') & Hfrom & Hon)]].
    + congruence.
    + exfalso. revert Hnone.
      destruct (@pixel_on_canvas rnd w h (ks j) Hrnd Hw Hh)
        as (qx & qy & -> & -> & Hx & Hy).
      now apply (@scan_found M map windData w h).
    + split; [exact Hage|]. split; [|split; assumption].
      exists 0%Q, m'. repeat split; try assumption; lra.
  - exfalso.
    destruct n as [|n]; [lia|].
    specialize (Hall n (Nat.lt_succ_diag_r n)).
    destruct (@age_iter_moved (S n) p (inject_Z a) Ha) as (a' & E & Ha' & Hm').
    unfold due in Hall. rewrite !orb_false_iff in Hall.
    destruct Hall as [[[[Hage _] _] _] _].
    unfold geb in Hage. rewrite E, Hm', Hm in Hage.
    apply leb_Fin_false in Hage. lra.
Qed.

End Trajectory.

(** The particle of age 79 and [maxAge] 80 is recycled by the first
    step. *)
Lemma recycled_by_maxAge_run :
  exists j : nat,
    (j < 1)%nat
    /\ trajectory demoMath demoRnd pixelMap demoWind 600 450 (fun _ => 0%nat) j
         oldParticle
       = Nat.iter j (moved demoMath) oldParticle
    /\ due (lit 600) (lit 450)
         (moved demoMath
            (trajectory demoMath demoRnd pixelMap demoWind 600 450
               (fun _ => 0%nat) j oldParticle)) = true
    /\ age (trajectory demoMath demoRnd pixelMap demoWind 600 450
              (fun _ => 0%nat) (S j) oldParticle) = lit 0
    /\ fresh demoWind 600 450
         (trajectory demoMath demoRnd pixelMap demoWind 600 450
            (fun _ => 0%nat) (S j) oldParticle).
Proof.
  apply (@recycled_by_maxAge demoMath demoRnd pixelMap demoWind 600 450
           (fun _ => 0%nat) 1 oldParticle 79 80 demoRnd_unit).
  - lra.
  - lra.
  - exact sqrtInterp_defined.
  - exact pixelMap_moderate.
  - exact demoWind_moderate.
  - discriminate.
  - reflexivity.
  - reflexivity.
  - lia.
  - vm_compute. congruence.
  - lia.
  - vm_compute. congruence.
Defined.

End RespawnCycle.

Module CanvasPopulation.

Import MockWindData JSFacts Examples Advection Populations.
Import CanvasMap.
Import CanvasMap.WindParticle.

Lemma canvas_scan_in (windData0 : WindPoint) (windData : list WindPoint)
    (lng lat : number) :
  In windData0 windData ->
  In (snd (closestScan windData0 windData lng lat)) windData.
Proof.
  unfold closestScan. intros H0.
  assert (Hgen : forall l st,
             let r := snd (fold_left (scanStep lng lat) l st) in
             r = snd st \/ In r l).
  { induction l as [|p l IH]; intros st; [now left|].
    cbn [fold_left]. destruct (IH (scanStep lng lat st p)) as [H|H].
    - cbn zeta. rewrite H. unfold scanStep.
      destruct (_ <? _)%js; [right; now left|now left].
    - right. now right. }
  destruct (Hgen windData (MAX_VALUE, windData0)) as [H|H].
  - cbn zeta in H. rewrite H. exact H0.
  - exact H.
Qed.

(** The geographic position of the particle lies in the region. *)
Definition inRegion (p : WindParticle.t) : Prop :=
  isInSoutheastAsia (lng p) (lat p) = true.

(** Its pixel is on a canvas of size [w x h]. *)
Definition onCanvas (w h : Q) (p : WindParticle.t) : Prop :=
  exists qx qy : Q,
    x p = Fin qx /\ y p = Fin qy /\ (0 <= qx <= w)%Q /\ (0 <= qy <= h)%Q.

(** What a particle just spawned satisfies. *)
Definition fresh (windData : list WindPoint) (w h : Q) (p : WindParticle.t) : Prop :=
  inRegion p
  /\ lifetime 60 (age p) (maxAge p)
  /\ drawnFrom windData 1.5 (speed p) (direction p)
  /\ onCanvas w h p.

Lemma canvas_spawnLoop_fresh (rnd : nat -> number) (map : MapLibre)
    (windData0 : WindPoint) (windData : list WindPoint) (w h : Q) (count : nat) :
  unitRandom rnd -> (0 <= w)%Q -> (0 <= h)%Q ->
  In windData0 windData ->
  forall (fuel : nat) (st st' : SpawnState) (k k' : nat),
    Forall (fresh windData w h) (particles st) ->
    spawnLoop rnd map windData0 windData (Fin w) (Fin h) count fuel st k
    = (Some st', k') ->
    Forall (fresh windData w h) (particles st').
Proof.
  intros Hrnd Hw Hh H0.
  induction fuel as [|fuel IH]; intros st st' k k' Hst H; [discriminate|].
  cbn [spawnLoop] in H.
  destruct (_ && _).
  - unfold bind, Math_random in H. cbn beta iota zeta in H.
    destruct (unproject map _) as [lngLat|].
    + destruct (isInSoutheastAsia (MockWindData.lng lngLat) (MockWindData.lat lngLat))
        eqn:Hin; cbn [negb] in H.
      * eapply IH; [|exact H]. cbn [particles].
        apply Forall_app. split; [exact Hst|]. constructor; [|constructor].
        destruct (Hrnd k) as (r1 & E1 & Hr1).
        destruct (Hrnd (S k)) as (r2 & E2 & Hr2).
        destruct (Hrnd (S (S k))) as (r3 & E3 & Hr3).
        destruct (Hrnd (S (S (S k)))) as (r4 & E4 & Hr4).
        unfold fresh, inRegion. cbn [lng lat age maxAge speed direction].
        split; [exact Hin|]. split; [|split].
        -- rewrite E3, E4. unfold lit.
           destruct (@scaled r3 60 60 Hr3) as (m & -> & Hm & Hm'); [lra|].
           destruct (@scaled0 r4 m Hr4) as (a & -> & Ha & Ha'); [lra|].
           exists a, m. repeat split; try reflexivity; lra.
        -- eexists. split; [|split; reflexivity]. now apply canvas_scan_in.
        -- unfold onCanvas. cbn [x y]. rewrite E1, E2.
           destruct (@scaled0 r1 w Hr1 Hw) as (qx & -> & Hx & _).
           destruct (@scaled0 r2 h Hr2 Hh) as (qy & -> & Hy & _).
           exists qx, qy. repeat split; try reflexivity; lra.
      * eapply IH; [|exact H]. exact Hst.
    + eapply IH; [|exact H]. exact Hst.
  - injection H as <- _. exact Hst.
Qed.

(** X7.  With [Math.random()] in [[0, 1)], every particle
    [createWindParticles] returns lies in the region of interest and on
    the canvas, has a life span [maxAge] in [[60, 120)] and an age in
    [[0, maxAge)], and carries the direction of a sample of the field and
    1.5 times its speed. *)
Theorem createWindParticles_fresh (rnd : nat -> number)
    (map_current : option MapLibre) (windData : list WindPoint) (w h : Q)
    (count fuel k k' : nat) (st : SpawnState) :
  unitRandom rnd -> (0 <= w)%Q -> (0 <= h)%Q ->
  createWindParticles rnd map_current fuel windData (Fin w) (Fin h) count k
  = (Some st, k') ->
  Forall (fresh windData w h) (particles st).
Proof.
  intros Hrnd Hw Hh. unfold createWindParticles.
  destruct map_current as [map|];
    [destruct windData as [|windData0 windData']|].
  - intros H. injection H as <- _. constructor.
  - apply canvas_spawnLoop_fresh; try assumption; [now left|constructor].
  - intros H. injection H as <- _. constructor.
Qed.

(** Four particles spawned on [demoMap]. *)
Definition spawnedState : SpawnState :=
  match fst (createWindParticles demoRnd (Some demoMap) 13%nat demoWind
               (lit 600) (lit 450) 4%nat 0%nat) with
  | Some st => st
  | None => {| particles := []; attempts := 0 |}
  end.

Lemma createWindParticles_fresh_run :
  length (particles spawnedState) = 4%nat
  /\ Forall (fresh demoWind 600 450) (particles spawnedState).
Proof.
  split; [vm_compute; reflexivity|].
  refine (@createWindParticles_fresh demoRnd (Some demoMap) demoWind 600 450
            4%nat 13%nat 0%nat 18%nat spawnedState demoRnd_unit _ _ _).
  - lra.
  - lra.
  - vm_compute. reflexivity.
Defined.












End CanvasPopulation.

Module LayerPopulation.

Import MockWindData JSFacts Examples Advection Populations.
Import WindParticleLayer.
Import WindParticleLayer.ParticleType.




(** What a seeded particle takes from the sample nearest to it. *)
Definition sampled (windData : list WindPoint) (p : ParticleType.t) : Prop :=
  exists c : WindPoint,
    In c windData
    /\ direction p = MockWindData.direction c
    /\ speed p = MockWindData.speed c
    /\ size p = (lit 6 + MockWindData.speed c * lit 15)%js
    /\ color p = (fst (fst (getWindColor (MockWindData.speed c))),
                  snd (fst (getWindColor (MockWindData.speed c))),
                  snd (getWindColor (MockWindData.speed c)), lit 200).











End LayerPopulation.

Module LayerOpacity.

Import MockWindData JSFacts Examples Advection Populations LayerPopulation.
Import WindParticleLayer.
Import WindParticleLayer.ParticleType.

(** The alpha channel of a colour. *)
Definition alpha (c : number * number * number * number) : number := snd c.







End LayerOpacity.

(* ===================================================================== *)
(** ** Colours and strokes                                               *)
(* ===================================================================== *)

Module Colours.

Import MockWindData JSFacts Examples ColorRamp FieldSynthesis GridFacts.

(** A number that is an integer of the byte range. *)
Definition byte (a : number) : Prop :=
  exists z : Z, a = Fin (inject_Z z) /\ (0 <= z <= 255)%Z.

Definition rgb (c : number * number * number) : Prop :=
  byte (fst (fst c)) /\ byte (snd (fst c)) /\ byte (snd c).

Lemma byte_lit (z : Z) : (0 <= z <= 255)%Z -> byte (Fin (inject_Z z)).
Proof. intros H. exists z. now split. Qed.

Lemma round_half_up_between (lo hi : Z) (q : Q) :
  (inject_Z lo - (1 # 2) <= q)%Q -> (q < inject_Z hi + (1 # 2))%Q ->
  (lo <= round_half_up q <= hi)%Z.
Proof.
  intros Hlo Hhi. pose proof (round_half_up_near q) as [H1 H2].
  split.
  - assert (H : (inject_Z lo < inject_Z (round_half_up q) + 1)%Q) by lra.
    change 1%Q with (inject_Z 1) in H. rewrite <- inject_Z_plus in H.
    rewrite <- Zlt_Qlt in H. lia.
  - assert (H : (inject_Z (round_half_up q) < inject_Z hi + 1)%Q) by lra.
    change 1%Q with (inject_Z 1) in H. rewrite <- inject_Z_plus in H.
    rewrite <- Zlt_Qlt in H. lia.
Qed.

(** The green channel on the second band ranges over [[217, 233]], and
    over [[lo, 228]] below speed [0.5]. *)
Lemma medium_green (s : Q) :
  (0.3 <= s < 0.6)%Q ->
  (217 <= round_half_up (200 + 55 * s) <= 233)%Z
  /\ ((s <= 0.5)%Q -> (round_half_up (200 + 55 * s) <= 228)%Z).
Proof.
  intros Hs. split.
  - apply round_half_up_between.
    + change (inject_Z 217) with 217%Q. lra.
    + change (inject_Z 233) with 233%Q. lra.
  - intros H5.
    apply (@round_half_up_between 217 228).
    + change (inject_Z 217) with 217%Q. lra.
    + change (inject_Z 228) with 228%Q. lra.
Qed.

Lemma getWindColor_rgb (s : Q) : (s <= 1)%Q -> rgb (getWindColor (Fin s)).
Proof.
  intros Hs.
  destruct (Qlt_le_dec s 0.3) as [H1|H1].
  - rewrite (getWindColor_light H1). repeat split; apply byte_lit; lia.
  - destruct (Qlt_le_dec s 0.6) as [H2|H2].
    + rewrite (getWindColor_medium (conj H1 H2)).
      repeat split; try (apply byte_lit; lia).
      cbn [fst snd]. apply byte_lit.
      pose proof (proj1 (medium_green (conj H1 H2))). lia.
    + rewrite (getWindColor_strong H2).
      repeat split; try (apply byte_lit; lia).
      cbn [fst snd]. apply byte_lit.
      assert (H : (0 <= round_half_up (165 - 165 * s) <= 66)%Z).
      { apply round_half_up_between.
        - change (inject_Z 0) with 0%Q. lra.
        - change (inject_Z 66) with 66%Q. lra. }
      lia.
Qed.

(** X11.  On bounds that are four numbers and for a positive density,
    the colour [getWindColor] gives to any sample emitted by
    [generateMockWindData] is a valid RGB triple: three integers between
    0 and 255 ([Math.sin] staying within [[-1, 1]], which keeps the
    speeds within [[0.2, 1]]). *)
Theorem generated_colours_are_bytes (M : MathLib) (fuel : nat)
    (w s e n d : Q) (field : list WindPoint) :
  sinBounded M ->
  (0 < d)%Q ->
  generateMockWindData M fuel
    {| west := Fin w; south := Fin s; east := Fin e; north := Fin n |} (Fin d)
  = Some field ->
  Forall (fun p => rgb (getWindColor (speed p))) field.
Proof.
  intros Hsin _ H.
  eapply emitted_samples; [| |exact H].
  - intros lon lat.
    destruct (windSample_speed lon lat Hsin) as [(q & -> & Hq) _].
    apply getWindColor_rgb. lra.
  - repeat split.
Qed.

Lemma generated_colours_run :
  Forall (fun p => rgb (getWindColor (speed p))) gridField.
Proof.
  refine (@generated_colours_are_bytes demoMath 600 100 5 130 20 15
            gridField sinTaylor_bounded _ _).
  - reflexivity.
  - vm_compute. reflexivity.
Defined.

(** X12.  For a positive [maxAge], [getParticleColor] returns the
    colour of [getWindColor] with the opacity
    [(1 - age / maxAge) * 0.85]: between 0 and 0.85 while
    [0 <= age <= maxAge], and negative, not clamped, once the age has
    passed [maxAge]. *)
Theorem getParticleColor_alpha (speed : number) (age maxAge : Q) :
  (0 < maxAge)%Q ->
  exists alpha : Q,
    getParticleColor speed (Fin age) (Fin maxAge)
    = (fst (fst (getWindColor speed)), snd (fst (getWindColor speed)),
       snd (getWindColor speed), Fin alpha)
    /\ (alpha == (1 - age / maxAge) * 0.85)%Q
    /\ ((0 <= age <= maxAge)%Q -> (0 <= alpha <= 0.85)%Q)
    /\ ((maxAge < age)%Q -> (alpha < 0)%Q).
Proof.
  intros Hm. unfold getParticleColor.
  destruct (getWindColor speed) as [[r g] b]. cbn [fst snd].
  unfold lit. cbn [div].
  destruct (maxAge ?= 0)%Q eqn:E.
  - apply Qeq_alt in E. lra.
  - apply Qlt_alt in E. lra.
  - unfold fin. autorewrite with js. eexists. split; [reflexivity|].
    rewrite !Qred_correct.
    assert (Hinv : (0 < / maxAge)%Q) by now apply Qinv_lt_0_compat.
    assert (Hone : (maxAge * / maxAge == 1)%Q) by (apply Qmult_inv_r; lra).
    unfold Qdiv. set (i := (/ maxAge)%Q) in *.
    split; [ring|]. split.
    + intros [H0 H1].
      assert (Ha : (0 <= age * i)%Q) by (apply Qmult_le_0_compat; lra).
      assert (Hb : (0 <= (maxAge - age) * i)%Q) by (apply Qmult_le_0_compat; lra).
      lra.
    + intros H1.
      assert (Hb : (0 < (age - maxAge) * i)%Q) by (apply Qmult_lt_0_compat; lra).
      lra.
Qed.

Lemma getParticleColor_alpha_run :
  getParticleColor (lit 0.5) (lit 20) (lit 80)
  = (lit 255, lit 228, lit 0, Fin (51 # 80))
  /\ exists alpha : Q,
       getParticleColor (lit 0.5) (Fin 20) (Fin 80)
       = (fst (fst (getWindColor (lit 0.5))), snd (fst (getWindColor (lit 0.5))),
          snd (getWindColor (lit 0.5)), Fin alpha)
       /\ (alpha == (1 - 20 / 80) * 0.85)%Q
       /\ ((0 <= 20 <= 80)%Q -> (0 <= alpha <= 0.85)%Q)
       /\ ((80 < 20)%Q -> (alpha < 0)%Q).
Proof.
  split; [vm_compute; reflexivity|].
  apply (@getParticleColor_alpha (lit 0.5) 20 80). reflexivity.
Defined.

(** *** The strokes of the canvas map *)

Import CanvasMap.

(** X13.  The stroke the canvas map draws for a particle whose speed
    is 1.5 times a sample speed [s <= 1]: the opacity
    [max (0, 1 - age / maxAge) * 0.95] lies between 0 and 0.95, and is 0
    once the age has reached [maxAge]; the fill opacity is 0.1 more; and
    as the colour is looked up at [speed / 3 = s / 2 <= 0.5], it is the
    constant of the first band or a colour of the second one with a green
    channel between 217 and 228, never a colour of the third band. *)
Theorem canvas_stroke_style (M : MathLib) (p : CanvasMap.WindParticle.t)
    (s a m : Q) :
  CanvasMap.WindParticle.speed p = (Fin s * lit 1.5)%js ->
  (s <= 1)%Q ->
  CanvasMap.WindParticle.age p = Fin a ->
  CanvasMap.WindParticle.maxAge p = Fin m ->
  (0 <= a)%Q -> (0 < m)%Q ->
  exists (r g b : number) (alpha : Q),
    strokeStyle (drawParticle M p) = (r, g, b, Fin alpha)
    /\ fillStyle (drawParticle M p) = (r, g, b, (Fin alpha + lit 0.1)%js)
    /\ (0 <= alpha <= 0.95)%Q
    /\ ((m <= a)%Q -> (alpha == 0)%Q)
    /\ ((r, g, b) = (lit 30, lit 144, lit 255)
        \/ exists z : Z,
             (r, g, b) = (lit 255, Fin (inject_Z z), lit 0)
             /\ (217 <= z <= 228)%Z).
Proof.
  intros Hspeed Hs Ha Hm Ha0 Hm0. unfold drawParticle.
  rewrite Hspeed, Ha, Hm. unfold lit.
  assert (Hc : exists q, (Fin s * Fin 1.5 / Fin 3)%js = Fin q /\ (q == s / 2)%Q).
  { rewrite mul_Fin. cbn [div]. change (3 ?= 0)%Q with Gt. cbv iota.
    unfold fin. eexists. split; [reflexivity|].
    rewrite !Qred_correct. field. }
  destruct Hc as (q & -> & Hq).
  assert (Hq' : (q <= 0.5)%Q).
  { rewrite Hq. apply Qle_shift_div_r; lra. }
  assert (Halpha : exists alpha,
             (Math_max (Fin 0) (Fin 1 - Fin a / Fin m) * Fin 0.95)%js = Fin alpha
             /\ (0 <= alpha <= 0.95)%Q /\ ((m <= a)%Q -> (alpha == 0)%Q)).
  { cbn [div]. destruct (m ?= 0)%Q eqn:E.
    - apply Qeq_alt in E. lra.
    - apply Qlt_alt in E. lra.
    - unfold fin. rewrite sub_Fin.
      set (t := Qred (1 + Qred (- Qred (a / m)))).
      assert (Ht : (t == 1 - a / m)%Q) by (unfold t; now rewrite !Qred_correct).
      assert (Hinv : (0 < / m)%Q) by now apply Qinv_lt_0_compat.
      assert (Hone : (m * / m == 1)%Q) by (apply Qmult_inv_r; lra).
      assert (Hdiv : (0 <= a / m)%Q).
      { unfold Qdiv. apply Qmult_le_0_compat; lra. }
      assert (Hge : (m <= a)%Q -> (1 <= a / m)%Q).
      { intros H. unfold Qdiv.
        assert ((0 <= (a - m) * / m)%Q) by (apply Qmult_le_0_compat; lra).
        lra. }
      unfold Math_max. destruct (Fin 0 <=? Fin t)%js eqn:E0.
      + apply leb_Fin in E0. rewrite mul_Fin. eexists. split; [reflexivity|].
        rewrite Qred_correct. split; [lra|]. intros H. specialize (Hge H). lra.
      + apply leb_Fin_false in E0. rewrite mul_Fin. eexists.
        split; [reflexivity|]. rewrite Qred_correct. split; [lra|].
        intros _. ring. }
  destruct Halpha as (alpha & Ealpha & Hrange & Hzero).
  destruct (Qlt_le_dec q 0.3) as [H1|H1].
  - rewrite (getWindColor_light H1). cbn [strokeStyle fillStyle].
    rewrite Ealpha.
    exists (lit 30), (lit 144), (lit 255), alpha.
    repeat split; try assumption; try lra. now left.
  - assert (H2 : (0.3 <= q < 0.6)%Q) by lra.
    rewrite (getWindColor_medium H2). cbn [strokeStyle fillStyle].
    rewrite Ealpha.
    eexists _, _, _, alpha.
    split; [reflexivity|]. split; [reflexivity|].
    split; [exact Hrange|]. split; [exact Hzero|].
    right. eexists. split; [reflexivity|].
    destruct (medium_green H2) as [Hg Hg']. specialize (Hg' Hq'). lia.
Qed.

(** A particle spawned from a sample of speed [0.8], a quarter into its
    life. *)
Definition strokeParticle : CanvasMap.WindParticle.t :=
  {| CanvasMap.WindParticle.x := lit 100;
     CanvasMap.WindParticle.y := lit 100;
     CanvasMap.WindParticle.lng := lit 100;
     CanvasMap.WindParticle.lat := lit 20;
     CanvasMap.WindParticle.age := lit 20;
     CanvasMap.WindParticle.maxAge := lit 80;
     CanvasMap.WindParticle.speed := (lit 0.8 * lit 1.5)%js;
     CanvasMap.WindParticle.direction := lit 0 |}.

Lemma canvas_stroke_style_run :
  strokeStyle (drawParticle demoMath strokeParticle)
  = (lit 255, lit 222, lit 0, Fin (57 # 80))
  /\ exists (r g b : number) (alpha : Q),
       strokeStyle (drawParticle demoMath strokeParticle) = (r, g, b, Fin alpha)
       /\ fillStyle (drawParticle demoMath strokeParticle)
          = (r, g, b, (Fin alpha + lit 0.1)%js)
       /\ (0 <= alpha <= 0.95)%Q
       /\ ((80 <= 20)%Q -> (alpha == 0)%Q)
       /\ ((r, g, b) = (lit 30, lit 144, lit 255)
           \/ exists z : Z,
                (r, g, b) = (lit 255, Fin (inject_Z z), lit 0)
                /\ (217 <= z <= 228)%Z).
Proof.
  split; [vm_compute; reflexivity|].
  apply (@canvas_stroke_style demoMath strokeParticle 0.8 20 80).
  - reflexivity.
  - lra.
  - reflexivity.
  - reflexivity.
  - lra.
  - lra.
Defined.

End Colours.

Module CanvasFrame.

Import MockWindData JSFacts Examples Advection Spawning Populations.
Import CanvasMap.

Lemma createWindParticles_returns (rnd : nat -> number)
    (map_current : option MapLibre) (windData : list WindPoint)
    (width height : number) (count fuel k : nat) :
  (count * 3 < fuel)%nat ->
  exists st k',
    createWindParticles rnd map_current fuel windData width height count k
    = (Some st, k')
    /\ (length (particles st) <= count)%nat
    /\ (windData = [] -> particles st = []).
Proof.
  intros Hfuel. unfold createWindParticles.
  destruct map_current as [map|];
    [destruct windData as [|windData0 windData']|].
  - exists {| particles := []; attempts := 0 |}, k. cbn. repeat split; lia.
  - destruct (@spawnLoop_terminates rnd map windData0 (windData0 :: windData')
                width height count fuel {| particles := []; attempts := 0 |} k)
      as (st & k' & E & _ & _ & H3 & _).
    { cbn [attempts]. unfold maxAttempts. lia. }
    exists st, k'. split; [exact E|]. split; [apply H3; cbn; lia|discriminate].
  - exists {| particles := []; attempts := 0 |}, k. cbn. repeat split; lia.
Qed.

(** X14.  A frame of [animateParticles] returns (the seeding loop
    being given enough fuel for its 1800 attempts) and leaves the bounds
    and the wind data alone.  Without map or canvas it changes nothing,
    draws nothing and does not request the next frame.  Otherwise it
    requests the next frame and draws one stroke per particle of the new
    population, which has the size of the old one when that was not
    empty, and at most 600 particles when it was (none when there is no
    wind data either). *)
Theorem animateParticles_frame (M : MathLib) (rnd : nat -> number)
    (map_current : option MapLibre) (canvas : option (number * number))
    (fuel : nat) (r : Refs) (k : nat) :
  (600 * 3 < fuel)%nat ->
  exists f k',
    animateParticles M rnd map_current canvas fuel r k = (Some f, k')
    /\ mapBoundsRef (refs f) = mapBoundsRef r
    /\ windDataRef (refs f) = windDataRef r
    /\ (map_current = None \/ canvas = None ->
        f = {| refs := r; drawn := []; requested := false |})
    /\ (map_current <> None -> canvas <> None ->
        requested f = true
        /\ drawn f = List.map (drawParticle M) (particlesRef (refs f))
        /\ (particlesRef r <> [] ->
            length (particlesRef (refs f)) = length (particlesRef r))
        /\ (particlesRef r = [] ->
            (length (particlesRef (refs f)) <= 600)%nat)
        /\ (particlesRef r = [] -> windDataRef r = [] ->
            particlesRef (refs f) = [])).
Proof.
  intros Hfuel. unfold animateParticles.
  destruct map_current as [map|].
  2: { eexists _, _. split; [reflexivity|]. cbn. repeat split; auto; congruence. }
  destruct canvas as [[width height]|].
  2: { eexists _, _. split; [reflexivity|]. cbn. repeat split; auto; congruence. }
  unfold bind at 1.
  assert (Hcreated : exists ps k1,
             (if Nat.eqb (length (particlesRef r)) 0 && Nat.ltb 0 (length (windDataRef r))
              then
                (st <- createWindParticles rnd (Some map) fuel (windDataRef r)
                         width height 600 ;;
                 ret (option_map particles st))%js
              else ret (Some (particlesRef r))) k
             = (Some ps, k1)
             /\ (particlesRef r <> [] -> ps = particlesRef r)
             /\ (particlesRef r = [] -> (length ps <= 600)%nat)
             /\ (particlesRef r = [] -> windDataRef r = [] -> ps = [])).
  { destruct (Nat.eqb (length (particlesRef r)) 0) eqn:E0; cbn [andb].
    - apply Nat.eqb_eq in E0.
      assert (Hnil : particlesRef r = []).
      { destruct (particlesRef r); [reflexivity|discriminate]. }
      destruct (Nat.ltb 0 (length (windDataRef r))) eqn:E1.
      + destruct (@createWindParticles_returns rnd (Some map) (windDataRef r)
                    width height 600 fuel k Hfuel) as (st & k1 & E & Hl & Hw).
        exists (particles st), k1. unfold bind. rewrite E. cbn.
        repeat split; auto. congruence.
      + exists (particlesRef r), k. split; [reflexivity|].
        rewrite Hnil. cbn. repeat split; auto; lia.
    - apply Nat.eqb_neq in E0.
      exists (particlesRef r), k. split; [reflexivity|].
      repeat split; auto; intros Hnil; rewrite Hnil in E0; cbn in E0; lia. }
  destruct Hcreated as (ps & k1 & -> & H1 & H2 & H3).
  unfold bind.
  assert (Hupd : forall k1,
             length (fst ((if Nat.ltb 0 (length ps)
                           then updateParticles M rnd (Some map) ps (windDataRef r)
                                  width height
                           else ret ps) k1))
             = length ps).
  { intros k0. destruct (Nat.ltb 0 (length ps)); [|reflexivity].
    unfold updateParticles.
    destruct (windDataRef r); [reflexivity|apply mapM_length]. }
  specialize (Hupd k1).
  destruct ((if Nat.ltb 0 (length ps)
             then updateParticles M rnd (Some map) ps (windDataRef r) width height
             else ret ps) k1) as [ps' k2].
  cbn [fst] in Hupd.
  eexists _, _. split; [reflexivity|].
  cbn [refs mapBoundsRef windDataRef particlesRef drawn requested].
  split; [reflexivity|]. split; [reflexivity|].
  split; [intros [H|H]; discriminate|].
  intros _ _. split; [reflexivity|]. split; [reflexivity|].
  split; [|split].
  - intros Hne. rewrite Hupd. now rewrite (H1 Hne).
  - intros Hnil. rewrite Hupd. now apply H2.
  - intros Hnil Hw. specialize (H3 Hnil Hw). subst ps.
    destruct ps'; [reflexivity|discriminate].
Qed.

(** The references once the wind data is there and before the first
    frame. *)
Definition loadedRefs : Refs :=
  {| mapBoundsRef := SOUTHEAST_ASIA_BOUNDS;
     windDataRef := demoWind;
     particlesRef := [] |}.

Lemma animateParticles_frame_run :
  exists f k',
    animateParticles demoMath demoRnd (Some demoMap) (Some (lit 600, lit 450))
                     1801 loadedRefs 0%nat
    = (Some f, k')
    /\ requested f = true
    /\ (length (particlesRef (refs f)) <= 600)%nat
    /\ length (drawn f) = length (particlesRef (refs f)).
Proof.
  destruct (@animateParticles_frame demoMath demoRnd (Some demoMap)
              (Some (lit 600, lit 450)) 1801 loadedRefs 0%nat)
    as (f & k' & E & _ & _ & _ & H); [lia|].
  destruct H as (H1 & H2 & _ & H4 & _); [discriminate|discriminate|].
  exists f, k'. split; [exact E|]. split; [exact H1|].
  split; [now apply H4|]. rewrite H2. apply length_map.
Defined.

End CanvasFrame.

(* ===================================================================== *)
(** ** The wind texture                                                  *)
(* ===================================================================== *)

Module WindImage.

Import MockWindData JSFacts Examples FieldSynthesis.
Import WindTexture.

(** *** Typed-array writes *)

Lemma length_store (i : nat) (v : number) (data : list Z) :
  length (store i v data) = length data.
Proof.
  revert i. induction data as [|b rest IH]; intros i; [now destruct i|].
  destruct i as [|i]; cbn [store length]; [reflexivity|]. now rewrite IH.
Qed.

Lemma nth_store_same (i : nat) (v : number) (data : list Z) :
  (i < length data)%nat -> nth i (store i v data) 0%Z = toUint8 v.
Proof.
  revert i. induction data as [|b rest IH]; intros i Hi; cbn [length] in Hi; [lia|].
  destruct i as [|i]; cbn [store nth]; [reflexivity|]. apply IH. lia.
Qed.

Lemma nth_store_other (i j : nat) (v : number) (data : list Z) :
  j <> i -> nth j (store i v data) 0%Z = nth j data 0%Z.
Proof.
  revert i j. induction data as [|b rest IH]; intros i j Hij; [now destruct i|].
  destruct i as [|i], j as [|j]; cbn [store nth]; try reflexivity; try lia.
  apply IH. lia.
Qed.

(** *** Loops over a range *)

Lemma fold_seq_inv {S : Type} (P : nat -> S -> Prop) (f : S -> nat -> S) (n : nat) :
  forall (a : nat) (s : S),
    P a s ->
    (forall i s', (a <= i < a + n)%nat -> P i s' -> P (Datatypes.S i) (f s' i)) ->
    P (a + n)%nat (fold_left f (seq a n) s).
Proof.
  induction n as [|n IH]; intros a s Hs Hstep.
  - rewrite Nat.add_0_r. exact Hs.
  - cbn [seq fold_left]. rewrite <- Nat.add_succ_comm.
    apply IH.
    + apply Hstep; [lia|exact Hs].
    + intros i s' Hi. apply Hstep. lia.
Qed.

(** *** The two bytes of a component *)

(** The integer part of [(c + 1) * 127.5], and the fraction in 255ths. *)
Definition hiByte (c : Q) : Z := Qfloor ((c + 1) * 127.5).

Definition loByte (c : Q) : Z :=
  Qfloor (((c + 1) * 127.5 - inject_Z (hiByte c)) * 255).

Lemma Qtrunc_Z (z : Z) : Qtrunc (inject_Z z) = z.
Proof.
  unfold Qtrunc. destruct (inject_Z z ?= 0)%Q; [apply Qfloor_Z|apply Qceiling_Z|apply Qfloor_Z].
Qed.

Lemma Qtrunc_nonneg (q : Q) : (0 <= q)%Q -> Qtrunc q = Qfloor q.
Proof.
  intros H. unfold Qtrunc. destruct (q ?= 0)%Q eqn:E; try reflexivity.
  apply Qlt_alt in E. lra.
Qed.

Lemma Qfloor_between (q : Q) (lo hi : Z) :
  (inject_Z lo <= q)%Q -> (q < inject_Z hi + 1)%Q -> (lo <= Qfloor q <= hi)%Z.
Proof.
  intros Hlo Hhi. pose proof (Qfloor_le q) as H1. pose proof (Qlt_floor q) as H2.
  rewrite inject_Z_plus in H2. change (inject_Z 1) with 1%Q in H2.
  split.
  - assert (H : (inject_Z lo < inject_Z (Qfloor q) + 1)%Q) by lra.
    change 1%Q with (inject_Z 1) in H. rewrite <- inject_Z_plus in H.
    rewrite <- Zlt_Qlt in H. lia.
  - assert (H : (inject_Z (Qfloor q) < inject_Z hi + 1)%Q) by lra.
    change 1%Q with (inject_Z 1) in H. rewrite <- inject_Z_plus in H.
    rewrite <- Zlt_Qlt in H. lia.
Qed.

Lemma hiByte_range (c : Q) : (-1 <= c <= 1)%Q -> (0 <= hiByte c <= 255)%Z.
Proof.
  intros Hc. apply Qfloor_between.
  - change (inject_Z 0) with 0%Q. lra.
  - change (inject_Z 255) with 255%Q. lra.
Qed.

Lemma loByte_range (c : Q) : (0 <= loByte c <= 254)%Z.
Proof.
  unfold loByte, hiByte.
  pose proof (Qfloor_le ((c + 1) * 127.5)) as H1.
  pose proof (Qlt_floor ((c + 1) * 127.5)) as H2.
  rewrite inject_Z_plus in H2. change (inject_Z 1) with 1%Q in H2.
  apply Qfloor_between.
  - change (inject_Z 0) with 0%Q. lra.
  - change (inject_Z 254) with 254%Q. lra.
Qed.

(** The two bytes determine [(c + 1) * 127.5] to within [1 / 255]. *)
Lemma bytes_precision (c : Q) :
  (inject_Z (hiByte c) + inject_Z (loByte c) / 255 <= (c + 1) * 127.5
   < inject_Z (hiByte c) + (inject_Z (loByte c) + 1) / 255)%Q.
Proof.
  unfold loByte.
  set (f := (((c + 1) * 127.5 - inject_Z (hiByte c)) * 255)%Q).
  pose proof (Qfloor_le f) as H1. pose proof (Qlt_floor f) as H2.
  rewrite inject_Z_plus in H2. change (inject_Z 1) with 1%Q in H2.
  unfold Qdiv. change (/ 255)%Q with (1 # 255)%Q. unfold f in *. lra.
Qed.

Lemma stored_hi (c : Q) :
  (-1 <= c <= 1)%Q ->
  toUint8 (Math_floor ((Fin c + lit 1) * lit 127.5)%js) = hiByte c.
Proof.
  intros Hc. unfold lit. autorewrite with js. cbn [Math_floor toUint8].
  rewrite Qtrunc_Z.
  assert (E : Qfloor (Qred (Qred (c + 1) * 127.5)) = hiByte c).
  { apply Qfloor_comp. now rewrite !Qred_correct. }
  rewrite E. apply Z.mod_small. pose proof (hiByte_range Hc). lia.
Qed.

Lemma stored_lo (c : Q) :
  (-1 <= c <= 1)%Q ->
  toUint8 (Math_floor (rem1 ((Fin c + lit 1) * lit 127.5) * lit 255)%js) = loByte c.
Proof.
  intros Hc. unfold lit. autorewrite with js. cbn [rem1]. unfold fin.
  autorewrite with js. cbn [Math_floor toUint8]. rewrite Qtrunc_Z.
  assert (H0 : (0 <= Qred (Qred (c + 1) * 127.5))%Q).
  { rewrite !Qred_correct. lra. }
  rewrite (Qtrunc_nonneg H0).
  assert (E : Qfloor (Qred (Qred (c + 1) * 127.5)) = hiByte c).
  { apply Qfloor_comp. now rewrite !Qred_correct. }
  rewrite E.
  assert (E' : Qfloor (Qred (Qred (Qred (Qred (c + 1) * 127.5)
                                   - inject_Z (hiByte c)) * 255))
               = loByte c).
  { apply Qfloor_comp. now rewrite !Qred_correct. }
  rewrite E'. apply Z.mod_small. pose proof (loByte_range c). lia.
Qed.

(** *** The wind vectors *)

(** [Math.sin] and [Math.cos] map a number into [[-1, 1]]. *)
Definition trigBounded (M : MathLib) : Prop :=
  sinBounded M
  /\ forall x : Q, exists r : Q, Math_cos M (Fin x) = Fin r /\ (-1 <= r <= 1)%Q.

Lemma product_bounded (a b : Q) :
  (-1 <= a <= 1)%Q -> (-1 <= b <= 1)%Q -> (-1 <= a * b <= 1)%Q.
Proof.
  intros Ha Hb.
  assert (H1 : (0 <= (1 - a) * (1 - b))%Q) by (apply Qmult_le_0_compat; lra).
  assert (H2 : (0 <= (1 + a) * (1 + b))%Q) by (apply Qmult_le_0_compat; lra).
  assert (H3 : (0 <= (1 - a) * (1 + b))%Q) by (apply Qmult_le_0_compat; lra).
  assert (H4 : (0 <= (1 + a) * (1 - b))%Q) by (apply Qmult_le_0_compat; lra).
  lra.
Qed.

Lemma windVector_bounded (M : MathLib) (x y : nat) :
  trigBounded M ->
  exists u v : Q,
    windVector M x y = (Fin u, Fin v)
    /\ (-1 <= u <= 1)%Q /\ (-1 <= v <= 1)%Q.
Proof.
  intros [Hsin Hcos]. unfold windVector, num, lit.
  assert (Hlng : exists q,
             (Fin (inject_Z (Z.of_nat x)) / Fin (inject_Z (Z.of_nat width))
              * Fin 360 - Fin 180)%js = Fin q).
  { cbn [div]. change (inject_Z (Z.of_nat width) ?= 0)%Q with Gt. cbv iota.
    unfold fin. autorewrite with js. eauto. }
  assert (Hlat : exists q,
             (Fin (inject_Z (Z.of_nat y)) / Fin (inject_Z (Z.of_nat height))
              * Fin 180 - Fin 90)%js = Fin q).
  { cbn [div]. change (inject_Z (Z.of_nat height) ?= 0)%Q with Gt. cbv iota.
    unfold fin. autorewrite with js. eauto. }
  destruct Hlng as (lng & ->). destruct Hlat as (lat & ->).
  autorewrite with js.
  destruct (Hsin (Qred (lat * 0.05))) as (s1 & -> & Hs1).
  destruct (Hcos (Qred (lng * 0.05))) as (c1 & -> & Hc1).
  destruct (Hcos (Qred (lat * 0.05))) as (c2 & -> & Hc2).
  destruct (Hsin (Qred (lng * 0.05))) as (s2 & -> & Hs2).
  autorewrite with js. eexists _, _. split; [reflexivity|].
  rewrite !Qred_correct. split; now apply product_bounded.
Qed.

(** *** The loops *)

Section Filled.

Variable M : MathLib.
Hypothesis trig : trigBounded M.

(** The four bytes of the cell [(x, y)] are in place. *)
Definition written (data : list Z) (x y : nat) : Prop :=
  exists u v : Q,
    windVector M x y = (Fin u, Fin v)
    /\ nth ((y * width + x) * 4) data 0%Z = hiByte u
    /\ nth ((y * width + x) * 4 + 1) data 0%Z = loByte u
    /\ nth ((y * width + x) * 4 + 2) data 0%Z = hiByte v
    /\ nth ((y * width + x) * 4 + 3) data 0%Z = loByte v.

(** The running minimum and maximum bracket the component [c]. *)
Definition bracket (lo hi : number) (c : Q) : Prop :=
  exists l h : Q, lo = Fin l /\ hi = Fin h /\ (l <= c <= h)%Q.

Definition bracketed (st : Locals.t) (x y : nat) : Prop :=
  exists u v : Q,
    windVector M x y = (Fin u, Fin v)
    /\ bracket (Locals.uMin st) (Locals.uMax st) u
    /\ bracket (Locals.vMin st) (Locals.vMax st) v.

(** A running minimum is [Infinity] or a number, a running maximum
    [-Infinity] or a number. *)
Definition running (st : Locals.t) : Prop :=
  (Locals.uMin st = PInf \/ exists q, Locals.uMin st = Fin q)
  /\ (Locals.uMax st = NInf \/ exists q, Locals.uMax st = Fin q)
  /\ (Locals.vMin st = PInf \/ exists q, Locals.vMin st = Fin q)
  /\ (Locals.vMax st = NInf \/ exists q, Locals.vMax st = Fin q).

(** The state after the cells up to number [t], in row-major order. *)
Definition filled (t : nat) (st : Locals.t) : Prop :=
  length (Locals.data st) = (width * height * 4)%nat
  /\ running st
  /\ forall x y, (x < width)%nat -> (y * width + x < t)%nat ->
       written (Locals.data st) x y /\ bracketed st x y.

Lemma min_step (a : number) (c : Q) :
  (a = PInf \/ exists q, a = Fin q) ->
  exists m : Q,
    Math_min a (Fin c) = Fin m /\ (m <= c)%Q
    /\ forall q, a = Fin q -> (m <= q)%Q.
Proof.
  intros [->|(q & ->)].
  - exists c. split; [reflexivity|]. split; [lra|]. discriminate.
  - unfold Math_min. destruct (Fin q <=? Fin c)%js eqn:E.
    + apply leb_Fin in E. exists q. split; [reflexivity|]. split; [exact E|].
      intros q' H. injection H as <-. lra.
    + apply leb_Fin_false in E. exists c. split; [reflexivity|]. split; [lra|].
      intros q' H. injection H as <-. lra.
Qed.

Lemma max_step (a : number) (c : Q) :
  (a = NInf \/ exists q, a = Fin q) ->
  exists m : Q,
    Math_max a (Fin c) = Fin m /\ (c <= m)%Q
    /\ forall q, a = Fin q -> (q <= m)%Q.
Proof.
  intros [->|(q & ->)].
  - exists c. split; [reflexivity|]. split; [lra|]. discriminate.
  - unfold Math_max. destruct (Fin q <=? Fin c)%js eqn:E.
    + apply leb_Fin in E. exists c. split; [reflexivity|]. split; [lra|].
      intros q' H. injection H as <-. lra.
    + apply leb_Fin_false in E. exists q. split; [reflexivity|]. split; [lra|].
      intros q' H. injection H as <-. lra.
Qed.

Lemma bracket_widen (lo hi lo' hi' : number) (l' h' c : Q) :
  lo' = Fin l' -> hi' = Fin h' ->
  (forall q, lo = Fin q -> (l' <= q)%Q) ->
  (forall q, hi = Fin q -> (q <= h')%Q) ->
  bracket lo hi c -> bracket lo' hi' c.
Proof.
  intros -> -> Hl Hh (l & h & -> & -> & Hc).
  exists l', h'. split; [reflexivity|]. split; [reflexivity|].
  specialize (Hl l eq_refl). specialize (Hh h eq_refl). lra.
Qed.

Lemma cell_filled (x y : nat) (st : Locals.t) :
  (x < width)%nat -> (y < height)%nat ->
  filled (y * width + x) st -> filled (S (y * width + x)) (cell M y st x).
Proof.
  intros Hx Hy (Hlen & Hrun & Hdone).
  destruct (windVector_bounded x y trig) as (u & v & Ewv & Hu & Hv).
  unfold cell. rewrite Ewv.
  set (i := ((y * width + x) * 4)%nat).
  assert (Hi : (i + 3 < width * height * 4)%nat).
  { unfold i. nia. }
  destruct Hrun as (R1 & R2 & R3 & R4).
  destruct (min_step u R1) as (ul & Eul & Hul & Hul').
  destruct (max_step u R2) as (uh & Euh & Huh & Huh').
  destruct (min_step v R3) as (vl & Evl & Hvl & Hvl').
  destruct (max_step v R4) as (vh & Evh & Hvh & Hvh').
  split; [|split].
  - cbn [Locals.data]. now rewrite !length_store.
  - unfold running. cbn [Locals.uMin Locals.uMax Locals.vMin Locals.vMax].
    rewrite Eul, Euh, Evl, Evh. repeat split; right; eauto.
  - intros x' y' Hx' Ht.
    assert (Hcase : (y' * width + x' < y * width + x)%nat
                    \/ (x' = x /\ y' = y)).
    { destruct (Nat.eq_dec (y' * width + x') (y * width + x)) as [E|E].
      - right. 
        assert (y' = y) by nia. subst y'. split; [lia|reflexivity].
      - left. lia. }
    destruct Hcase as [Hlt|[-> ->]].
    + destruct (Hdone x' y' Hx' Hlt) as [(u' & v' & Ewv' & W0 & W1 & W2 & W3) Hbr].
      split.
      * exists u', v'. split; [exact Ewv'|]. cbn [Locals.data].
        rewrite !nth_store_other by (unfold i; lia).
        repeat split; assumption.
      * destruct Hbr as (u'' & v'' & Ewv'' & Bu & Bv).
        exists u'', v''. split; [exact Ewv''|].
        cbn [Locals.uMin Locals.uMax Locals.vMin Locals.vMax].
        split.
        -- eapply bracket_widen; [exact Eul|exact Euh|exact Hul'|exact Huh'|exact Bu].
        -- eapply bracket_widen; [exact Evl|exact Evh|exact Hvl'|exact Hvh'|exact Bv].
    + split.
      * exists u, v. split; [exact Ewv|]. cbn [Locals.data]. fold i.
        repeat split.
        -- rewrite !nth_store_other by lia.
           rewrite nth_store_same by lia. now apply stored_hi.
        -- rewrite !nth_store_other by lia.
           rewrite nth_store_same by (rewrite !length_store; lia).
           now apply stored_lo.
        -- rewrite !nth_store_other by lia.
           rewrite nth_store_same by (rewrite !length_store; lia).
           now apply stored_hi.
        -- rewrite nth_store_same by (rewrite !length_store; lia).
           now apply stored_lo.
      * exists u, v. split; [exact Ewv|].
        cbn [Locals.uMin Locals.uMax Locals.vMin Locals.vMax].
        rewrite Eul, Euh, Evl, Evh. split.
        -- exists ul, uh. repeat split; try reflexivity; assumption.
        -- exists vl, vh. repeat split; try reflexivity; assumption.
Qed.

Lemma row_filled (y : nat) (st : Locals.t) :
  (y < height)%nat ->
  filled (y * width) st -> filled (S y * width) (row M st y).
Proof.
  intros Hy Hst. unfold row.
  replace (S y * width)%nat with (y * width + (0 + width))%nat by lia.
  apply (@fold_seq_inv Locals.t (fun x st => filled (y * width + x) st)
           (cell M y) width 0 st).
  - now rewrite Nat.add_0_r.
  - intros x st' Hx Hst'. cbv beta in *.
    replace (y * width + S x)%nat with (S (y * width + x)) by lia.
    apply cell_filled; [lia|exact Hy|exact Hst'].
Qed.

Lemma rows_filled (st : Locals.t) :
  filled 0 st -> filled (height * width) (rows M st).
Proof.
  intros Hst. unfold rows.
  apply (@fold_seq_inv Locals.t (fun y st => filled (y * width) st)
           (row M) height 0 st).
  - exact Hst.
  - intros y st' Hy Hst'. cbv beta in *. apply row_filled; [lia|exact Hst'].
Qed.

End Filled.

(** X15.  The image [createMockWindData] builds ([Math.sin] and
    [Math.cos] staying within [[-1, 1]]): it holds [360 * 180 * 4] bytes;
    for every cell [(x, y)] the components [u], [v] of the wind vector lie
    in [[-1, 1]], the four bytes at index [(y * 360 + x) * 4] are the
    integer part of [(u + 1) * 127.5], its fraction in 255ths, and the
    same for [v], each stored as computed (in range, so that the byte
    array wraps nothing) and determining the scaled component to within
    [1 / 255]; and the [uMin], [uMax], [vMin], [vMax] reported are numbers
    that bracket the components of every cell. *)
Theorem createMockWindData_image (M : MathLib) (bounds : Bounds) (x y : nat) :
  trigBounded M -> (x < width)%nat -> (y < height)%nat ->
  exists u v : Q,
    windVector M x y = (Fin u, Fin v)
    /\ (-1 <= u <= 1)%Q /\ (-1 <= v <= 1)%Q
    /\ length (WindDataType.image (createMockWindData M bounds))
       = (width * height * 4)%nat
    /\ (let image := WindDataType.image (createMockWindData M bounds) in
        let i := ((y * width + x) * 4)%nat in
        nth i image 0%Z = hiByte u /\ nth (i + 1) image 0%Z = loByte u
        /\ nth (i + 2) image 0%Z = hiByte v /\ nth (i + 3) image 0%Z = loByte v)
    /\ (0 <= hiByte u <= 255 /\ 0 <= loByte u <= 254
        /\ 0 <= hiByte v <= 255 /\ 0 <= loByte v <= 254)%Z
    /\ (inject_Z (hiByte u) + inject_Z (loByte u) / 255 <= (u + 1) * 127.5
        < inject_Z (hiByte u) + (inject_Z (loByte u) + 1) / 255)%Q
    /\ (inject_Z (hiByte v) + inject_Z (loByte v) / 255 <= (v + 1) * 127.5
        < inject_Z (hiByte v) + (inject_Z (loByte v) + 1) / 255)%Q
    /\ bracket (WindDataType.uMin (createMockWindData M bounds))
               (WindDataType.uMax (createMockWindData M bounds)) u
    /\ bracket (WindDataType.vMin (createMockWindData M bounds))
               (WindDataType.vMax (createMockWindData M bounds)) v.
Proof.
  intros Htrig Hx Hy.
  destruct (windVector_bounded x y Htrig) as (u & v & Ewv & Hu & Hv).
  exists u, v. split; [exact Ewv|]. split; [exact Hu|]. split; [exact Hv|].
  unfold createMockWindData.
  cbn [WindDataType.image WindDataType.uMin WindDataType.uMax
       WindDataType.vMin WindDataType.vMax].
  match goal with
  | |- context [rows M ?st0] =>
      assert (Hf : filled M (height * width) (rows M st0))
  end.
  { apply rows_filled; [exact Htrig|].
    split; [|split].
    - cbn [Locals.data]. apply repeat_length.
    - unfold running. cbn. repeat split; now left.
    - intros x' y' _ H. lia. }
  destruct Hf as (Hlen & _ & Hdone).
  destruct (Hdone x y Hx) as [(u' & v' & Ewv' & W) (u'' & v'' & Ewv'' & B)].
  { nia. }
  rewrite Ewv in Ewv', Ewv''.
  injection Ewv' as <- <-. injection Ewv'' as <- <-.
  split; [exact Hlen|]. split; [exact W|].
  split.
  - pose proof (hiByte_range Hu). pose proof (hiByte_range Hv).
    pose proof (loByte_range u). pose proof (loByte_range v). lia.
  - split; [apply bytes_precision|]. split; [apply bytes_precision|exact B].
Qed.

Lemma demoMath_trig : trigBounded demoMath.
Proof.
  split; [exact sinTaylor_bounded|].
  intros x. cbn [Math_cos demoMath cosTaylor]. unfold fin, clamp1.
  eexists. split; [reflexivity|].
  rewrite Qred_correct. split.
  - apply Q.le_max_l.
  - apply Q.max_lub; [lra|apply Q.le_min_l].
Qed.

(** On the equator at the meridian of Greenwich both components are [0],
    encoded as [(127, 127)]. *)
Lemma createMockWindData_image_run :
  windVector demoMath 180 90 = (Fin 0, Fin 0)
  /\ (let image := WindDataType.image (createMockWindData demoMath regionBounds) in
      let i := ((90 * width + 180) * 4)%nat in
      nth i image 0%Z = 127%Z /\ nth (i + 1) image 0%Z = 127%Z
      /\ nth (i + 2) image 0%Z = 127%Z /\ nth (i + 3) image 0%Z = 127%Z).
Proof.
  assert (E : windVector demoMath 180 90 = (Fin 0, Fin 0)) by (vm_compute; reflexivity).
  split; [exact E|].
  destruct (@createMockWindData_image demoMath regionBounds 180 90 demoMath_trig)
    as (u & v & Ewv & _ & _ & _ & H & _).
  - unfold width. lia.
  - unfold height. lia.
  - rewrite E in Ewv. injection Ewv as <- <-. exact H.
Defined.

End WindImage.

(* ===================================================================== *)
(** ** The shaders                                                       *)
(* ===================================================================== *)

Module ShaderArithmetic.

Import Shaders.

Local Open Scope Q_scope.

Lemma fract_unit (x : Q) : 0 <= fract x < 1.
Proof.
  unfold fract, floor.
  pose proof (Qfloor_le x) as H1. pose proof (Qlt_floor x) as H2.
  rewrite inject_Z_plus in H2. change (inject_Z 1) with 1 in H2. lra.
Qed.

Lemma floor_unit (x : Q) : 0 <= x < 1 -> 0 <= floor (x * 255) / 255 < 1.
Proof.
  intros Hx. unfold floor.
  assert (H : (0 <= Qfloor (x * 255) <= 254)%Z).
  { pose proof (Qfloor_le (x * 255)) as H1. pose proof (Qlt_floor (x * 255)) as H2.
    rewrite inject_Z_plus in H2. change (inject_Z 1) with 1 in H2.
    split.
    - assert (H : inject_Z 0 < inject_Z (Qfloor (x * 255)) + 1).
      { change (inject_Z 0) with 0. lra. }
      change 1 with (inject_Z 1) in H. rewrite <- inject_Z_plus in H.
      rewrite <- Zlt_Qlt in H. lia.
    - assert (H : inject_Z (Qfloor (x * 255)) < inject_Z 255).
      { change (inject_Z 255) with 255. lra. }
      rewrite <- Zlt_Qlt in H. lia. }
  destruct H as [H0 H1].
  rewrite Zle_Qle in H0, H1.
  change (inject_Z 0) with 0 in H0. change (inject_Z 254) with 254 in H1.
  unfold Qdiv. change (/ 255) with (1 # 255). lra.
Qed.

(** Both coordinates, resp. all four channels, lie in [[0, 1)]. *)
Definition unit2 (p : Q * Q) : Prop :=
  0 <= fst p < 1 /\ 0 <= snd p < 1.

Definition unit4 (c : Q * Q * Q * Q) : Prop :=
  let '(r, g, b, a) := c in
  0 <= r < 1 /\ 0 <= g < 1 /\ 0 <= b < 1 /\ 0 <= a < 1.

Definition same (p q : Q * Q) : Prop :=
  fst p == fst q /\ snd p == snd q.

Lemma unit2_same (p q : Q * Q) : same p q -> unit2 q -> unit2 p.
Proof.
  intros [E1 E2] [H1 H2]. unfold unit2. lra.
Qed.

Lemma same_trans (p q r : Q * Q) : same p q -> same q r -> same p r.
Proof.
  intros [E1 E2] [F1 F2]. unfold same. lra.
Qed.

Lemma decode_encode (pos : Q * Q) : same (decode (encode pos)) pos.
Proof.
  destruct pos as [x y]. unfold encode, decode, same. cbn [fst snd].
  unfold fract, Qdiv. change (/ 255) with (1 # 255). split; ring.
Qed.

Lemma encode_unit (pos : Q * Q) : unit2 pos -> unit4 (encode pos).
Proof.
  destruct pos as [x y]. intros [Hx Hy]. cbn [fst snd] in *.
  unfold encode, unit4.
  split; [apply fract_unit|]. split; [apply fract_unit|].
  split; now apply floor_unit.
Qed.

Lemma mix_unit (x y d : Q) :
  0 <= x < 1 -> 0 <= y < 1 -> d = 0 \/ d = 1 ->
  0 <= mix x y d < 1
  /\ (d = 0 -> mix x y d == x) /\ (d = 1 -> mix x y d == y).
Proof.
  intros Hx Hy [-> | ->]; unfold mix.
  - assert (E : x * (1 - 0) + y * 0 == x) by ring.
    split; [rewrite E; exact Hx|]. split; [intros _; exact E|discriminate].
  - assert (E : x * (1 - 1) + y * 1 == y) by ring.
    split; [rewrite E; exact Hy|]. split; [discriminate|intros _; exact E].
Qed.

Lemma step_01 (edge x : Q) : step edge x = 0 \/ step edge x = 1.
Proof. unfold step. destruct (Qlt_le_dec x edge); auto. Qed.

(** The position a texel holds after the wrap-around. *)
Definition wrapped (color : Q * Q * Q * Q) (offset : Q * Q) : Q * Q :=
  (fract (1 + fst (decode color) + fst offset),
   fract (1 + snd (decode color) + snd offset)).

(** X16.  The position encoding of the update shader is inverted by
    the decoding of the draw and update shaders, for every position; a
    position of the unit square is encoded in four channels of [[0, 1)];
    and whatever the texel read and the displacement, the colour written
    by the update pass has its four channels in [[0, 1)] and decodes to a
    position of the unit square: the wrapped position when the particle
    is kept, the random position when it is dropped.  The pseudo-random
    generator returns a number of [[0, 1)]. *)
Theorem position_codec :
  (forall pos : Q * Q, same (decode (encode pos)) pos)
  /\ (forall pos : Q * Q, unit2 pos -> unit4 (encode pos))
  /\ (forall (color : Q * Q * Q * Q) (offset random_pos : Q * Q) (edge x : Q),
        unit2 random_pos ->
        let drop := step edge x in
        let color' := advance color offset random_pos drop in
        unit4 color'
        /\ unit2 (decode color')
        /\ (x < edge -> same (decode color') (wrapped color offset))
        /\ (edge <= x -> same (decode color') random_pos))
  /\ (forall (sin : Q -> Q) (co : Q * Q), 0 <= rand sin co < 1).
Proof.
  split; [exact decode_encode|]. split; [exact encode_unit|]. split.
  - intros color offset random_pos edge x [Hr1 Hr2]. cbv zeta.
    unfold advance, wrapped. cbv zeta. cbn [fst snd].
    pose proof (fract_unit (1 + fst (decode color) + fst offset)) as Hw1.
    pose proof (fract_unit (1 + snd (decode color) + snd offset)) as Hw2.
    destruct (mix_unit (d := step edge x) Hw1 Hr1 (step_01 edge x)) as (M1 & M10 & M11).
    destruct (mix_unit (d := step edge x) Hw2 Hr2 (step_01 edge x)) as (M2 & M20 & M21).
    set (pos := (mix (fract (1 + fst (decode color) + fst offset)) (fst random_pos)
                     (step edge x),
                 mix (fract (1 + snd (decode color) + snd offset)) (snd random_pos)
                     (step edge x))) in *.
    assert (Hpos : unit2 pos) by (split; assumption).
    pose proof (decode_encode pos) as HD.
    split; [now apply encode_unit|]. split.
    + now apply (unit2_same HD).
    + split.
      * intros Hlt.
        assert (E : step edge x = 0).
        { unfold step. destruct (Qlt_le_dec x edge); [reflexivity|lra]. }
        apply (same_trans HD). unfold same, pos. cbn [fst snd].
        split; [now apply M10|now apply M20].
      * intros Hle.
        assert (E : step edge x = 1).
        { unfold step. destruct (Qlt_le_dec x edge); [lra|reflexivity]. }
        apply (same_trans HD). unfold same, pos. cbn [fst snd].
        split; [now apply M11|now apply M21].
  - intros sin co. unfold rand. apply fract_unit.
Qed.

(** *** The fade of the trails *)

(** The byte of a channel after the fade pass, from the byte [k] it held:
    the channel value is [k / 255]. *)
Definition fadeByte (u_opacity : Q) (k : Z) : Z :=
  Qfloor (255 * fade (inject_Z k / 255) u_opacity).

Lemma fadeByte_floor (u_opacity : Q) (k : Z) :
  fadeByte u_opacity k = Qfloor (inject_Z k * u_opacity).
Proof.
  unfold fadeByte, fade, floor.
  assert (E : 255 * (inject_Z (Qfloor (255 * (inject_Z k / 255) * u_opacity)) / 255)
              == inject_Z (Qfloor (255 * (inject_Z k / 255) * u_opacity))).
  { field. }
  rewrite (Qfloor_comp _ _ E), Qfloor_Z.
  apply Qfloor_comp. field.
Qed.

Lemma fadeByte_decreases (u_opacity : Q) (k : Z) :
  0 < u_opacity < 1 -> (0 <= k)%Z ->
  (0 <= fadeByte u_opacity k <= Z.max 0 (k - 1))%Z.
Proof.
  intros Hop Hk. rewrite fadeByte_floor.
  pose proof (Qfloor_le (inject_Z k * u_opacity)) as H1.
  pose proof (Qlt_floor (inject_Z k * u_opacity)) as H2.
  rewrite inject_Z_plus in H2. change (inject_Z 1) with 1 in H2.
  assert (Hk0 : 0 <= inject_Z k).
  { change 0 with (inject_Z 0). now rewrite <- Zle_Qle. }
  assert (Hp : 0 <= inject_Z k * u_opacity) by (apply Qmult_le_0_compat; lra).
  split.
  - assert (H : inject_Z 0 < inject_Z (Qfloor (inject_Z k * u_opacity)) + 1).
    { change (inject_Z 0) with 0. lra. }
    change 1 with (inject_Z 1) in H. rewrite <- inject_Z_plus in H.
    rewrite <- Zlt_Qlt in H. lia.
  - destruct (Z.eq_dec k 0) as [->|Hne].
    + assert (E : inject_Z 0 * u_opacity == inject_Z 0) by (change (inject_Z 0) with 0; ring).
      rewrite (Qfloor_comp _ _ E), Qfloor_Z. lia.
    + assert (Hkpos : 0 < inject_Z k).
      { change 0 with (inject_Z 0). rewrite <- Zlt_Qlt. lia. }
      assert (Hlt : inject_Z k * u_opacity < inject_Z k).
      { assert (0 < inject_Z k * (1 - u_opacity)) by (apply Qmult_lt_0_compat; lra).
        lra. }
      assert (H : inject_Z (Qfloor (inject_Z k * u_opacity)) < inject_Z k) by lra.
      rewrite <- Zlt_Qlt in H. lia.
Qed.

(** X18.  The fade pass with a positive opacity of at most [0.996], the
    default of the layer, takes at least one unit off every channel byte
    that is not 0 (the product [k * u_opacity] stays below [k] by
    [0.004 k] at least, a margin far above the rounding of the floats of
    the GPU): after [n] passes a byte [k] is at most [max (0, k - n)], and
    after 255 passes it is 0. *)
Theorem fade_vanishes (u_opacity : Q) (k : Z) (n : nat) :
  0 < u_opacity <= 0.996 -> (0 <= k <= 255)%Z ->
  (0 <= Nat.iter n (fadeByte u_opacity) k <= Z.max 0 (k - Z.of_nat n))%Z
  /\ Nat.iter 255 (fadeByte u_opacity) k = 0%Z
  /\ fade (inject_Z k / 255) u_opacity
     == inject_Z (fadeByte u_opacity k) / 255.
Proof.
  intros Hop' Hk.
  assert (Hop : 0 < u_opacity < 1) by lra.
  assert (Hiter : forall m : nat,
             (0 <= Nat.iter m (fadeByte u_opacity) k
              <= Z.max 0 (k - Z.of_nat m))%Z).
  { induction m as [|m IH].
    - cbn. lia.
    - rewrite Nat.iter_succ.
      pose proof (@fadeByte_decreases u_opacity
                    (Nat.iter m (fadeByte u_opacity) k) Hop (proj1 IH)).
      lia. }
  split; [apply Hiter|]. split.
  - pose proof (Hiter 255%nat). lia.
  - unfold fadeByte, fade, floor.
    set (z := Qfloor (255 * (inject_Z k / 255) * u_opacity)).
    assert (E : 255 * (inject_Z z / 255) == inject_Z z) by field.
    rewrite (Qfloor_comp _ _ E), Qfloor_Z. reflexivity.
Qed.

Lemma fade_vanishes_run :
  fadeByte 0.996 255%Z = 253%Z
  /\ Nat.iter 255 (fadeByte 0.996) 255%Z = 0%Z.
Proof.
  split; [reflexivity|].
  refine (proj1 (proj2 (@fade_vanishes 0.996 255%Z 0%nat _ _))); [lra|lia].
Defined.

End ShaderArithmetic.

(* ===================================================================== *)
(** ** The render passes and the animation loop                          *)
(* ===================================================================== *)

Module DoubleBuffer.

Import WebGLPasses.

(** The layer with its two pairs of textures swapped. *)
Definition swapped (l : Layer) : Layer :=
  {| programs := programs l; quadBuffer := quadBuffer l;
     framebuffer := framebuffer l;
     particleIndexBuffer := particleIndexBuffer l;
     windData := windData l;
     colorRampTexture := colorRampTexture l;
     windTexture := windTexture l;
     backgroundTexture := screenTexture l;
     screenTexture := backgroundTexture l;
     particleStateTexture0 := particleStateTexture1 l;
     particleStateTexture1 := particleStateTexture0 l |}.

(** The four draw calls of a frame: the faded background and the
    particles into the screen texture, the screen texture onto the canvas,
    and the update of the particle states. *)
Definition frameCalls (l : Layer) : list DrawCall :=
  [ {| program := screenProgram;
       sampled := [backgroundTexture l];
       target := screenTexture l |};
    {| program := drawProgram;
       sampled := [windTexture l; particleStateTexture0 l; colorRampTexture l];
       target := screenTexture l |};
    {| program := screenProgram;
       sampled := [screenTexture l];
       target := None |};
    {| program := updateProgram;
       sampled := [windTexture l; particleStateTexture0 l];
       target := particleStateTexture1 l |} ].

(** Every buffer, program and texture is there, and the six textures are
    six different objects. *)
Definition ready (l : Layer) : Prop :=
  programs l = true /\ quadBuffer l = true /\ framebuffer l = true
  /\ particleIndexBuffer l = true /\ windData l = true
  /\ exists ramp wind bg screen s0 s1 : Texture,
       colorRampTexture l = Some ramp /\ windTexture l = Some wind
       /\ backgroundTexture l = Some bg /\ screenTexture l = Some screen
       /\ particleStateTexture0 l = Some s0 /\ particleStateTexture1 l = Some s1
       /\ NoDup [ramp; wind; bg; screen; s0; s1].

(** The call does not render into a texture it samples. *)
Definition noFeedback (c : DrawCall) : Prop :=
  match target c with
  | Some t => ~ In (Some t) (sampled c)
  | None => True
  end.

Lemma NoDup6 (a b c d e f : nat) :
  NoDup [a; b; c; d; e; f] ->
  a <> b /\ a <> c /\ a <> d /\ a <> e /\ a <> f
  /\ b <> c /\ b <> d /\ b <> e /\ b <> f
  /\ c <> d /\ c <> e /\ c <> f
  /\ d <> e /\ d <> f /\ e <> f.
Proof.
  intros H.
  repeat match goal with
         | H : NoDup (_ :: _) |- _ => inversion H; clear H; subst
         end.
  cbn [In] in *. intuition congruence.
Qed.

(** X19.  An animation frame on a layer that has all its resources,
    its six textures being six different objects, makes four draw calls:
    the background and the particles into the screen texture, the screen
    texture onto the canvas, and the update pass, which samples particle
    state texture 0 and renders into texture 1.  No call renders into a
    texture it samples.  The frame swaps the two particle state textures
    and the two screen textures, so that what one frame wrote is what the
    next one reads, and two frames restore the layer. *)
Theorem drawAnimationFrame_ping_pong (l : Layer) (gl : GL) :
  ready l ->
  fst (drawAnimationFrame (l, gl)) = swapped l
  /\ calls (snd (drawAnimationFrame (l, gl))) = calls gl ++ frameCalls l
  /\ Forall noFeedback (frameCalls l)
  /\ ready (swapped l)
  /\ fst (drawAnimationFrame (drawAnimationFrame (l, gl))) = l
  /\ calls (snd (drawAnimationFrame (drawAnimationFrame (l, gl))))
     = calls gl ++ frameCalls l ++ frameCalls (swapped l).
Proof.
  intros (Hp & Hq & Hf & Hi & Hw
          & ramp & wind & bg & screen & s0 & s1
          & E1 & E2 & E3 & E4 & E5 & E6 & Hnd).
  destruct l as [p q f i w cr wt b s t0 t1].
  cbn [programs quadBuffer framebuffer particleIndexBuffer windData
       colorRampTexture windTexture backgroundTexture screenTexture
       particleStateTexture0 particleStateTexture1] in *.
  subst.
  pose proof (NoDup6 Hnd) as D.
  assert (Hframe : forall gl0 ramp wind bg screen s0 s1,
    drawAnimationFrame
      ({| programs := true; quadBuffer := true; framebuffer := true;
          particleIndexBuffer := true; windData := true;
          colorRampTexture := Some ramp; windTexture := Some wind;
          backgroundTexture := Some bg; screenTexture := Some screen;
          particleStateTexture0 := Some s0;
          particleStateTexture1 := Some s1 |}, gl0)
    = (swapped {| programs := true; quadBuffer := true; framebuffer := true;
                  particleIndexBuffer := true; windData := true;
                  colorRampTexture := Some ramp; windTexture := Some wind;
                  backgroundTexture := Some bg; screenTexture := Some screen;
                  particleStateTexture0 := Some s0;
                  particleStateTexture1 := Some s1 |},
       snd (drawAnimationFrame
              ({| programs := true; quadBuffer := true; framebuffer := true;
                  particleIndexBuffer := true; windData := true;
                  colorRampTexture := Some ramp; windTexture := Some wind;
                  backgroundTexture := Some bg; screenTexture := Some screen;
                  particleStateTexture0 := Some s0;
                  particleStateTexture1 := Some s1 |}, gl0)))
    /\ calls (snd (drawAnimationFrame
              ({| programs := true; quadBuffer := true; framebuffer := true;
                  particleIndexBuffer := true; windData := true;
                  colorRampTexture := Some ramp; windTexture := Some wind;
                  backgroundTexture := Some bg; screenTexture := Some screen;
                  particleStateTexture0 := Some s0;
                  particleStateTexture1 := Some s1 |}, gl0)))
       = calls gl0
         ++ frameCalls {| programs := true; quadBuffer := true; framebuffer := true;
                  particleIndexBuffer := true; windData := true;
                  colorRampTexture := Some ramp; windTexture := Some wind;
                  backgroundTexture := Some bg; screenTexture := Some screen;
                  particleStateTexture0 := Some s0;
                  particleStateTexture1 := Some s1 |}).
  { intros. split; [reflexivity|].
    cbn. rewrite <- !app_assoc. reflexivity. }
  destruct (Hframe gl ramp wind bg screen s0 s1) as [F1 F2].
  split; [rewrite F1; reflexivity|]. split; [exact F2|]. split; [|split; [|split]].
  - unfold frameCalls, noFeedback. cbn [target sampled
      backgroundTexture screenTexture windTexture colorRampTexture
      particleStateTexture0 particleStateTexture1].
    repeat (apply Forall_cons; [cbn; intuition congruence|]). apply Forall_nil.
  - unfold ready, swapped. cbn. repeat split.
    exists ramp, wind, screen, bg, s1, s0. repeat split.
    repeat constructor; cbn [In]; intuition congruence.
  - rewrite F1. unfold swapped at 1. cbn [programs quadBuffer framebuffer
      particleIndexBuffer windData colorRampTexture windTexture
      backgroundTexture screenTexture particleStateTexture0 particleStateTexture1].
    destruct (Hframe (snd (drawAnimationFrame
              ({| programs := true; quadBuffer := true; framebuffer := true;
                  particleIndexBuffer := true; windData := true;
                  colorRampTexture := Some ramp; windTexture := Some wind;
                  backgroundTexture := Some bg; screenTexture := Some screen;
                  particleStateTexture0 := Some s0;
                  particleStateTexture1 := Some s1 |}, gl)))
                ramp wind screen bg s1 s0) as [G1 _].
    rewrite G1. reflexivity.
  - rewrite F1. unfold swapped at 1. cbn [programs quadBuffer framebuffer
      particleIndexBuffer windData colorRampTexture windTexture
      backgroundTexture screenTexture particleStateTexture0 particleStateTexture1].
    destruct (Hframe (snd (drawAnimationFrame
              ({| programs := true; quadBuffer := true; framebuffer := true;
                  particleIndexBuffer := true; windData := true;
                  colorRampTexture := Some ramp; windTexture := Some wind;
                  backgroundTexture := Some bg; screenTexture := Some screen;
                  particleStateTexture0 := Some s0;
                  particleStateTexture1 := Some s1 |}, gl)))
                ramp wind screen bg s1 s0) as [_ G2].
    rewrite G2, F2, <- app_assoc. reflexivity.
Qed.

(** The state in which [initializeState] and the first [updateState]
    leave a layer whose programs and buffers were created: the colour
    ramp, the particle states, the wind data and the screen textures are
    set up in this order. *)
Definition created : Layer * GL :=
  ({| programs := true; quadBuffer := true; framebuffer := true;
      particleIndexBuffer := false; windData := false;
      colorRampTexture := None; windTexture := None;
      backgroundTexture := None; screenTexture := None;
      particleStateTexture0 := None; particleStateTexture1 := None |},
   {| activeUnit := 0%nat;
      textureUnits := fun _ => None;
      framebufferBound := false;
      attachment := None;
      nextTexture := 1%nat;
      calls := [] |}).

Definition initialized : Layer * GL :=
  resize (setWindData (setNumParticles (setColorRamp created))).

Lemma initialized_ready : ready (fst initialized).
Proof.
  unfold ready. cbn. repeat split.
  exists 1%nat, 4%nat, 5%nat, 6%nat, 2%nat, 3%nat. repeat split.
  repeat constructor; cbn [In]; intuition discriminate.
Qed.

Lemma drawAnimationFrame_ping_pong_run :
  List.map target (calls (snd (drawAnimationFrame initialized)))
  = [Some 6; Some 6; None; Some 3]%nat
  /\ List.map sampled
       (calls (snd (drawAnimationFrame (drawAnimationFrame initialized))))
     = [[Some 5]; [Some 4; Some 2; Some 1]; [Some 6]; [Some 4; Some 2];
        [Some 6]; [Some 4; Some 3; Some 1]; [Some 5]; [Some 4; Some 3]]%nat
  /\ fst (drawAnimationFrame (drawAnimationFrame initialized)) = fst initialized.
Proof.
  pose proof (@drawAnimationFrame_ping_pong (fst initialized) (snd initialized)
                initialized_ready) as (_ & H2 & _ & _ & H5 & H6).
  change (fst initialized, snd initialized) with initialized in *.
  split; [rewrite H2; reflexivity|]. split; [rewrite H6; reflexivity|exact H5].
Defined.

End DoubleBuffer.

Module AnimationLoop.

Import WebGLPasses.





End AnimationLoop.
